(** * etcd-fuzzing: the fuzzing engine, embedded from the Go sources

    The development follows the repository's code: [main.go] and the Go
    excerpts quoted in [docs/event_flow.md], [docs/execution_flow.md] and
    [docs/architecture.md] ([tlc_client.go], [guider.go], [fuzzer.go]).

    Conventions.
    - A Go [int] is a [Z]; where a product can leave the 64-bit range the
      two's-complement wrap is written out ([GoInt.wrap]).
    - A [*List[*Event]] is a pointer: event lists live in a heap
      ([gmap loc (list Event)]), so that an [Append] made by a callee is
      seen by the caller.
    - A Go map is a [gmap]; [len(m)] is [size m].
    - A run-time panic is the result [Panic]; the world reached when the
      panic is raised is kept.
    - Collaborators whose code is outside the excerpts (the TLC server, the
      mutators, the Raft environment, the trace context's oracles) are
      section variables: every theorem holds for all of them. *)

From Stdlib Require Import ZArith QArith Lia Ascii.
From stdpp Require Import gmap strings list fin_maps pretty.

Local Open Scope Z_scope.

(** ** Go integers *)

Module GoInt.

Definition int_max : Z := 2 ^ 63 - 1.

(** Two's-complement reduction to 64 bits. *)
Definition wrap (z : Z) : Z := (z + 2 ^ 63) mod 2 ^ 64 - 2 ^ 63.

Definition mul (a b : Z) : Z := wrap (a * b).

(** [a % b] of Go: truncated remainder, run-time panic when [b = 0]. *)
Definition rem (a b : Z) : option Z :=
  if b =? 0 then None else Some (Z.rem a b).

End GoInt.

(** ** Results and the state monad with panics *)

Inductive result (A : Type) : Type :=
| Ok (a : A)
| Panic (why : string).
Arguments Ok {A} a.
Arguments Panic {A} why.

(** A computation over a state [S] either returns or panics; the state
    reached is kept in both cases. *)
Definition M (S A : Type) : Type := S → result A * S.

Global Instance M_ret {S} : MRet (M S) := λ A a s, (Ok a, s).

Global Instance M_bind {S} : MBind (M S) := λ A B k m s,
  match m s with
  | (Ok a, s') => k a s'
  | (Panic why, s') => (Panic why, s')
  end.

Definition panic {S A} (why : string) : M S A := λ s, (Panic why, s).

(** [for i := start; i < start + count; i++ { body }], the loop state
    [a] threaded through. *)
Fixpoint for_loop {S A} (count : nat) (i : Z) (body : Z → A → M S A)
    (a : A) : M S A :=
  match count with
  | O => mret a
  | S count' => a' ← body i a; for_loop count' (i + 1) body a'
  end.

(** [for i := 0; i < n; i++ { body }] *)
Definition for_range {S A} (n : Z) (body : Z → A → M S A) (a : A) : M S A :=
  for_loop (Z.to_nat n) 0 body a.

(** ** Containers *)

(** Modelled from the spec: the FIFO queue [Queue[T]] of the containers
    (its code is not among the excerpts): [Push] at the back, [Pop] at
    the front, [ok = false] on an empty queue. *)
Module Queue.
Abbreviation t := list (only parsing).
Definition Push {T} (q : t T) (x : T) : t T := q ++ [x].
Definition Pop {T} (q : t T) : option T * t T :=
  match q with
  | [] => (None, [])
  | x :: q' => (Some x, q')
  end.
Definition Size {T} (q : t T) : Z := Z.of_nat (length q).
Definition Reset {T} (q : t T) : t T := [].
End Queue.

(** ** Scheduling choices (execution_flow.md, [type SchedulingChoice]) *)

Inductive ChoiceType : Type :=
| Node | RandomBoolean | RandomInteger | StartNode | StopNode | ClientRequest.

Module SchedulingChoice.
Record t : Type := mk {
  Type_ : ChoiceType;
  From : N;
  To : N;
  MaxMessages : Z;
  Node : N;
  Step : Z;
  BooleanChoice : bool;
  IntegerChoice : Z;
  Request : Z
}.
End SchedulingChoice.

(** A schedule, [*List[*SchedulingChoice]]; the excerpts never write
    through this pointer, so it is a value. *)
Abbreviation Trace := (list SchedulingChoice.t).

(** ** Events and the TLC wire types *)

Inductive Param : Type :=
| PString (s : string)
| PUint (n : N).

(** [Event]: the fields the excerpts set ([Reset], [Name], [Node],
    [Params]); a field left out of a composite literal has Go's zero
    value. *)
Module Event.
Record t : Type := mk {
  Name : string;
  Node : N;
  Params : gmap string Param;
  Reset : bool
}.
End Event.

(** [&Event{Reset: true}] *)
Definition ResetEvent : Event.t :=
  {| Event.Name := ""; Event.Node := 0%N; Event.Params := ∅;
     Event.Reset := true |}.

Record TLCResponse : Type := mkTLCResponse {
  States : list string;
  Keys : list string
}.

Record State : Type := mkState {
  Repr : string;
  Key : string
}.

(** The zero [State{}] with which [make([]State, n)] fills the slice. *)
Definition zeroState : State := {| Repr := ""; Key := "" |}.

Record TLCClient : Type := mkTLCClient {
  ClientAddr : string
}.

Abbreviation loc := positive (only parsing).

(** One call of [http.Post(url, contentType, body)]. *)
Record HttpPost : Type := mkHttpPost {
  post_url : string;
  post_contentType : string;
  post_body : string
}.

(** Calls that leave the excerpts, in program order. *)
Inductive Call : Type :=
| CallHttpPost (rq : HttpPost)
| CallRunIteration (name : string) (mimic : option Trace)
| CallMutate (trace : Trace) (eventTrace : loc).

(** The world a call runs in: the heap of event lists, the calls made so
    far, and the state [X] of the collaborators that answer them (TLC
    server, mutator and strategy generators, Raft environment). *)
Record World (X : Type) : Type := mkWorld {
  heap : gmap loc (list Event.t);
  calls : list Call;
  ext : X
}.
Arguments mkWorld {X} heap calls ext.
Arguments heap {X} w.
Arguments calls {X} w.
Arguments ext {X} w.

Section ListOps.
Context {X : Type}.

(** [l.Append(e)] on a [*List[*Event]]; a nil pointer is a nil
    dereference. *)
Definition List_Append (l : loc) (e : Event.t) : M (World X) unit :=
  λ w, match heap w !! l with
       | Some es => (Ok tt, mkWorld (<[l := es ++ [e]]> (heap w)) (calls w) (ext w))
       | None => (Panic "nil pointer dereference", w)
       end.

(** Reading the elements behind the pointer (iteration, marshalling). *)
Definition List_Elems (l : loc) : M (World X) (list Event.t) :=
  λ w, match heap w !! l with
       | Some es => (Ok es, w)
       | None => (Panic "nil pointer dereference", w)
       end.
End ListOps.

(** ** tlc_client.go *)

Section TLCClientCode.
Context {X : Type}.
(** [json.Marshal] on a list of events. *)
Context (json_Marshal : list Event.t → string).
(** The round trip [http.Post] + read body + [json.Unmarshal]: the
    server, in state [X], answers a request with a parsed
    [TLCResponse]. *)
Context (tlc_reply : X → HttpPost → TLCResponse * X).

Definition http_Post (url contentType data : string) : M (World X) TLCResponse :=
  λ w, let rq := mkHttpPost url contentType data in
       let '(resp, x') := tlc_reply (ext w) rq in
       (Ok resp, mkWorld (heap w) (calls w ++ [CallHttpPost rq]) x').

(** The conversion loop
    [for i, s := range tlcResponse.States { result[i] = State{Repr: s, Key: tlcResponse.Keys[i]} }];
    [Keys[i]] past the end of [Keys] panics. *)
Fixpoint convertStates (i : nat) (states keys : list string)
    (result : list State) : M (World X) (list State) :=
  match states with
  | [] => mret result
  | s :: states' =>
      match keys !! i with
      | None => panic "index out of range"
      | Some k =>
          convertStates (S i) states' keys
            (<[i := {| Repr := s; Key := k |}]> result)
      end
  end.

Definition SendTrace (c : TLCClient) (trace : loc) : M (World X) (list State) :=
  List_Append trace ResetEvent ;;
  evs ← List_Elems trace ;
  let data := json_Marshal evs in
  tlcResponse ← http_Post ("http://" +:+ ClientAddr c +:+ "/execute")
                          "application/json" data ;
  let result := replicate (length (States tlcResponse)) zeroState in
  convertStates 0 (States tlcResponse) (Keys tlcResponse) result.
End TLCClientCode.

(** ** guider.go *)

(** [float64(n)] of an [int]. The quotient of two such conversions is kept
    as the exact rational; the Go value is its rounding to a double. *)
Definition float64 (n : Z) : Q := inject_Z n.

(** The interface [Guider]: [Check] has a pointer receiver, so the
    updated guider is returned next to the pair [(int, float64)]. *)
Class Guider (X G : Type) : Type := {
  Check : G → Trace → loc → M (World X) (G * (Z * Q))
}.

Record TLCStateGuider : Type := mkTLCStateGuider {
  tlcClient : TLCClient;
  statesMap : gmap string bool
}.

(** [TraceCoverageGuider] embeds a [TLCStateGuider]. *)
Record TraceCoverageGuider : Type := mkTraceCoverageGuider {
  embedded : TLCStateGuider;
  traces : gmap string bool
}.

(** The loop of [TLCStateGuider.Check]:
    [for _, s := range tlcStates { if _, exists := t.statesMap[s.Key]; !exists { numNewStates += 1; t.statesMap[s.Key] = true } }].
    The counter is bounded by [len(tlcStates)], itself an [int], so the
    increment cannot wrap. *)
Fixpoint countNewStates (tlcStates : list State) (statesMap : gmap string bool)
    (numNewStates : Z) : gmap string bool * Z :=
  match tlcStates with
  | [] => (statesMap, numNewStates)
  | s :: rest =>
      match statesMap !! Key s with
      | None => countNewStates rest (<[Key s := true]> statesMap) (numNewStates + 1)
      | Some _ => countNewStates rest statesMap numNewStates
      end
  end.

Section GuiderCode.
Context {X : Type}.
Context (json_Marshal : list Event.t → string).
Context (tlc_reply : X → HttpPost → TLCResponse * X).
(** [newEventTrace(events).Hash()]; neither function is among the
    excerpts. *)
Context (eventTrace_Hash : list Event.t → string).

Definition TLCStateGuider_Check (t : TLCStateGuider) (trace : Trace)
    (eventTrace : loc) : M (World X) (TLCStateGuider * (Z * Q)) :=
  tlcStates ← SendTrace json_Marshal tlc_reply (tlcClient t) eventTrace ;
  let '(statesMap', numNewStates) := countNewStates tlcStates (statesMap t) 0 in
  let curStates := Z.of_nat (size statesMap') in
  mret ({| tlcClient := tlcClient t; statesMap := statesMap' |},
        (numNewStates, (float64 numNewStates / float64 (Z.max curStates 1))%Q)).

Definition TraceCoverageGuider_Check (t : TraceCoverageGuider) (trace : Trace)
    (events : loc) : M (World X) (TraceCoverageGuider * (Z * Q)) :=
  r ← TLCStateGuider_Check (embedded t) trace events ;
  let embedded' := r.1 in
  evs ← List_Elems events ;
  let key := eventTrace_Hash evs in
  match traces t !! key with
  | None =>
      let traces' := <[key := true]> (traces t) in
      mret ({| embedded := embedded'; traces := traces' |},
            (1, (float64 1 / float64 (Z.of_nat (size traces')))%Q))
  | Some _ =>
      mret ({| embedded := embedded'; traces := traces t |},
            (0, (float64 0 / float64 (Z.of_nat (size (traces t))))%Q))
  end.

Definition TLCStateGuider_Guider : Guider X TLCStateGuider :=
  {| Check := TLCStateGuider_Check |}.

Definition TraceCoverageGuider_Guider : Guider X TraceCoverageGuider :=
  {| Check := TraceCoverageGuider_Check |}.
End GuiderCode.

(** ** fuzzer.go: seeding, the main loop, the mutation budget *)

Record RaftEnvironmentConfig : Type := mkRaftEnvironmentConfig {
  Replicas : Z;
  ElectionTick : Z;
  HeartbeatTick : Z;
  TicksPerStep : Z
}.

(** The numeric fields of [FuzzerConfig] (main.go). Its interface-valued
    fields are represented apart: the guider's state is a field of
    [Fuzzer], the mutator, the strategy and the checker are the
    collaborators of the section below. *)
Record FuzzerConfig : Type := mkFuzzerConfig {
  Iterations : Z;
  Steps : Z;
  RaftEnvironmentConfig_ : RaftEnvironmentConfig;
  MutPerTrace : Z;
  NumberRequests : Z;
  CrashQuota : Z;
  MaxMessages : Z;
  SeedPopulationSize : Z;
  ReseedFrequency : Z
}.

Record Fuzzer (G : Type) : Type := mkFuzzer {
  config : FuzzerConfig;
  guider : G;
  mutatedTracesQueue : Queue.t Trace;
  stats : gmap string Z
}.
Arguments mkFuzzer {G} config guider mutatedTracesQueue stats.
Arguments config {G} f.
Arguments guider {G} f.
Arguments mutatedTracesQueue {G} f.
Arguments stats {G} f.

Section FuzzerCode.
Context {X G : Type} {guiderI : Guider X G}.
(** [copyTrace(·, defaultCopyFilter())] *)
Context (copyTrace : Trace → Trace).
(** [f.config.Mutator.Mutate]: the mutator answers from its own state
    (in [X]); it may read the event lists. *)
Context (mutate : X → gmap loc (list Event.t) → Trace → loc → (Trace * bool) * X).
(** [f.RunIteration] as seen from the main loop: a schedule and the
    events recorded, from the state of strategy and environment. *)
Context (runIteration : X → string → option Trace → (Trace * list Event.t) * X).
(** [f.config.Checker], possibly nil, applied to the Raft environment. *)
Context (checker : option (X → bool)).

Definition Mutate (trace : Trace) (eventTrace : loc) : M (World X) (Trace * bool) :=
  λ w, let '(r, x') := mutate (ext w) (heap w) trace eventTrace in
       (Ok r, mkWorld (heap w) (calls w ++ [CallMutate trace eventTrace]) x').

(** The event list returned is a fresh [NewList[*Event]()]. *)
Definition RunIteration (name : string) (mimic : option Trace) : M (World X) (Trace * loc) :=
  λ w, let '((trace, evs), x') := runIteration (ext w) name mimic in
       let l := fresh (dom (heap w)) in
       (Ok (trace, l),
        mkWorld (<[l := evs]> (heap w)) (calls w ++ [CallRunIteration name mimic]) x').

(** [f.mutatedTracesQueue.Push(copyTrace(t, defaultCopyFilter()))] *)
Definition pushCopy (f : Fuzzer G) (t : Trace) : Fuzzer G :=
  mkFuzzer (config f) (guider f)
    (Queue.Push (mutatedTracesQueue f) (copyTrace t)) (stats f).

(** [f.stats[key] = f.stats[key].(int) + 1]; the type assertion panics
    on a missing entry. *)
Definition stats_incr (key : string) (f : Fuzzer G) : M (World X) (Fuzzer G) :=
  match stats f !! key with
  | Some n => mret (mkFuzzer (config f) (guider f) (mutatedTracesQueue f)
                      (<[key := n + 1]> (stats f)))
  | None => panic "interface conversion: interface {} is nil, not int"
  end.

(** [func (f *Fuzzer) seed()] *)
Definition seed (f : Fuzzer G) : M (World X) (Fuzzer G) :=
  let f0 := mkFuzzer (config f) (guider f)
              (Queue.Reset (mutatedTracesQueue f)) (stats f) in
  for_range (SeedPopulationSize (config f0))
    (λ i f, '(trace, _) ← RunIteration ("pop_" +:+ pretty i) None ;
            mret (pushCopy f trace))
    f0.

(** Modelled from the spec: the reseed test at the head of the main
    loop, "every [reseedFrequency] iterations" with reseeds at
    iterations 0, 3, 6, 9 for frequency 3, that is
    [i % f.config.ReseedFrequency == 0]; the excerpts of [Run] leave it
    out, main.go records that a zero frequency "throws the div zero
    error". *)
Definition reseedDue (i reseedFrequency : Z) : M (World X) bool :=
  match GoInt.rem i reseedFrequency with
  | None => panic "integer divide by zero"
  | Some r => mret (r =? 0)
  end.

(** Test selection: pop a mutated schedule if there is one. *)
Definition selectMimic (f : Fuzzer G) : M (World X) (option Trace * Fuzzer G) :=
  if 0 <? Queue.Size (mutatedTracesQueue f) then
    f1 ← stats_incr "mutated_executions" f ;
    let '(mimic, q) := Queue.Pop (mutatedTracesQueue f1) in
    mret (mimic, mkFuzzer (config f1) (guider f1) q (stats f1))
  else
    f1 ← stats_incr "random_executions" f ;
    mret (None, f1).

(** [if f.config.Checker != nil && !f.config.Checker(f.raftEnvironment)] *)
Definition checkBuggy (f : Fuzzer G) : M (World X) (Fuzzer G) :=
  λ w, match checker with
       | Some chk => if chk (ext w) then (Ok f, w)
                     else stats_incr "buggy_executions" f w
       | None => (Ok f, w)
       end.

(** The body of the mutation loop:
    [new, ok := f.config.Mutator.Mutate(trace, eventTrace); if ok { push }] *)
Definition mutateOnce (trace : Trace) (eventTrace : loc) (f : Fuzzer G) :
    M (World X) (Fuzzer G) :=
  '(new, ok) ← Mutate trace eventTrace ;
  if ok : bool then mret (pushCopy f new) else mret f.

(** The block [if numNewStates > 0 { numMutations := numNewStates * f.config.MutPerTrace; for j := 0; j < numMutations; j++ { ... } }] *)
Definition mutations (trace : Trace) (eventTrace : loc) (numNewStates : Z)
    (f : Fuzzer G) : M (World X) (Fuzzer G) :=
  if 0 <? numNewStates then
    let numMutations := GoInt.mul numNewStates (MutPerTrace (config f)) in
    for_range numMutations (λ _, mutateOnce trace eventTrace) f
  else mret f.

(** One turn of the loop of [Run]. *)
Definition iteration (i : Z) (f : Fuzzer G) : M (World X) (Fuzzer G) :=
  due ← reseedDue i (ReseedFrequency (config f)) ;
  f1 ← (if due : bool then seed f else mret f) ;
  '(mimic, f2) ← selectMimic f1 ;
  '(trace, eventTrace) ← RunIteration ("fuzz_" +:+ pretty i) mimic ;
  f3 ← checkBuggy f2 ;
  '(guider', (numNewStates, _)) ← Check (guider f3) trace eventTrace ;
  let f4 := mkFuzzer (config f3) guider' (mutatedTracesQueue f3) (stats f3) in
  mutations trace eventTrace numNewStates f4.

(** [func (f *Fuzzer) Run()] *)
Definition Run (f : Fuzzer G) : M (World X) (Fuzzer G) :=
  for_range (Iterations (config f)) iteration f.
End FuzzerCode.

(** ** fuzzer.go: the step loop of [RunIteration] and [Schedule] *)

(** [pb.MessageType] is an integer enumeration of the Raft library. *)
Abbreviation MessageType := Z (only parsing).

(** [pb.Message], the fields the excerpts read or set. *)
Module Message.
Record t : Type := mk {
  Type_ : MessageType;
  From : N;
  To : N;
  Term : N;
  Entries : list string
}.
End Message.

(** What a step does to the queues and to the Raft environment, in
    program order. *)
Inductive Effect : Type :=
| EStop (node : N)
| EStart (node : N)
| EStep (m : Message.t)
| ETick
| EPop (key : string) (m : Message.t)
| EPush (key : string) (m : Message.t).

(** The state the loop works on: the trace context [T] with the list
    behind [tCtx.eventTrace], the local map [crashed], [f.messageQueues]
    and [f.raftEnvironment]. *)
Record IterState (T E : Type) : Type := mkIterState {
  tCtx : T;
  eventTrace : list Event.t;
  crashed : gmap N bool;
  messageQueues : gmap string (Queue.t Message.t);
  raftEnvironment : E;
  effects : list Effect
}.
Arguments mkIterState {T E} tCtx eventTrace crashed messageQueues raftEnvironment effects.
Arguments tCtx {T E} _.
Arguments eventTrace {T E} _.
Arguments crashed {T E} _.
Arguments messageQueues {T E} _.
Arguments raftEnvironment {T E} _.
Arguments effects {T E} _.

(** [fmt.Sprintf("%d_%d", from, to)] *)
Definition queueKey (from to : N) : string := pretty from +:+ "_" +:+ pretty to.

Section RunIterationCode.
Context {T E : Type}.
(** The oracles of the trace context (mimic cursors, else strategy). *)
Context (CanCrash : T → Z → option N * T).
Context (CanStart : T → Z → option N * T).
Context (GetNextNodeChoice : T → (N * N * Z) * T).
Context (IsClientRequest : T → Z → option Z * T).
(** The Raft environment. *)
Context (env_Stop : E → N → E).
Context (env_Start : E → N → E).
Context (env_Step : E → Message.t → E).
Context (env_Tick : E → list Message.t * E).
(** Names of the Raft library and the recorder of sent messages. *)
Context (MsgProp : MessageType).
Context (MessageType_String : MessageType → string).
Context (sendEvent : Message.t → Event.t).

Local Abbreviation St := (IterState T E).

Definition withCtx {A} (o : T → A * T) : M St A :=
  λ s, let '(a, t') := o (tCtx s) in
       (Ok a, mkIterState t' (eventTrace s) (crashed s) (messageQueues s)
                (raftEnvironment s) (effects s)).

Definition appendEvent (e : Event.t) : M St unit :=
  λ s, (Ok tt, mkIterState (tCtx s) (eventTrace s ++ [e]) (crashed s)
                 (messageQueues s) (raftEnvironment s) (effects s)).

Definition setCrashed (c : gmap N bool) : M St unit :=
  λ s, (Ok tt, mkIterState (tCtx s) (eventTrace s) c (messageQueues s)
                 (raftEnvironment s) (effects s)).

Definition getCrashed : M St (gmap N bool) := λ s, (Ok (crashed s), s).

Definition Stop (node : N) : M St unit :=
  λ s, (Ok tt, mkIterState (tCtx s) (eventTrace s) (crashed s) (messageQueues s)
                 (env_Stop (raftEnvironment s) node) (effects s ++ [EStop node])).

Definition Start (node : N) : M St unit :=
  λ s, (Ok tt, mkIterState (tCtx s) (eventTrace s) (crashed s) (messageQueues s)
                 (env_Start (raftEnvironment s) node) (effects s ++ [EStart node])).

Definition Step (m : Message.t) : M St unit :=
  λ s, (Ok tt, mkIterState (tCtx s) (eventTrace s) (crashed s) (messageQueues s)
                 (env_Step (raftEnvironment s) m) (effects s ++ [EStep m])).

Definition Tick : M St (list Message.t) :=
  λ s, let '(ms, e') := env_Tick (raftEnvironment s) in
       (Ok ms, mkIterState (tCtx s) (eventTrace s) (crashed s) (messageQueues s)
                 e' (effects s ++ [ETick])).

(** [message, ok := queue.Pop()] on [queue := f.messageQueues[key]]; a
    key without a queue gives a nil pointer. *)
Definition popQueue (key : string) : M St (option Message.t) :=
  λ s, match messageQueues s !! key with
       | None => (Panic "nil pointer dereference", s)
       | Some q =>
           match Queue.Pop q with
           | (Some m, q') =>
               (Ok (Some m),
                mkIterState (tCtx s) (eventTrace s) (crashed s)
                  (<[key := q']> (messageQueues s)) (raftEnvironment s)
                  (effects s ++ [EPop key m]))
           | (None, _) => (Ok None, s)
           end
       end.

(** [f.messageQueues[key].Push(n)] *)
Definition pushQueue (key : string) (n : Message.t) : M St unit :=
  λ s, match messageQueues s !! key with
       | None => (Panic "nil pointer dereference", s)
       | Some q =>
           (Ok tt,
            mkIterState (tCtx s) (eventTrace s) (crashed s)
              (<[key := Queue.Push q n]> (messageQueues s)) (raftEnvironment s)
              (effects s ++ [EPush key n]))
       end.

(** [func (f *Fuzzer) Schedule(from, to uint64, maxMessages int) []pb.Message] *)
Definition Schedule (from to : N) (maxMessages : Z) : M St (list Message.t) :=
  let key := queueKey from to in
  for_range maxMessages
    (λ _ messages,
       r ← popQueue key ;
       match r with
       | Some message => mret (messages ++ [message])
       | None => mret messages
       end)
    [].

(** The event that [recordReceive] builds, with the parameters the
    excerpt spells out. *)
Definition receiveEvent (message : Message.t) : Event.t :=
  {| Event.Name := "DeliverMessage";
     Event.Node := Message.To message;
     Event.Params :=
       <["type" := PString (MessageType_String (Message.Type_ message))]>
       (<["term" := PUint (Message.Term message)]>
       (<["from" := PUint (Message.From message)]>
       (<["to" := PUint (Message.To message)]> ∅)));
     Event.Reset := false |}.

(** [func recordReceive(message pb.Message, eventTrace *List[*Event])] *)
Definition recordReceive (message : Message.t) : M St unit :=
  appendEvent (receiveEvent message).

Definition recordSend (n : Message.t) : M St unit := appendEvent (sendEvent n).

(** [for _, x := range xs { body }] *)
Fixpoint forEach {A} (xs : list A) (body : A → M St unit) : M St unit :=
  match xs with
  | [] => mret tt
  | x :: xs' => body x ;; forEach xs' body
  end.

(** The delivery block of a step. *)
Definition deliver (from to : N) (maxMessages : Z) : M St unit :=
  c ← getCrashed ;
  match c !! to with
  | Some _ => mret tt
  | None =>
      messages ← Schedule from to maxMessages ;
      forEach messages (λ m, recordReceive m ;; Step m)
  end.

Definition crashBlock (j : Z) : M St unit :=
  r ← withCtx (λ t, CanCrash t j) ;
  match r with
  | Some toCrash =>
      Stop toCrash ;;
      c ← getCrashed ;
      setCrashed (<[toCrash := true]> c)
  | None => mret tt
  end.

Definition startBlock (j : Z) : M St unit :=
  r ← withCtx (λ t, CanStart t j) ;
  match r with
  | Some toStart =>
      c ← getCrashed ;
      match c !! toStart with
      | Some true => Start toStart ;; setCrashed (delete toStart c)
      | _ => mret tt
      end
  | None => mret tt
  end.

Definition clientBlock (j : Z) : M St unit :=
  r ← withCtx (λ t, IsClientRequest t j) ;
  match r with
  | Some reqNum =>
      Step {| Message.Type_ := MsgProp; Message.From := 0%N;
              Message.To := 0%N; Message.Term := 0%N;
              Message.Entries := [pretty reqNum] |}
  | None => mret tt
  end.

Definition tickBlock : M St unit :=
  ms ← Tick ;
  forEach ms (λ n, recordSend n ;;
                   pushQueue (queueKey (Message.From n) (Message.To n)) n).

(** The body of [for j := 0; j < f.config.Steps; j++]. *)
Definition runStep (j : Z) : M St unit :=
  crashBlock j ;;
  startBlock j ;;
  '(from, to, maxMessages) ← withCtx GetNextNodeChoice ;
  deliver from to maxMessages ;;
  clientBlock j ;;
  tickBlock.

Definition runSteps (steps : Z) : M St unit :=
  for_range steps (λ j _, runStep j) tt.
End RunIterationCode.

(** ** main.go *)

(** How a Go process ends, and the status the shell sees: returning from
    [main] is status 0, an uncaught panic is status 2. *)
Inductive Termination : Type :=
| Returns
| Exits (code : Z)
| Panics.

Definition exit_status (t : Termination) : Z :=
  match t with
  | Returns => 0
  | Exits code => code
  | Panics => 2
  end.

(** [func main()], from the outcome of [rootCommand.Execute()] ([None] is
    a nil error): what is printed and how the process ends. *)
Definition main (execute : result (option string)) : list string * Termination :=
  match execute with
  | Ok None => ([], Returns)
  | Ok (Some err) => ([err], Returns)
  | Panic why => ([], Panics)
  end.

(** The configuration literal of [FuzzCommand]. *)
Definition FuzzCommand_config (episodes horizon replicas requests : Z) : FuzzerConfig :=
  {| Iterations := episodes;
     Steps := horizon;
     RaftEnvironmentConfig_ :=
       {| Replicas := replicas; ElectionTick := 20; HeartbeatTick := 2;
          TicksPerStep := 2 |};
     MutPerTrace := 5;
     NumberRequests := requests;
     CrashQuota := 2;
     MaxMessages := 10;
     SeedPopulationSize := 10;
     ReseedFrequency := 2000 |}.

(** The configuration literal of [OneCommand] (the [compare] command). *)
Definition OneCommand_config (episodes horizon replicas requests : Z) : FuzzerConfig :=
  {| Iterations := episodes;
     Steps := horizon;
     RaftEnvironmentConfig_ :=
       {| Replicas := replicas; ElectionTick := 12; HeartbeatTick := 2;
          TicksPerStep := 3 |};
     MutPerTrace := 5;
     NumberRequests := requests;
     CrashQuota := 10;
     MaxMessages := 5;
     SeedPopulationSize := 10;
     ReseedFrequency := 2000 |}.

(** ** Vocabulary of the statements *)

(** The successive answers of a collaborator asked [count] times, the
    [i]-th question depending on [i]. *)
Fixpoint answers {X A} (ask : Z → X → A * X) (count : nat) (i : Z) (x : X) :
    list A * X :=
  match count with
  | O => ([], x)
  | S count' =>
      let '(a, x1) := ask i x in
      let '(rest, x2) := answers ask count' (i + 1) x1 in
      (a :: rest, x2)
  end.

(** The schedules among the mutator's answers that came with [ok = true]. *)
Definition successes (rs : list (Trace * bool)) : list Trace :=
  fst <$> filter (λ r, r.2 = true) rs.

(** Messages popped from, and pushed into, the queue under [key]. *)
Fixpoint pops (key : string) (es : list Effect) : list Message.t :=
  match es with
  | [] => []
  | EPop k m :: es' => if decide (k = key) then m :: pops key es' else pops key es'
  | _ :: es' => pops key es'
  end.

Fixpoint pushes (key : string) (es : list Effect) : list Message.t :=
  match es with
  | [] => []
  | EPush k m :: es' => if decide (k = key) then m :: pushes key es' else pushes key es'
  | _ :: es' => pushes key es'
  end.

(** The content of the queue under [key]; no queue, no content. *)
Definition queueAt (key : string) (qs : gmap string (Queue.t Message.t)) :
    list Message.t :=
  default [] (qs !! key).

(** Strings of decimal digits, as [%d] prints an unsigned integer. *)
Definition digit (a : ascii) : bool :=
  (48 <=? nat_of_ascii a)%nat && (nat_of_ascii a <=? 57)%nat.

Fixpoint digits (s : string) : bool :=
  match s with
  | EmptyString => true
  | String a s' => digit a && digits s'
  end.

(** The queue discipline: for every key, what the queue held at the start
    followed by what was pushed is what was popped followed by what the
    queue holds now. *)
Definition FIFO {T E} (q0 : gmap string (Queue.t Message.t)) (s : IterState T E) : Prop :=
  ∀ key : string,
    queueAt key q0 ++ pushes key (effects s)
    = pops key (effects s) ++ queueAt key (messageQueues s).

(** A computation keeps a property of the state, whether it returns or
    panics. *)
Definition preserves {S A} (I : S → Prop) (m : M S A) : Prop :=
  ∀ s : S, I s → I (m s).2.

(** Every value a computation returns satisfies [P]. *)
Definition returns {S A} (P : A → Prop) (m : M S A) : Prop :=
  ∀ (s : S) (a : A) (s' : S), m s = (Ok a, s') → P a.

(** The guider of the fuzzer has seen at least what it had seen. *)
Definition seenGrows (f f' : Fuzzer TLCStateGuider) : Prop :=
  statesMap (guider f) ⊆ statesMap (guider f').

(** ** Test doubles, for running the definitions on concrete inputs *)

Module Double.
(** The collaborators' state is a counter of the questions asked. *)

(** A marshaller that only counts the events. *)
Definition marshal (evs : list Event.t) : string := pretty (length evs).

(** A TLC server that answers every request with the same two states. *)
Definition twoStates : TLCResponse :=
  {| States := ["s1"; "s2"]; Keys := ["k1"; "k2"] |}.
Definition reply (x : nat) (rq : HttpPost) : TLCResponse * nat := (twoStates, x).

Definition hash (evs : list Event.t) : string := pretty (length evs).

Definition world0 : World nat :=
  {| heap := {[ 1%positive := [] ]}; calls := []; ext := 0%nat |}.

Definition client : TLCClient := {| ClientAddr := "127.0.0.1:2023" |}.

Definition tlcGuider : TLCStateGuider := {| tlcClient := client; statesMap := ∅ |}.

Definition traceGuider : TraceCoverageGuider := {| embedded := tlcGuider; traces := ∅ |}.

(** A mutator that succeeds on every other call. *)
Definition mutate (x : nat) (h : gmap loc (list Event.t)) (trace : Trace)
    (eventTrace : loc) : (Trace * bool) * nat :=
  ((trace, Nat.even x), S x).

Definition nodeChoice (from to : N) (maxMessages : Z) : SchedulingChoice.t :=
  {| SchedulingChoice.Type_ := Node; SchedulingChoice.From := from;
     SchedulingChoice.To := to; SchedulingChoice.MaxMessages := maxMessages;
     SchedulingChoice.Node := 0%N; SchedulingChoice.Step := 0;
     SchedulingChoice.BooleanChoice := false;
     SchedulingChoice.IntegerChoice := 0; SchedulingChoice.Request := 0 |}.

(** An iteration that schedules one channel and records nothing. *)
Definition runIteration (x : nat) (name : string) (mimic : option Trace) :
    (Trace * list Event.t) * nat :=
  (([nodeChoice 1 2 (Z.of_nat x)], []), S x).

Definition fuzzer : Fuzzer TLCStateGuider :=
  mkFuzzer (FuzzCommand_config 100 50 3 1) tlcGuider [] ∅.

(** The same fuzzer with the reseed frequency left at Go's zero value. *)
Definition fuzzerNoFrequency : Fuzzer TLCStateGuider :=
  mkFuzzer
    {| Iterations := 100; Steps := 50;
       RaftEnvironmentConfig_ :=
         {| Replicas := 3; ElectionTick := 20; HeartbeatTick := 2;
            TicksPerStep := 2 |};
       MutPerTrace := 5; NumberRequests := 1; CrashQuota := 2;
       MaxMessages := 10; SeedPopulationSize := 10; ReseedFrequency := 0 |}
    tlcGuider [] ∅.

(** The same fuzzer with a mutation budget of 2^62 per new state. *)
Definition fuzzerHugeBudget : Fuzzer TLCStateGuider :=
  mkFuzzer
    {| Iterations := 100; Steps := 50;
       RaftEnvironmentConfig_ :=
         {| Replicas := 3; ElectionTick := 20; HeartbeatTick := 2;
            TicksPerStep := 2 |};
       MutPerTrace := 2 ^ 62; NumberRequests := 1; CrashQuota := 2;
       MaxMessages := 10; SeedPopulationSize := 10; ReseedFrequency := 2000 |}
    tlcGuider [] ∅.

(** A two-node environment: every tick node 1 sends one message to node
    2, stamped with the tick; the schedule always picks the channel
    1 -> 2 with one message, and crashes node 2 at step 2. *)
Definition CanCrash (t : unit) (j : Z) : option N * unit :=
  (if j =? 2 then Some 2%N else None, t).
Definition CanStart (t : unit) (j : Z) : option N * unit := (None, t).
Definition GetNextNodeChoice (t : unit) : (N * N * Z) * unit := ((1%N, 2%N, 1), t).
Definition IsClientRequest (t : unit) (j : Z) : option Z * unit := (None, t).
Definition env_Stop (e : N) (node : N) : N := e.
Definition env_Start (e : N) (node : N) : N := e.
Definition env_Step (e : N) (m : Message.t) : N := e.
Definition env_Tick (e : N) : list Message.t * N :=
  ([ {| Message.Type_ := 3; Message.From := 1%N; Message.To := 2%N;
        Message.Term := e; Message.Entries := [] |} ], (e + 1)%N).
Definition sendEvent (m : Message.t) : Event.t :=
  {| Event.Name := "SendMessage"; Event.Node := Message.From m;
     Event.Params := ∅; Event.Reset := false |}.

Definition state0 : IterState unit N :=
  {| tCtx := tt; eventTrace := []; crashed := ∅;
     messageQueues := {[ queueKey 1 2 := [] ]};
     raftEnvironment := 0%N; effects := [] |}.
End Double.

(** ** fuzzer.go: the trace context of [RunIteration] and the loading of a mimic *)

(** [type traceCtx struct] (execution_flow.md). The two lists are fresh
    [NewList] values when the context is built. *)
Module traceCtx.
Record t : Type := mk {
  trace : Trace;
  mimicTrace : option Trace;
  eventTrace : list Event.t;
  nodeChoices : Queue.t SchedulingChoice.t;
  booleanChoices : Queue.t bool;
  integerChoices : Queue.t Z;
  crashPoints : gmap Z N;
  startPoints : gmap Z N;
  clientRequests : gmap Z Z
}.
End traceCtx.

(** [tCtx := &traceCtx{ ... }] with empty lists, queues and maps. *)
Definition newTraceCtx : traceCtx.t :=
  {| traceCtx.trace := []; traceCtx.mimicTrace := None;
     traceCtx.eventTrace := [];
     traceCtx.nodeChoices := []; traceCtx.booleanChoices := [];
     traceCtx.integerChoices := [];
     traceCtx.crashPoints := ∅; traceCtx.startPoints := ∅;
     traceCtx.clientRequests := ∅ |}.

Global Instance ChoiceType_eq_dec : EqDecision ChoiceType.
Proof. solve_decision. Defined.

(** The [switch ch.Type] of the loading loop. [ch.Copy()] copies the
    struct; a choice is a value here, so the copy is the choice. *)
Definition loadChoice (ch : SchedulingChoice.t) (c : traceCtx.t) : traceCtx.t :=
  match SchedulingChoice.Type_ ch with
  | Node =>
      traceCtx.mk (traceCtx.trace c) (traceCtx.mimicTrace c) (traceCtx.eventTrace c)
        (Queue.Push (traceCtx.nodeChoices c) ch)
        (traceCtx.booleanChoices c) (traceCtx.integerChoices c)
        (traceCtx.crashPoints c) (traceCtx.startPoints c) (traceCtx.clientRequests c)
  | RandomBoolean =>
      traceCtx.mk (traceCtx.trace c) (traceCtx.mimicTrace c) (traceCtx.eventTrace c)
        (traceCtx.nodeChoices c)
        (Queue.Push (traceCtx.booleanChoices c) (SchedulingChoice.BooleanChoice ch))
        (traceCtx.integerChoices c)
        (traceCtx.crashPoints c) (traceCtx.startPoints c) (traceCtx.clientRequests c)
  | RandomInteger =>
      traceCtx.mk (traceCtx.trace c) (traceCtx.mimicTrace c) (traceCtx.eventTrace c)
        (traceCtx.nodeChoices c) (traceCtx.booleanChoices c)
        (Queue.Push (traceCtx.integerChoices c) (SchedulingChoice.IntegerChoice ch))
        (traceCtx.crashPoints c) (traceCtx.startPoints c) (traceCtx.clientRequests c)
  | StartNode =>
      traceCtx.mk (traceCtx.trace c) (traceCtx.mimicTrace c) (traceCtx.eventTrace c)
        (traceCtx.nodeChoices c) (traceCtx.booleanChoices c) (traceCtx.integerChoices c)
        (traceCtx.crashPoints c)
        (<[SchedulingChoice.Step ch := SchedulingChoice.Node ch]> (traceCtx.startPoints c))
        (traceCtx.clientRequests c)
  | StopNode =>
      traceCtx.mk (traceCtx.trace c) (traceCtx.mimicTrace c) (traceCtx.eventTrace c)
        (traceCtx.nodeChoices c) (traceCtx.booleanChoices c) (traceCtx.integerChoices c)
        (<[SchedulingChoice.Step ch := SchedulingChoice.Node ch]> (traceCtx.crashPoints c))
        (traceCtx.startPoints c) (traceCtx.clientRequests c)
  | ClientRequest =>
      traceCtx.mk (traceCtx.trace c) (traceCtx.mimicTrace c) (traceCtx.eventTrace c)
        (traceCtx.nodeChoices c) (traceCtx.booleanChoices c) (traceCtx.integerChoices c)
        (traceCtx.crashPoints c) (traceCtx.startPoints c)
        (<[SchedulingChoice.Step ch := SchedulingChoice.Request ch]> (traceCtx.clientRequests c))
  end.

(** [ch, _ := mimic.Get(i)] followed by the switch; past the end [Get]
    gives a nil choice, whose [Type] is a nil dereference. *)
Definition loadAt (mimic : Trace) (i : Z) (_ : unit) : M traceCtx.t unit :=
  λ c, match mimic !! Z.to_nat i with
       | Some ch => (Ok tt, loadChoice ch c)
       | None => (Panic "nil pointer dereference", c)
       end.

(** [if mimic != nil { tCtx.mimicTrace = mimic; for i := 0; i < mimic.Size(); i++ { ... } }] *)
Definition loadMimic (mimic : option Trace) : M traceCtx.t unit :=
  match mimic with
  | None => mret tt
  | Some m =>
      λ c, for_range (Z.of_nat (length m)) (loadAt m) tt
             (traceCtx.mk (traceCtx.trace c) (Some m) (traceCtx.eventTrace c)
                (traceCtx.nodeChoices c) (traceCtx.booleanChoices c)
                (traceCtx.integerChoices c) (traceCtx.crashPoints c)
                (traceCtx.startPoints c) (traceCtx.clientRequests c))
  end.

(** ** Further vocabulary *)

(** The nodes that are down after the effects [es], from the set [d]:
    a [Stop] puts its node in, a [Start] takes it out. *)
Fixpoint downAfter (d : gset N) (es : list Effect) : gset N :=
  match es with
  | [] => d
  | EStop n :: es' => downAfter (d ∪ {[ n ]}) es'
  | EStart n :: es' => downAfter (d ∖ {[ n ]}) es'
  | _ :: es' => downAfter d es'
  end.

(** Every [Start] in [es] is of a node that is down when it is issued. *)
Fixpoint startsOnlyDown (d : gset N) (es : list Effect) : Prop :=
  match es with
  | [] => True
  | EStop n :: es' => startsOnlyDown (d ∪ {[ n ]}) es'
  | EStart n :: es' => n ∈ d ∧ startsOnlyDown (d ∖ {[ n ]}) es'
  | _ :: es' => startsOnlyDown d es'
  end.

(** Every queue holds only messages of its own channel. *)
Definition wellKeyed (qs : gmap string (Queue.t Message.t)) : Prop :=
  ∀ (key : string) (q : list Message.t) (m : Message.t),
    qs !! key = Some q → m ∈ q →
    key = queueKey (Message.From m) (Message.To m).

(** The queue key of a message. *)
Definition messageKey (m : Message.t) : string :=
  queueKey (Message.From m) (Message.To m).

(** The queues after a push of [m] at the back of its own queue. *)
Definition pushInto (qs : gmap string (Queue.t Message.t)) (m : Message.t) :
    gmap string (Queue.t Message.t) :=
  <[messageKey m := queueAt (messageKey m) qs ++ [m]]> qs.

(** The choices of a schedule of one kind, and those of one kind pinned
    at one step. *)
Definition ofKind (kind : ChoiceType) (m : Trace) : Trace :=
  filter (λ ch, SchedulingChoice.Type_ ch = kind) m.

Definition pinnedAt (kind : ChoiceType) (step : Z) (m : Trace) : Trace :=
  filter (λ ch, SchedulingChoice.Type_ ch = kind ∧ SchedulingChoice.Step ch = step) m.

(** The messages handed to [Step] with the given [From] and [To], in
    the order of the calls. *)
Fixpoint stepsOf (from to : N) (es : list Effect) : list Message.t :=
  match es with
  | [] => []
  | EStep m :: es' =>
      if decide (Message.From m = from ∧ Message.To m = to)
      then m :: stepsOf from to es' else stepsOf from to es'
  | _ :: es' => stepsOf from to es'
  end.

(** A computation never panics with the message [why]. *)
Definition neverPanicsWith {S A} (why : string) (m : M S A) : Prop :=
  ∀ s : S, (m s).1 ≠ Panic why.

(** ** More test doubles *)

Module Scenario.
(** Replies whose two arrays differ in length, and one with a repeated
    key. *)
Definition surplusKeys : TLCResponse :=
  {| States := ["s1"]; Keys := ["k1"; "k2"] |}.
Definition shortKeys : TLCResponse :=
  {| States := ["s1"; "s2"]; Keys := ["k1"] |}.
Definition repeatedKey : TLCResponse :=
  {| States := ["a"; "b"; "c"]; Keys := ["k1"; "k1"; "k2"] |}.

Definition replySurplus (x : nat) (rq : HttpPost) : TLCResponse * nat := (surplusKeys, x).
Definition replyShort (x : nat) (rq : HttpPost) : TLCResponse * nat := (shortKeys, x).
Definition replyRepeated (x : nat) (rq : HttpPost) : TLCResponse * nat := (repeatedKey, x).

(** Guiders that have seen [k2], and both keys of [Double.twoStates]. *)
Definition sawK2 : TLCStateGuider :=
  {| tlcClient := Double.client; statesMap := {[ "k2" := true ]} |}.
Definition sawBoth : TLCStateGuider :=
  {| tlcClient := Double.client; statesMap := {[ "k1" := true; "k2" := true ]} |}.

(** A mutator that never succeeds. *)
Definition neverMutate (x : nat) (h : gmap loc (list Event.t)) (trace : Trace)
    (eventTrace : loc) : (Trace * bool) * nat :=
  ((trace, false), S x).

Definition counters : gmap string Z :=
  {[ "mutated_executions" := 0; "random_executions" := 0; "buggy_executions" := 0 ]}.

(** A fuzzer set up for three iterations, with its counters at 0. *)
Definition fuzzerReady : Fuzzer TLCStateGuider :=
  mkFuzzer
    {| Iterations := 3; Steps := 4;
       RaftEnvironmentConfig_ :=
         {| Replicas := 3; ElectionTick := 20; HeartbeatTick := 2;
            TicksPerStep := 2 |};
       MutPerTrace := 1; NumberRequests := 1; CrashQuota := 2;
       MaxMessages := 10; SeedPopulationSize := 2; ReseedFrequency := 2 |}
    Double.tlcGuider [] counters.

(** The same with nothing to seed and a corpus of one schedule. *)
Definition fuzzerNoSeeds : Fuzzer TLCStateGuider :=
  mkFuzzer
    {| Iterations := 3; Steps := 4;
       RaftEnvironmentConfig_ :=
         {| Replicas := 3; ElectionTick := 20; HeartbeatTick := 2;
            TicksPerStep := 2 |};
       MutPerTrace := 1; NumberRequests := 1; CrashQuota := 2;
       MaxMessages := 10; SeedPopulationSize := 0; ReseedFrequency := 2 |}
    Double.tlcGuider [[Double.nodeChoice 1 2 1]] counters.

(** A start oracle that pins a start of node 2 at step 2, where
    [Double.CanCrash] pins its stop. *)
Definition CanStart (t : unit) (j : Z) : option N * unit :=
  (if j =? 2 then Some 2%N else None, t).

(** Two messages waiting on the channel 1 -> 2. *)
Definition message (term : N) : Message.t :=
  {| Message.Type_ := 3; Message.From := 1%N; Message.To := 2%N;
     Message.Term := term; Message.Entries := [] |}.

Definition stateWaiting : IterState unit N :=
  {| tCtx := tt; eventTrace := []; crashed := ∅;
     messageQueues := {[ queueKey 1 2 := [message 0; message 1; message 2] ]};
     raftEnvironment := 3%N; effects := [] |}.
End Scenario.

(** * Theorems *)

(** ** The TLC client *)

Section TLCClientFacts.
Context {X : Type}.
Context (json_Marshal : list Event.t → string).
Context (tlc_reply : X → HttpPost → TLCResponse * X).

(** The conversion loop fills the slots [i, i+1, ...] of [result] with
    the pairs of [states] and of [keys] from [i] on. *)
Lemma convertStates_zip (states keys : list string) :
  ∀ (i : nat) (result : list State) (w : World X),
    (length states ≤ length (drop i keys))%nat →
    length result = (i + length states)%nat →
    convertStates i states keys result w
    = (Ok (take i result ++ zip_with mkState states (drop i keys)), w).
Proof.
  induction states as [|s states IH]; intros i result w Hk Hr; simpl.
  - unfold mret, M_ret. rewrite app_nil_r, take_ge by (simpl in Hr; lia).
    reflexivity.
  - destruct (drop i keys) as [|k rest] eqn:Hd; simpl in Hk; [lia|].
    assert (Hi : keys !! i = Some k).
    { rewrite <- (Nat.add_0_r i), <- lookup_drop, Hd. reflexivity. }
    assert (Hrest : drop (S i) keys = rest).
    { pose proof (drop_S _ _ _ Hi) as Hs. rewrite Hd in Hs. congruence. }
    rewrite Hi. rewrite IH.
    + rewrite Hrest. f_equal. f_equal. simpl.
      rewrite (take_S_r _ _ {| Repr := s; Key := k |}).
      * rewrite take_insert_ge by lia. rewrite <- app_assoc. reflexivity.
      * apply list_lookup_insert_eq. simpl in Hr. lia.
    + rewrite Hrest. lia.
    + rewrite length_insert. simpl in Hr. lia.
Qed.

Lemma convertStates_short (states keys : list string) :
  ∀ (i : nat) (result : list State) (w : World X),
    (length (drop i keys) < length states)%nat →
    convertStates i states keys result w = (Panic "index out of range", w).
Proof.
  induction states as [|s states IH]; intros i result w Hk; simpl in *; [lia|].
  destruct (keys !! i) as [k|] eqn:Hi; [|reflexivity].
  apply IH. rewrite (drop_S _ _ _ Hi) in Hk. simpl in Hk. lia.
Qed.

(** What [SendTrace] does up to the conversion loop. *)
Lemma SendTrace_unfold (c : TLCClient) (trace : loc) (evs : list Event.t)
    (w : World X) (resp : TLCResponse) (x' : X) :
  heap w !! trace = Some evs →
  tlc_reply (ext w)
    (mkHttpPost ("http://" +:+ ClientAddr c +:+ "/execute") "application/json"
       (json_Marshal (evs ++ [ResetEvent]))) = (resp, x') →
  SendTrace json_Marshal tlc_reply c trace w
  = convertStates 0 (States resp) (Keys resp)
      (replicate (length (States resp)) zeroState)
      (mkWorld (<[trace := evs ++ [ResetEvent]]> (heap w))
         (calls w ++ [CallHttpPost
            (mkHttpPost ("http://" +:+ ClientAddr c +:+ "/execute")
               "application/json" (json_Marshal (evs ++ [ResetEvent])))])
         x').
Proof.
  intros Hh Hr. unfold SendTrace, mbind, M_bind, List_Append, List_Elems, http_Post.
  rewrite Hh. simpl. rewrite lookup_insert_eq. simpl. rewrite Hr. reflexivity.
Qed.

(** Whatever its result, the conversion loop leaves the world alone. *)
Lemma convertStates_world (states keys : list string) :
  ∀ (i : nat) (result : list State) (w : World X),
    (convertStates i states keys result w).2 = w.
Proof.
  induction states as [|s states IH]; intros i result w; simpl; [reflexivity|].
  destruct (keys !! i); [apply IH | reflexivity].
Qed.

(** The world after [SendTrace], whether it returns or panics in the
    conversion loop. *)
Lemma SendTrace_world (c : TLCClient) (trace : loc) (evs : list Event.t)
    (w : World X) :
  heap w !! trace = Some evs →
  let rq := mkHttpPost ("http://" +:+ ClientAddr c +:+ "/execute")
              "application/json" (json_Marshal (evs ++ [ResetEvent])) in
  (SendTrace json_Marshal tlc_reply c trace w).2
  = mkWorld (<[trace := evs ++ [ResetEvent]]> (heap w))
      (calls w ++ [CallHttpPost rq]) (tlc_reply (ext w) rq).2.
Proof.
  intros Hh rq. destruct (tlc_reply (ext w) rq) as [resp x'] eqn:Hr.
  rewrite (SendTrace_unfold c trace evs w resp x' Hh Hr).
  apply convertStates_world.
Qed.

(** [SendTrace] on a reply whose two arrays have the same length. *)
Lemma SendTrace_zip (c : TLCClient) (trace : loc) (evs : list Event.t)
    (w : World X) (resp : TLCResponse) (x' : X) :
  let rq := mkHttpPost ("http://" +:+ ClientAddr c +:+ "/execute")
              "application/json" (json_Marshal (evs ++ [ResetEvent])) in
  heap w !! trace = Some evs →
  tlc_reply (ext w) rq = (resp, x') →
  length (States resp) = length (Keys resp) →
  SendTrace json_Marshal tlc_reply c trace w
  = (Ok (zip_with mkState (States resp) (Keys resp)),
     mkWorld (<[trace := evs ++ [ResetEvent]]> (heap w))
       (calls w ++ [CallHttpPost rq]) x').
Proof.
  intros rq Hh Hr Hlen.
  rewrite (SendTrace_unfold c trace evs w resp x' Hh Hr).
  rewrite convertStates_zip.
  - reflexivity.
  - rewrite drop_0. lia.
  - rewrite length_replicate. lia.
Qed.

(** C9: for every event trace behind the pointer and every reply whose
    [States] and [Keys] have the same length n, [SendTrace] appends the
    sentinel [Reset] event, sends one POST with the marshalled list to
    http://{addr}/execute, and returns exactly n [State] values, the
    i-th pairing [Repr = States[i]] with [Key = Keys[i]]. *)
Theorem SendTrace_returns_states (c : TLCClient) (trace : loc)
    (evs : list Event.t) (w : World X) (resp : TLCResponse) (x' : X) :
  let rq := mkHttpPost ("http://" +:+ ClientAddr c +:+ "/execute")
              "application/json" (json_Marshal (evs ++ [ResetEvent])) in
  heap w !! trace = Some evs →
  tlc_reply (ext w) rq = (resp, x') →
  length (States resp) = length (Keys resp) →
  ∃ result : list State,
    SendTrace json_Marshal tlc_reply c trace w
    = (Ok result,
       mkWorld (<[trace := evs ++ [ResetEvent]]> (heap w))
         (calls w ++ [CallHttpPost rq]) x')
    ∧ length result = length (States resp)
    ∧ (∀ (i : nat) (s k : string),
         States resp !! i = Some s → Keys resp !! i = Some k →
         result !! i = Some {| Repr := s; Key := k |})
    ∧ result = zip_with mkState (States resp) (Keys resp).
Proof.
  intros rq Hh Hr Hlen.
  exists (zip_with mkState (States resp) (Keys resp)).
  split; [|split; [|split]].
  - by apply SendTrace_zip.
  - rewrite length_zip_with. lia.
  - intros i s k Hs Hk. rewrite lookup_zip_with, Hs, Hk. reflexivity.
  - reflexivity.
Qed.
End TLCClientFacts.

(** ** The guiders *)

(** The counting loop only adds keys, and counts exactly the keys it
    adds. *)
Lemma countNewStates_spec (tlcStates : list State) :
  ∀ (m : gmap string bool) (n : Z),
    m ⊆ (countNewStates tlcStates m n).1
    ∧ (countNewStates tlcStates m n).2
      = n + (Z.of_nat (size (countNewStates tlcStates m n).1) - Z.of_nat (size m))
    ∧ dom (countNewStates tlcStates m n).1
      = dom m ∪ list_to_set (Key <$> tlcStates).
Proof.
  induction tlcStates as [|s rest IH]; intros m n; simpl.
  - split; [reflexivity|]. split; [lia | set_solver].
  - destruct (m !! Key s) as [b|] eqn:Hs.
    + destruct (IH m n) as (Hsub & Hn & Hdom). split; [exact Hsub|].
      split; [exact Hn|]. rewrite Hdom.
      assert (Key s ∈ dom m) by (apply elem_of_dom; eauto). set_solver.
    + destruct (IH (<[Key s := true]> m) (n + 1)) as (Hsub & Hn & Hdom).
      split; [|split].
      * etrans; [|exact Hsub]. by apply insert_subseteq.
      * rewrite Hn, map_size_insert_None by exact Hs. lia.
      * rewrite Hdom, dom_insert_L. set_solver.
Qed.

Lemma countNewStates_size (tlcStates : list State) (m : gmap string bool) (n : Z) :
  (size m ≤ size (countNewStates tlcStates m n).1)%nat.
Proof. apply map_subseteq_size, countNewStates_spec. Qed.

Section GuiderFacts.
Context {X : Type}.
Context (json_Marshal : list Event.t → string).
Context (tlc_reply : X → HttpPost → TLCResponse * X).
Context (eventTrace_Hash : list Event.t → string).

Local Abbreviation request c evs :=
  (mkHttpPost ("http://" +:+ ClientAddr c +:+ "/execute") "application/json"
     (json_Marshal (evs ++ [ResetEvent]))).

(** [TLCStateGuider.Check] on a reply that [SendTrace] converts. *)
Lemma TLCStateGuider_Check_ok (t : TLCStateGuider) (trace : Trace)
    (eventTrace : loc) (evs : list Event.t) (w : World X)
    (resp : TLCResponse) (x' : X) :
  heap w !! eventTrace = Some evs →
  tlc_reply (ext w) (request (tlcClient t) evs) = (resp, x') →
  length (States resp) = length (Keys resp) →
  let r := countNewStates (zip_with mkState (States resp) (Keys resp))
             (statesMap t) 0 in
  TLCStateGuider_Check json_Marshal tlc_reply t trace eventTrace w
  = (Ok ({| tlcClient := tlcClient t; statesMap := r.1 |},
         (r.2, (float64 r.2 / float64 (Z.max (Z.of_nat (size r.1)) 1))%Q)),
     mkWorld (<[eventTrace := evs ++ [ResetEvent]]> (heap w))
       (calls w ++ [CallHttpPost (request (tlcClient t) evs)]) x').
Proof.
  intros Hh Hr Hlen r.
  unfold TLCStateGuider_Check, mbind, M_bind.
  rewrite (SendTrace_zip json_Marshal tlc_reply (tlcClient t)
             eventTrace evs w resp x' Hh Hr Hlen).
  subst r. destruct (countNewStates _ _ _) as [m' k]. reflexivity.
Qed.

(** The world after [TLCStateGuider.Check], whatever its result. *)
Lemma TLCStateGuider_Check_world (t : TLCStateGuider) (trace : Trace)
    (eventTrace : loc) (w : World X) :
  (TLCStateGuider_Check json_Marshal tlc_reply t trace eventTrace w).2
  = (SendTrace json_Marshal tlc_reply (tlcClient t) eventTrace w).2.
Proof.
  unfold TLCStateGuider_Check, mbind, M_bind.
  destruct (SendTrace _ _ _ _ _) as [[res|why] w1]; [|reflexivity].
  destruct (countNewStates _ _ _). reflexivity.
Qed.

(** [TraceCoverageGuider.Check] changes the heap as the embedded
    [Check] does. *)
Lemma TraceCoverageGuider_Check_heap (t : TraceCoverageGuider) (trace : Trace)
    (events : loc) (w : World X) :
  heap (TraceCoverageGuider_Check json_Marshal tlc_reply eventTrace_Hash
          t trace events w).2
  = heap (SendTrace json_Marshal tlc_reply (tlcClient (embedded t)) events w).2.
Proof.
  rewrite <- TLCStateGuider_Check_world with (trace := trace).
  unfold TraceCoverageGuider_Check, mbind, M_bind.
  destruct (TLCStateGuider_Check _ _ _ _ _ _) as [[r|why] w1]; [|reflexivity].
  unfold List_Elems. simpl. destruct (heap w1 !! events); [|reflexivity].
  destruct (traces t !! _); reflexivity.
Qed.

(** C3: a [Check] of the TLC-state guider only adds keys to the set of
    seen state keys, so its cardinality does not decrease from one call
    to the next, and the [numNew] it returns is exactly the increase of
    that cardinality; the keys added are those of the reply. *)
Theorem TLCStateGuider_seen_monotone (t : TLCStateGuider) (trace : Trace)
    (eventTrace : loc) (evs : list Event.t) (w : World X)
    (resp : TLCResponse) (x' : X) :
  heap w !! eventTrace = Some evs →
  tlc_reply (ext w) (request (tlcClient t) evs) = (resp, x') →
  length (States resp) = length (Keys resp) →
  ∃ (t' : TLCStateGuider) (numNew : Z) (ratio : Q) (w' : World X),
    TLCStateGuider_Check json_Marshal tlc_reply t trace eventTrace w
    = (Ok (t', (numNew, ratio)), w')
    ∧ statesMap t ⊆ statesMap t'
    ∧ (size (statesMap t) ≤ size (statesMap t'))%nat
    ∧ numNew = Z.of_nat (size (statesMap t')) - Z.of_nat (size (statesMap t))
    ∧ dom (statesMap t') = dom (statesMap t) ∪ list_to_set (Keys resp).
Proof.
  intros Hh Hr Hlen.
  pose proof (TLCStateGuider_Check_ok t trace eventTrace evs w resp x' Hh Hr Hlen)
    as Hc. simpl in Hc.
  destruct (countNewStates_spec (zip_with mkState (States resp) (Keys resp))
              (statesMap t) 0) as (Hsub & Hn & Hdom).
  eexists _, _, _, _. split; [exact Hc|]. simpl.
  split; [exact Hsub|]. split; [by apply map_subseteq_size|].
  split; [rewrite Hn; lia|].
  rewrite Hdom. f_equal. f_equal.
  clear -Hlen. revert Hlen. generalize (Keys resp) as ks.
  induction (States resp) as [|s ss IH]; intros [|k ks] Hlen; simpl in *;
    try reflexivity; try lia.
  f_equal. apply IH. lia.
Qed.

(** C10: [SendTrace] writes through the pointer it is given. After a
    call, and so after a [Check] of either TLC guider, which is handed
    the caller's pointer, the caller's list is the old list followed by
    one [Reset] event: one element longer, the last one a [Reset], the
    earlier ones unchanged. No other list is touched. This holds whether
    the call returns or panics in the conversion loop. *)
Theorem SendTrace_appends_Reset_in_place (c : TLCClient) (t : TLCStateGuider)
    (tc : TraceCoverageGuider) (trace : Trace) (eventTrace : loc)
    (evs : list Event.t) (w : World X) :
  heap w !! eventTrace = Some evs →
  let after (w' : World X) :=
    heap w' !! eventTrace = Some (evs ++ [ResetEvent])
    ∧ ∀ l : loc, l ≠ eventTrace → heap w' !! l = heap w !! l in
  after (SendTrace json_Marshal tlc_reply c eventTrace w).2
  ∧ after (TLCStateGuider_Check json_Marshal tlc_reply t trace eventTrace w).2
  ∧ after (TraceCoverageGuider_Check json_Marshal tlc_reply eventTrace_Hash
             tc trace eventTrace w).2
  ∧ length (evs ++ [ResetEvent]) = S (length evs)
  ∧ last (evs ++ [ResetEvent]) = Some ResetEvent
  ∧ Event.Reset ResetEvent = true
  ∧ take (length evs) (evs ++ [ResetEvent]) = evs.
Proof.
  intros Hh after.
  assert (Hsend : ∀ c', after (SendTrace json_Marshal tlc_reply c' eventTrace w).2).
  { intros c'. unfold after. rewrite (SendTrace_world _ _ c' eventTrace evs w Hh).
    simpl. split; [apply lookup_insert_eq|].
    intros l Hl. by apply lookup_insert_ne. }
  split; [apply Hsend|]. split.
  { rewrite TLCStateGuider_Check_world. apply Hsend. }
  split.
  { unfold after. rewrite TraceCoverageGuider_Check_heap. apply Hsend. }
  split; [rewrite length_app; simpl; lia|].
  split; [apply last_snoc|]. split; [reflexivity|].
  by rewrite take_app_length.
Qed.

(** [TraceCoverageGuider.Check] on a reply that [SendTrace] converts. *)
Lemma TraceCoverageGuider_Check_ok (t : TraceCoverageGuider) (trace : Trace)
    (events : loc) (evs : list Event.t) (w : World X)
    (resp : TLCResponse) (x' : X) :
  heap w !! events = Some evs →
  tlc_reply (ext w) (request (tlcClient (embedded t)) evs) = (resp, x') →
  length (States resp) = length (Keys resp) →
  let key := eventTrace_Hash (evs ++ [ResetEvent]) in
  let new := if traces t !! key is Some _ then 0 else 1 in
  let traces' := if traces t !! key is Some _ then traces t
                 else <[key := true]> (traces t) in
  ∃ (embedded' : TLCStateGuider) (w' : World X),
    TraceCoverageGuider_Check json_Marshal tlc_reply eventTrace_Hash
      t trace events w
    = (Ok ({| embedded := embedded'; traces := traces' |},
           (new, (float64 new / float64 (Z.of_nat (size traces')))%Q)), w').
Proof.
  intros Hh Hr Hlen key new traces'.
  unfold TraceCoverageGuider_Check, mbind, M_bind.
  rewrite (TLCStateGuider_Check_ok (embedded t) trace events evs w resp x' Hh Hr Hlen).
  unfold List_Elems. simpl. rewrite lookup_insert_eq.
  subst new traces' key. destruct (traces t !! _); eexists _, _; reflexivity.
Qed.

(** C1 (amended): the ratio returned by [Check] divides [numNew] by the
    size of the guider's own seen-set after the call: for the TLC-state
    guider by [max(len(statesMap), 1)], where [len(statesMap)] has
    grown by [numNew]; for the trace-coverage guider by [len(traces)],
    which has grown by [numNew], a 0 or a 1, and is at least 1. The
    corpus queue is not an input of [Check]. *)
Theorem noveltyRatio_over_seen (t : TLCStateGuider) (tc : TraceCoverageGuider)
    (trace : Trace) (eventTrace : loc) (evs : list Event.t) (w : World X)
    (resp resp' : TLCResponse) (x' x'' : X) :
  heap w !! eventTrace = Some evs →
  tlc_reply (ext w) (request (tlcClient t) evs) = (resp, x') →
  length (States resp) = length (Keys resp) →
  tlc_reply (ext w) (request (tlcClient (embedded tc)) evs) = (resp', x'') →
  length (States resp') = length (Keys resp') →
  (∃ (t' : TLCStateGuider) (numNew : Z) (ratio : Q) (w' : World X),
     TLCStateGuider_Check json_Marshal tlc_reply t trace eventTrace w
     = (Ok (t', (numNew, ratio)), w')
     ∧ Z.of_nat (size (statesMap t')) = Z.of_nat (size (statesMap t)) + numNew
     ∧ ratio = (float64 numNew
                / float64 (Z.max (Z.of_nat (size (statesMap t'))) 1))%Q)
  ∧ (∃ (tc' : TraceCoverageGuider) (numNew : Z) (ratio : Q) (w' : World X),
       TraceCoverageGuider_Check json_Marshal tlc_reply eventTrace_Hash
         tc trace eventTrace w
       = (Ok (tc', (numNew, ratio)), w')
       ∧ (numNew = 0 ∨ numNew = 1)
       ∧ Z.of_nat (size (traces tc')) = Z.of_nat (size (traces tc)) + numNew
       ∧ 1 ≤ Z.of_nat (size (traces tc'))
       ∧ ratio = (float64 numNew / float64 (Z.of_nat (size (traces tc'))))%Q
       ∧ ratio = (float64 numNew
                  / float64 (Z.max (Z.of_nat (size (traces tc'))) 1))%Q).
Proof.
  intros Hh Hr Hlen Hr' Hlen'. split.
  - pose proof (TLCStateGuider_Check_ok t trace eventTrace evs w resp x' Hh Hr Hlen)
      as Hc. simpl in Hc.
    destruct (countNewStates_spec (zip_with mkState (States resp) (Keys resp))
                (statesMap t) 0) as (_ & Hn & _).
    eexists _, _, _, _. split; [exact Hc|]. simpl. split; [lia | reflexivity].
  - destruct (TraceCoverageGuider_Check_ok tc trace eventTrace evs w resp' x''
                Hh Hr' Hlen') as (e' & w' & Hc). simpl in Hc.
    eexists _, _, _, _. split; [exact Hc|]. simpl.
    destruct (traces tc !! eventTrace_Hash (evs ++ [ResetEvent])) as [b|] eqn:Hk.
    + assert (Hpos : (1 ≤ size (traces tc))%nat).
      { destruct (decide (size (traces tc) = 0%nat)) as [Hz|Hz]; [|lia].
        apply map_size_empty_inv in Hz. rewrite Hz in Hk.
        by rewrite lookup_empty in Hk. }
      split; [by left|]. split; [lia|]. split; [lia|]. split; [reflexivity|].
      by rewrite Z.max_l by lia.
    + rewrite map_size_insert_None by exact Hk.
      split; [by right|]. split; [lia|]. split; [lia|]. split; [reflexivity|].
      by rewrite Z.max_l by lia.
Qed.
End GuiderFacts.

(** *** The guiders on the test doubles *)

Lemma SendTrace_returns_states_witness :
  ∃ (result : list State) (w' : World nat),
    SendTrace Double.marshal Double.reply Double.client 1%positive Double.world0
    = (Ok result, w')
    ∧ result = [ {| Repr := "s1"; Key := "k1" |}; {| Repr := "s2"; Key := "k2" |} ].
Proof.
  destruct (SendTrace_returns_states Double.marshal Double.reply Double.client
              1%positive [] Double.world0 Double.twoStates 0%nat)
    as (result & Hs & _ & _ & Hz); [reflexivity | reflexivity | reflexivity |].
  exists result. eexists. split; [exact Hs | exact Hz].
Defined.

Lemma TLCStateGuider_seen_monotone_witness :
  ∃ (t' : TLCStateGuider) (ratio : Q) (w' : World nat),
    TLCStateGuider_Check Double.marshal Double.reply Double.tlcGuider []
      1%positive Double.world0
    = (Ok (t', (2, ratio)), w')
    ∧ dom (statesMap t') = {[ "k1"; "k2" ]}.
Proof.
  destruct (TLCStateGuider_seen_monotone Double.marshal Double.reply
              Double.tlcGuider [] 1%positive [] Double.world0 Double.twoStates 0%nat)
    as (t' & k & r & w' & Hc & _ & _ & Hk & Hdom);
    [reflexivity | reflexivity | reflexivity |].
  assert (Hsize : size (statesMap t') = 2%nat).
  { rewrite <- size_dom, Hdom. reflexivity. }
  exists t', r, w'. split.
  - rewrite Hc. rewrite Hk, Hsize. reflexivity.
  - rewrite Hdom. set_solver.
Defined.

Lemma SendTrace_appends_Reset_in_place_witness :
  heap (TLCStateGuider_Check Double.marshal Double.reply Double.tlcGuider []
          1%positive Double.world0).2 !! 1%positive
  = Some [ResetEvent]
  ∧ heap (TraceCoverageGuider_Check Double.marshal Double.reply Double.hash
            Double.traceGuider [] 1%positive Double.world0).2 !! 1%positive
    = Some [ResetEvent].
Proof.
  destruct (SendTrace_appends_Reset_in_place Double.marshal Double.reply Double.hash
              Double.client Double.tlcGuider Double.traceGuider [] 1%positive []
              Double.world0)
    as (_ & [Ht _] & [Htc _] & _); [reflexivity|].
  split; [exact Ht | exact Htc].
Defined.

Lemma noveltyRatio_over_seen_witness :
  ∃ (t' : TLCStateGuider) (w' : World nat),
    TLCStateGuider_Check Double.marshal Double.reply Double.tlcGuider []
      1%positive Double.world0
    = (Ok (t', (2, (float64 2 / float64 2)%Q)), w').
Proof.
  destruct (noveltyRatio_over_seen Double.marshal Double.reply Double.hash
              Double.tlcGuider Double.traceGuider [] 1%positive [] Double.world0
              Double.twoStates Double.twoStates 0%nat 0%nat)
    as [(t' & k & r & w' & Hc & Hsize & Hr) _];
    [reflexivity | reflexivity | reflexivity | reflexivity | reflexivity |].
  exists t', w'. rewrite Hc.
  assert (Hk : k = 2).
  { pose proof Hc as Hc'. vm_compute in Hc'. congruence. }
  subst k. rewrite Hr.
  replace (Z.of_nat (size (statesMap t'))) with 2 by (rewrite Hsize; reflexivity).
  reflexivity.
Defined.

(** C1, as stated, fails: with an empty seen-set, a reply of two fresh
    keys and a corpus of five schedules, [Check] returns [numNew = 2] and
    the ratio 2/2, not 2/5. *)
Lemma noveltyRatio_over_corpus_counterexample :
  let f := mkFuzzer (FuzzCommand_config 1 1 3 1) Double.tlcGuider
             (replicate 5 ([] : Trace)) ∅ in
  ∃ (t' : TLCStateGuider) (numNew : Z) (ratio : Q) (w' : World nat),
    Check (Guider := TLCStateGuider_Guider Double.marshal Double.reply)
      (guider f) [] 1%positive Double.world0
    = (Ok (t', (numNew, ratio)), w')
    ∧ Z.max (Queue.Size (mutatedTracesQueue f)) 1 = 5
    ∧ ¬ (ratio == float64 numNew
                  / float64 (Z.max (Queue.Size (mutatedTracesQueue f)) 1))%Q.
Proof.
  eexists _, _, _, _. split; [vm_compute; reflexivity|].
  split; [reflexivity|]. vm_compute. discriminate.
Qed.

(** ** The main loop *)

Lemma answers_length {X A} (ask : Z → X → A * X) (count : nat) :
  ∀ (i : Z) (x : X), length (answers ask count i x).1 = count.
Proof.
  induction count as [|count IH]; intros i x; simpl; [reflexivity|].
  destruct (ask i x) as [a x1]. specialize (IH (i + 1) x1).
  destruct (answers ask count (i + 1) x1) as [rest x2]. simpl in *. by rewrite IH.
Qed.

Lemma successes_cons (r : Trace * bool) (rs : list (Trace * bool)) :
  successes (r :: rs) = if r.2 then r.1 :: successes rs else successes rs.
Proof.
  unfold successes. rewrite filter_cons.
  destruct r as [t [|]]; cbn [fst snd]; case_decide; done.
Qed.

Section FuzzerFacts.
Context {X G : Type} {guiderI : Guider X G}.
Context (copyTrace : Trace → Trace).
Context (mutate : X → gmap loc (list Event.t) → Trace → loc → (Trace * bool) * X).
Context (runIteration : X → string → option Trace → (Trace * list Event.t) * X).
Context (checker : option (X → bool)).

Local Abbreviation seedCall := (λ i : Z, CallRunIteration ("pop_" +:+ pretty i) None).
Local Abbreviation seedAsk :=
  (λ (i : Z) (x : X), runIteration x ("pop_" +:+ pretty i) None).

(** The loop of [seed], started at index [i] with [count] turns left. *)
Lemma seed_loop (count : nat) :
  ∀ (i : Z) (f : Fuzzer G) (w : World X),
    ∃ h' : gmap loc (list Event.t),
      for_loop count i
        (λ i f, '(trace, _) ← RunIteration runIteration ("pop_" +:+ pretty i) None ;
                mret (pushCopy copyTrace f trace))
        f w
      = (Ok (mkFuzzer (config f) (guider f)
               (mutatedTracesQueue f
                ++ ((λ r, copyTrace r.1) <$> (answers seedAsk count i (ext w)).1))
               (stats f)),
         mkWorld h'
           (calls w ++ (seedCall <$> seqZ i (Z.of_nat count)))
           (answers seedAsk count i (ext w)).2)
      ∧ heap w ⊆ h'.
Proof.
  induction count as [|count IH]; intros i f w.
  - exists (heap w). simpl. rewrite !app_nil_r. split; [|reflexivity].
    destruct f, w; reflexivity.
  - rewrite seqZ_cons by lia.
    replace (Z.pred (Z.of_nat (S count))) with (Z.of_nat count) by lia.
    replace (Z.succ i) with (i + 1) by lia.
    simpl. unfold mbind at 1, M_bind at 1. unfold mbind at 1, M_bind at 1.
    unfold RunIteration at 1.
    destruct (runIteration (ext w) ("pop_" +:+ pretty i) None) as [[trace evs] x1] eqn:Hrun.
    simpl.
    set (l := fresh (dom (heap w))).
    destruct (IH (i + 1) (pushCopy copyTrace f trace)
                (mkWorld (<[l := evs]> (heap w))
                   (calls w ++ [seedCall i]) x1)) as (h' & Hloop & Hsub).
    exists h'. split.
    + unfold mret, M_ret in *. rewrite Hloop. simpl.
      destruct (answers seedAsk count (i + 1) x1) as [rest x2]. simpl.
      unfold Queue.Push. rewrite <- !app_assoc. reflexivity.
    + etrans; [|exact Hsub]. simpl. apply insert_subseteq.
      apply not_elem_of_dom. apply is_fresh.
Qed.

(** C6: seeding empties the corpus queue, runs exactly
    [SeedPopulationSize] iterations, the i-th named pop_i and every one
    with a nil mimic, and pushes the copy of each resulting trace; the
    corpus then holds exactly these [SeedPopulationSize] schedules, in
    order, and nothing of what it held before. *)
Theorem seed_fills_corpus (f : Fuzzer G) (w : World X) :
  0 ≤ SeedPopulationSize (config f) →
  let n := SeedPopulationSize (config f) in
  let rs := answers seedAsk (Z.to_nat n) 0 (ext w) in
  ∃ (f' : Fuzzer G) (w' : World X),
    seed copyTrace runIteration f w = (Ok f', w')
    ∧ mutatedTracesQueue f' = (λ r, copyTrace r.1) <$> rs.1
    ∧ Queue.Size (mutatedTracesQueue f') = n
    ∧ calls w' = calls w ++ (seedCall <$> seqZ 0 n)
    ∧ Z.of_nat (length (seedCall <$> seqZ 0 n)) = n
    ∧ ext w' = rs.2
    ∧ heap w ⊆ heap w'
    ∧ config f' = config f ∧ guider f' = guider f ∧ stats f' = stats f.
Proof.
  intros Hn n rs. unfold seed, for_range. simpl.
  destruct (seed_loop (Z.to_nat n) 0
              (mkFuzzer (config f) (guider f) (Queue.Reset (mutatedTracesQueue f))
                 (stats f)) w) as (h' & Hloop & Hsub).
  eexists _, _. split; [exact Hloop|]. simpl.
  rewrite Z2Nat.id by exact Hn. fold rs.
  split; [reflexivity|]. split.
  { unfold Queue.Size. rewrite length_fmap. subst rs.
    rewrite answers_length. apply Z2Nat.id, Hn. }
  split; [reflexivity|]. split.
  { rewrite length_fmap, length_seqZ. lia. }
  split; [reflexivity|]. split; [exact Hsub|]. auto.
Qed.

(** The mutation loop with [count] turns left: one [Mutate] per turn,
    always on the same pair, the successful answers pushed in order. *)
Lemma mutation_loop (trace : Trace) (eventTrace : loc) (count : nat) :
  ∀ (i : Z) (f : Fuzzer G) (w : World X),
    let rs := answers (λ _ x, mutate x (heap w) trace eventTrace) count i (ext w) in
    for_loop count i (λ _, mutateOnce copyTrace mutate trace eventTrace) f w
    = (Ok (mkFuzzer (config f) (guider f)
             (mutatedTracesQueue f ++ (copyTrace <$> successes rs.1)) (stats f)),
       mkWorld (heap w)
         (calls w ++ replicate count (CallMutate trace eventTrace)) rs.2).
Proof.
  induction count as [|count IH]; intros i f w rs; subst rs.
  - simpl. rewrite !app_nil_r. destruct f, w; reflexivity.
  - simpl. unfold mbind at 1, M_bind at 1. unfold mutateOnce at 1.
    unfold mbind at 1, M_bind at 1. unfold Mutate at 1.
    destruct (mutate (ext w) (heap w) trace eventTrace) as [[new ok] x1] eqn:Hm.
    simpl.
    specialize (IH (i + 1)). simpl in IH.
    destruct ok; unfold mret, M_ret; rewrite IH; simpl;
      destruct (answers _ count (i + 1) x1) as [rest x2]; cbn [fst snd];
      rewrite successes_cons; cbn [fst snd]; unfold Queue.Push;
      rewrite <- ?app_assoc; reflexivity.
Qed.

(** What is left of a turn of [Run] once [Check] has returned: the
    mutation block, run on the trace just executed and on the count
    [Check] reported. *)
Lemma iteration_after_Check (i : Z) (f f1 f2 f3 : Fuzzer G) (due : bool)
    (mimic : option Trace) (trace : Trace) (eventTrace : loc) (guider' : G)
    (numNew : Z) (ratio : Q) (w w0 w1 w2 w3 w4 w5 : World X) :
  reseedDue i (ReseedFrequency (config f)) w = (Ok due, w0) →
  (if due then seed copyTrace runIteration f else mret f) w0 = (Ok f1, w1) →
  selectMimic f1 w1 = (Ok (mimic, f2), w2) →
  RunIteration runIteration ("fuzz_" +:+ pretty i) mimic w2
  = (Ok (trace, eventTrace), w3) →
  checkBuggy checker f2 w3 = (Ok f3, w4) →
  Check (guider f3) trace eventTrace w4 = (Ok (guider', (numNew, ratio)), w5) →
  iteration copyTrace mutate runIteration checker i f w
  = mutations copyTrace mutate trace eventTrace numNew
      (mkFuzzer (config f3) guider' (mutatedTracesQueue f3) (stats f3)) w5.
Proof.
  intros H0 H1 H2 H3 H4 H5. unfold iteration.
  unfold mbind at 1, M_bind at 1. rewrite H0.
  unfold mbind at 1, M_bind at 1. rewrite H1.
  unfold mbind at 1, M_bind at 1. rewrite H2.
  unfold mbind at 1, M_bind at 1. rewrite H3.
  unfold mbind at 1, M_bind at 1. rewrite H4.
  unfold mbind at 1, M_bind at 1. rewrite H5.
  reflexivity.
Qed.

End FuzzerFacts.

(** *** The seen-set over a whole run *)

Section Returns.
Context {S : Type}.

Lemma returns_mret {A} (P : A → Prop) (a : A) : P a → returns P (mret a : M S A).
Proof. intros Ha s a' s' [= <- _]. exact Ha. Qed.

Lemma returns_bind {A B} (Q : A → Prop) (P : B → Prop) (m : M S A) (k : A → M S B) :
  returns Q m → (∀ a, Q a → returns P (k a)) → returns P (m ≫= k).
Proof.
  intros Hm Hk s b s'. unfold mbind, M_bind.
  destruct (m s) as [[a|why] s1] eqn:Hms; [|discriminate].
  apply (Hk a (Hm s a s1 Hms)).
Qed.

Lemma returns_weaken {A} (P Q : A → Prop) (m : M S A) :
  (∀ a, P a → Q a) → returns P m → returns Q m.
Proof. intros HPQ Hm s a s' Hr. apply HPQ, (Hm s a s' Hr). Qed.

(** A loop whose body moves the loop state along a preorder moves it
    along the preorder. *)
Lemma returns_for_loop {A} (R : A → A → Prop) `{!PreOrder R}
    (body : Z → A → M S A) (count : nat) :
  (∀ i a, returns (R a) (body i a)) →
  ∀ i a, returns (R a) (for_loop count i body a).
Proof.
  intros Hb. induction count as [|count IH]; intros i a; simpl.
  - by apply returns_mret.
  - apply (returns_bind (R a)); [apply Hb|].
    intros a' Ha'. eapply returns_weaken; [|apply IH].
    intros a'' Ha''. by etrans.
Qed.
End Returns.

Section RunFacts.
Context {X : Type}.
Context (json_Marshal : list Event.t → string).
Context (tlc_reply : X → HttpPost → TLCResponse * X).
Context (copyTrace : Trace → Trace).
Context (mutate : X → gmap loc (list Event.t) → Trace → loc → (Trace * bool) * X).
Context (runIteration : X → string → option Trace → (Trace * list Event.t) * X).
Context (checker : option (X → bool)).

Local Abbreviation tlcGuiderI := (TLCStateGuider_Guider json_Marshal tlc_reply).

Global Instance seenGrows_preorder : PreOrder seenGrows.
Proof.
  split.
  - intros f. unfold seenGrows. reflexivity.
  - intros f1 f2 f3 H12 H23. unfold seenGrows in *. by etrans.
Qed.

Lemma Check_returns_superset (t : TLCStateGuider) (trace : Trace) (eventTrace : loc) :
  returns (λ r, statesMap t ⊆ statesMap r.1)
    (TLCStateGuider_Check json_Marshal tlc_reply t trace eventTrace).
Proof.
  intros w r w'. unfold TLCStateGuider_Check, mbind, M_bind.
  destruct (SendTrace _ _ _ _ _) as [[tlcStates|why] w1]; [|discriminate].
  pose proof (countNewStates_spec tlcStates (statesMap t) 0) as (Hsub & _).
  destruct (countNewStates tlcStates (statesMap t) 0) as [m' k].
  intros [= <- _]. exact Hsub.
Qed.

Lemma stats_incr_guider (key : string) (f : Fuzzer TLCStateGuider) :
  returns (λ f', guider f' = guider f) (stats_incr (X := X) key f).
Proof.
  intros w f' w'. unfold stats_incr. destruct (stats f !! key); [|discriminate].
  by intros [= <- _].
Qed.

Lemma seed_guider (f : Fuzzer TLCStateGuider) :
  returns (λ f', guider f' = guider f) (seed copyTrace runIteration f).
Proof.
  intros w f' w'. unfold seed, for_range.
  destruct (seed_loop copyTrace runIteration
              (Z.to_nat (SeedPopulationSize (config f))) 0
              (mkFuzzer (config f) (guider f) (Queue.Reset (mutatedTracesQueue f))
                 (stats f)) w) as (h' & Hloop & _).
  simpl in *. rewrite Hloop. by intros [= <- _].
Qed.

Lemma selectMimic_guider (f : Fuzzer TLCStateGuider) :
  returns (λ r, guider r.2 = guider f) (selectMimic (X := X) f).
Proof.
  unfold selectMimic. destruct (0 <? Queue.Size (mutatedTracesQueue f)).
  - apply (returns_bind (λ f1, guider f1 = guider f)); [apply stats_incr_guider|].
    intros f1 Hf1. destruct (Queue.Pop (mutatedTracesQueue f1)) as [mimic q].
    by apply returns_mret.
  - apply (returns_bind (λ f1, guider f1 = guider f)); [apply stats_incr_guider|].
    intros f1 Hf1. by apply returns_mret.
Qed.

Lemma checkBuggy_guider (f : Fuzzer TLCStateGuider) :
  returns (λ f', guider f' = guider f) (checkBuggy (X := X) checker f).
Proof.
  intros w f' w'. unfold checkBuggy. destruct checker as [chk|].
  - destruct (chk (ext w)); [by intros [= <- _]|]. apply stats_incr_guider.
  - by intros [= <- _].
Qed.

Lemma mutations_guider (trace : Trace) (eventTrace : loc) (k : Z)
    (f : Fuzzer TLCStateGuider) :
  returns (λ f', guider f' = guider f)
    (mutations copyTrace mutate trace eventTrace k f).
Proof.
  intros w f' w'. unfold mutations. destruct (0 <? k).
  - unfold for_range. rewrite mutation_loop. by intros [= <- _].
  - by intros [= <- _].
Qed.

Lemma iteration_seenGrows (i : Z) (f : Fuzzer TLCStateGuider) :
  returns (seenGrows f)
    (iteration (guiderI := tlcGuiderI) copyTrace mutate runIteration checker i f).
Proof.
  unfold iteration.
  apply (returns_bind (λ _, True)); [done|]. intros due _.
  apply (returns_bind (λ f1, guider f1 = guider f)).
  { destruct due; [apply seed_guider | by apply returns_mret]. }
  intros f1 H1.
  apply (returns_bind (λ r, guider r.2 = guider f1)); [apply selectMimic_guider|].
  intros [mimic f2] H2. simpl in H2.
  apply (returns_bind (λ _, True)); [done|]. intros [trace eventTrace] _.
  apply (returns_bind (λ f3, guider f3 = guider f2)); [apply checkBuggy_guider|].
  intros f3 H3.
  apply (returns_bind (λ r, statesMap (guider f3) ⊆ statesMap r.1)).
  { apply Check_returns_superset. }
  intros [guider' [numNewStates ratio]] H4. simpl in H4.
  eapply returns_weaken; [|apply mutations_guider].
  intros f' H5. unfold seenGrows. rewrite H5. simpl.
  rewrite <- H1, <- H2, <- H3. exact H4.
Qed.

(** Across the iterations of a run with the TLC-state guider the seen-set
    only grows. *)
Lemma Run_seenGrows (f : Fuzzer TLCStateGuider) :
  returns (seenGrows f)
    (Run (guiderI := tlcGuiderI) copyTrace mutate runIteration checker f).
Proof.
  unfold Run, for_range. apply returns_for_loop; [apply _|].
  intros i a. apply iteration_seenGrows.
Qed.
End RunFacts.

(** ** The turns of the main loop *)

(** A loop of [n + m] turns is its first [n] turns followed by the
    other [m]. *)
Lemma for_loop_app {Σ A} (body : Z → A → M Σ A) (n m : nat) :
  ∀ (i : Z) (a : A) (s : Σ),
    for_loop (n + m) i body a s
    = (a' ← for_loop n i body a ; for_loop m (i + Z.of_nat n) body a') s.
Proof.
  induction n as [|n IH]; intros i a s.
  - simpl. unfold mbind, M_bind, mret, M_ret. by rewrite Z.add_0_r.
  - cbn [Nat.add for_loop]. unfold mbind, M_bind.
    destruct (body i a s) as [[a1|why] s1]; [|reflexivity].
    rewrite IH. unfold mbind, M_bind.
    replace (i + 1 + Z.of_nat n) with (i + Z.of_nat (S n)) by lia. reflexivity.
Qed.

Section Faults.
Context {S : Type} (why : string).

Lemma neverPanicsWith_mret {A} (a : A) : neverPanicsWith why (mret a : M S A).
Proof. intros s. discriminate. Qed.

Lemma neverPanicsWith_bind {A B} (Q : A → Prop) (m : M S A) (k : A → M S B) :
  neverPanicsWith why m → returns Q m →
  (∀ a, Q a → neverPanicsWith why (k a)) →
  neverPanicsWith why (m ≫= k).
Proof.
  intros Hm HQ Hk s. unfold mbind, M_bind. specialize (Hm s).
  destruct (m s) as [[a|why'] s1] eqn:Hms.
  - apply (Hk a (HQ s a s1 Hms)).
  - simpl in *. intros [= ->]. by apply Hm.
Qed.

(** A loop whose body keeps [P] and never panics with [why] under [P]
    never panics with [why] from a state with [P]. *)
Lemma neverPanicsWith_for_loop {A} (P : A → Prop) (body : Z → A → M S A)
    (count : nat) :
  (∀ i a, P a → neverPanicsWith why (body i a) ∧ returns P (body i a)) →
  ∀ i a, P a → neverPanicsWith why (for_loop count i body a).
Proof.
  intros Hb. induction count as [|count IH]; intros i a Ha; simpl.
  - apply neverPanicsWith_mret.
  - destruct (Hb i a Ha) as [Hn Hr].
    apply (neverPanicsWith_bind P); [exact Hn | exact Hr |].
    intros a' Ha'. by apply IH.
Qed.
End Faults.

Lemma returns_True {S A} (m : M S A) : returns (λ _, True) m.
Proof. by intros s a s' _. Qed.

Section IterationFacts.
Context {X G : Type} {guiderI : Guider X G}.
Context (copyTrace : Trace → Trace).
Context (mutate : X → gmap loc (list Event.t) → Trace → loc → (Trace * bool) * X).
Context (runIteration : X → string → option Trace → (Trace * list Event.t) * X).
Context (checker : option (X → bool)).

(** *** The configuration is never written *)

Lemma stats_incr_config (key : string) (f : Fuzzer G) :
  returns (λ f', config f' = config f) (stats_incr (X := X) key f).
Proof.
  intros w f' w'. unfold stats_incr. destruct (stats f !! key); [|discriminate].
  by intros [= <- _].
Qed.

Lemma seed_config (f : Fuzzer G) :
  returns (λ f', config f' = config f) (seed copyTrace runIteration f).
Proof.
  intros w f' w'. unfold seed, for_range.
  destruct (seed_loop copyTrace runIteration
              (Z.to_nat (SeedPopulationSize (config f))) 0
              (mkFuzzer (config f) (guider f) (Queue.Reset (mutatedTracesQueue f))
                 (stats f)) w) as (h' & Hloop & _).
  simpl in *. rewrite Hloop. by intros [= <- _].
Qed.

Lemma selectMimic_config (f : Fuzzer G) :
  returns (λ r, config r.2 = config f) (selectMimic (X := X) f).
Proof.
  unfold selectMimic. destruct (0 <? Queue.Size (mutatedTracesQueue f)).
  - apply (returns_bind (λ f1, config f1 = config f)); [apply stats_incr_config|].
    intros f1 Hf1. destruct (Queue.Pop (mutatedTracesQueue f1)) as [mimic q].
    by apply returns_mret.
  - apply (returns_bind (λ f1, config f1 = config f)); [apply stats_incr_config|].
    intros f1 Hf1. by apply returns_mret.
Qed.

Lemma checkBuggy_config (f : Fuzzer G) :
  returns (λ f', config f' = config f) (checkBuggy (X := X) checker f).
Proof.
  intros w f' w'. unfold checkBuggy. destruct checker as [chk|].
  - destruct (chk (ext w)); [by intros [= <- _]|]. apply stats_incr_config.
  - by intros [= <- _].
Qed.

Lemma mutations_config (trace : Trace) (eventTrace : loc) (k : Z) (f : Fuzzer G) :
  returns (λ f', config f' = config f)
    (mutations copyTrace mutate trace eventTrace k f).
Proof.
  intros w f' w'. unfold mutations. destruct (0 <? k).
  - unfold for_range. rewrite mutation_loop. by intros [= <- _].
  - by intros [= <- _].
Qed.

Lemma iteration_config (i : Z) (f : Fuzzer G) :
  returns (λ f', config f' = config f)
    (iteration copyTrace mutate runIteration checker i f).
Proof.
  unfold iteration.
  apply (returns_bind (λ _, True)); [apply returns_True|]. intros due _.
  apply (returns_bind (λ f1, config f1 = config f)).
  { destruct due; [apply seed_config | by apply returns_mret]. }
  intros f1 H1.
  apply (returns_bind (λ r, config r.2 = config f1)); [apply selectMimic_config|].
  intros [mimic f2] H2. simpl in H2.
  apply (returns_bind (λ _, True)); [apply returns_True|].
  intros [trace eventTrace] _.
  apply (returns_bind (λ f3, config f3 = config f2)); [apply checkBuggy_config|].
  intros f3 H3.
  apply (returns_bind (λ _, True)); [apply returns_True|].
  intros [guider' [numNewStates ratio]] _.
  eapply returns_weaken; [|apply mutations_config].
  intros f' H5. rewrite H5. simpl. congruence.
Qed.

Lemma turns_config (count : nat) :
  ∀ (i : Z) (f : Fuzzer G),
    returns (λ f', config f' = config f)
      (for_loop count i (iteration copyTrace mutate runIteration checker) f).
Proof.
  induction count as [|count IH]; intros i f.
  - simpl. by apply returns_mret.
  - cbn [for_loop]. eapply returns_bind; [apply iteration_config|].
    intros f1 H1. eapply returns_weaken; [|apply IH].
    intros f' H'. cbv beta in *. congruence.
Qed.

(** C2: in every iteration of a run in which [Check] returns
    [numNew = k], the fuzzer then calls [Mutate] exactly
    [k * MutPerTrace] times when [k > 0], each time on the [(trace,
    eventTrace)] that this iteration's [RunIteration] returned; the
    corpus gains the copies of exactly the answers that came with
    [ok = true], in order, the others are dropped; when [k] is 0 (or
    less) no call is made and the corpus is left as it was. The
    iteration is the [i]-th turn of [Run]: the earlier turns have
    returned [(f, w)], the turn's own steps up to [Check] have returned,
    and [Run] goes on from the state after the mutations. The number of
    calls is the Go product, which is the product of the integers when
    that fits the 64-bit range. *)
Theorem mutation_budget (i k : Z) (f0 f f1 f2 f3 : Fuzzer G) (due : bool)
    (mimic : option Trace) (trace : Trace) (eventTrace : loc) (guider' : G)
    (ratio : Q) (w0 w wa wb wc wd we w5 : World X) :
  0 ≤ i < Iterations (config f0) →
  for_loop (Z.to_nat i) 0 (iteration copyTrace mutate runIteration checker) f0 w0
  = (Ok f, w) →
  reseedDue i (ReseedFrequency (config f)) w = (Ok due, wa) →
  (if due then seed copyTrace runIteration f else mret f) wa = (Ok f1, wb) →
  selectMimic f1 wb = (Ok (mimic, f2), wc) →
  RunIteration runIteration ("fuzz_" +:+ pretty i) mimic wc
  = (Ok (trace, eventTrace), wd) →
  checkBuggy checker f2 wd = (Ok f3, we) →
  Check (guider f3) trace eventTrace we = (Ok (guider', (k, ratio)), w5) →
  let n := if 0 <? k then Z.to_nat (GoInt.mul k (MutPerTrace (config f0)))
           else 0%nat in
  let rs := answers (λ _ x, mutate x (heap w5) trace eventTrace) n 0 (ext w5) in
  let f' := mkFuzzer (config f3) guider'
              (mutatedTracesQueue f3 ++ (copyTrace <$> successes rs.1))
              (stats f3) in
  let w' := mkWorld (heap w5)
              (calls w5 ++ replicate n (CallMutate trace eventTrace)) rs.2 in
  iteration copyTrace mutate runIteration checker i f w = (Ok f', w')
  ∧ Run copyTrace mutate runIteration checker f0 w0
    = for_loop (Z.to_nat (Iterations (config f0) - i - 1)) (i + 1)
        (iteration copyTrace mutate runIteration checker) f' w'
  ∧ length rs.1 = n
  ∧ config f3 = config f0
  ∧ (0 < k → 0 ≤ MutPerTrace (config f0) →
     k * MutPerTrace (config f0) ≤ GoInt.int_max →
     Z.of_nat n = k * MutPerTrace (config f0))
  ∧ (k ≤ 0 → n = 0%nat ∧ f' = mkFuzzer (config f3) guider' (mutatedTracesQueue f3)
                                (stats f3)
             ∧ w' = w5).
Proof.
  intros Hi Hturns H0 H1 H2 H3 H4 H5 n rs f' w'.
  assert (Hc : config f = config f0) by exact (turns_config _ _ _ _ _ _ Hturns).
  assert (Hc1 : config f1 = config f).
  { destruct due; [exact (seed_config _ _ _ _ H1)|]. by injection H1 as <- _. }
  assert (Hc2 : config f2 = config f1) by exact (selectMimic_config _ _ _ _ H2).
  assert (Hc3 : config f3 = config f2) by exact (checkBuggy_config _ _ _ _ H4).
  assert (Hcfg : config f3 = config f0) by congruence.
  assert (Hit : iteration copyTrace mutate runIteration checker i f w = (Ok f', w')).
  { rewrite (iteration_after_Check copyTrace mutate runIteration checker
               i f f1 f2 f3 due mimic trace eventTrace guider' k ratio
               w wa wb wc wd we w5 H0 H1 H2 H3 H4 H5).
    subst f' w' rs n. unfold mutations. cbn [config]. rewrite <- Hcfg.
    destruct (0 <? k).
    - unfold for_range. rewrite mutation_loop. reflexivity.
    - simpl. rewrite !app_nil_r. by destruct w5. }
  split; [exact Hit|]. split.
  { unfold Run, for_range.
    replace (Z.to_nat (Iterations (config f0)))
      with (Z.to_nat i + (1 + Z.to_nat (Iterations (config f0) - i - 1)))%nat by lia.
    rewrite for_loop_app. unfold mbind at 1, M_bind at 1. rewrite Hturns.
    cbn [Nat.add for_loop]. unfold mbind at 1, M_bind at 1.
    replace (0 + Z.of_nat (Z.to_nat i)) with i by lia. rewrite Hit. reflexivity. }
  split; [subst rs; apply answers_length|]. split; [exact Hcfg|]. split.
  - intros Hk Hm Hfit. subst n.
    replace (0 <? k) with true by (symmetry; apply Z.ltb_lt; exact Hk).
    unfold GoInt.mul, GoInt.wrap. unfold GoInt.int_max in Hfit.
    rewrite Z.mod_small by nia. nia.
  - intros Hk. assert (Hn : n = 0%nat).
    { subst n. by replace (0 <? k) with false by (symmetry; apply Z.ltb_ge; exact Hk). }
    split; [exact Hn|]. subst f' w' rs. rewrite Hn. simpl.
    rewrite !app_nil_r. split; [reflexivity | by destruct w5].
Qed.

(** *** The reseed test *)

Lemma reseedDue_never_divides_by_zero (i reseedFrequency : Z) :
  1 ≤ reseedFrequency →
  neverPanicsWith "integer divide by zero" (reseedDue (X := X) i reseedFrequency).
Proof.
  intros Hrf w. unfold reseedDue, GoInt.rem.
  destruct (reseedFrequency =? 0) eqn:Hz; [apply Z.eqb_eq in Hz; lia|].
  discriminate.
Qed.

Lemma stats_incr_never_divides_by_zero (key : string) (f : Fuzzer G) :
  neverPanicsWith "integer divide by zero" (stats_incr (X := X) key f).
Proof. intros w. unfold stats_incr. destruct (stats f !! key); discriminate. Qed.

(** With a positive frequency, and a guider that does not divide by
    zero itself, a turn of the main loop does not. *)
Lemma iteration_never_divides_by_zero (i : Z) (f : Fuzzer G) :
  (∀ g trace eventTrace,
     neverPanicsWith "integer divide by zero" (Check g trace eventTrace)) →
  1 ≤ ReseedFrequency (config f) →
  neverPanicsWith "integer divide by zero"
    (iteration copyTrace mutate runIteration checker i f).
Proof.
  intros Hcheck Hrf. unfold iteration.
  apply (neverPanicsWith_bind _ (λ _, True));
    [by apply reseedDue_never_divides_by_zero | apply returns_True |].
  intros due _.
  apply (neverPanicsWith_bind _ (λ _, True)); [|apply returns_True|].
  { destruct due; [|apply neverPanicsWith_mret].
    intros w. unfold seed, for_range.
    destruct (seed_loop copyTrace runIteration
                (Z.to_nat (SeedPopulationSize (config f))) 0
                (mkFuzzer (config f) (guider f) (Queue.Reset (mutatedTracesQueue f))
                   (stats f)) w) as (h' & Hloop & _).
    simpl in *. rewrite Hloop. discriminate. }
  intros f1 _.
  apply (neverPanicsWith_bind _ (λ _, True)); [|apply returns_True|].
  { unfold selectMimic. destruct (0 <? Queue.Size (mutatedTracesQueue f1)).
    - apply (neverPanicsWith_bind _ (λ _, True));
        [apply stats_incr_never_divides_by_zero | apply returns_True |].
      intros f2 _. destruct (Queue.Pop (mutatedTracesQueue f2)) as [mimic q].
      apply neverPanicsWith_mret.
    - apply (neverPanicsWith_bind _ (λ _, True));
        [apply stats_incr_never_divides_by_zero | apply returns_True |].
      intros f2 _. apply neverPanicsWith_mret. }
  intros [mimic f2] _.
  apply (neverPanicsWith_bind _ (λ _, True)); [|apply returns_True|].
  { intros w. unfold RunIteration.
    destruct (runIteration (ext w) ("fuzz_" +:+ pretty i) mimic) as [[trace evs] x'].
    discriminate. }
  intros [trace eventTrace] _.
  apply (neverPanicsWith_bind _ (λ _, True)); [|apply returns_True|].
  { intros w. unfold checkBuggy. destruct checker as [chk|]; [|discriminate].
    destruct (chk (ext w)); [discriminate|].
    apply stats_incr_never_divides_by_zero. }
  intros f3 _.
  apply (neverPanicsWith_bind _ (λ _, True)); [apply Hcheck | apply returns_True |].
  intros [guider' [numNewStates ratio]] _.
  intros w. unfold mutations. destruct (0 <? numNewStates); [|discriminate].
  unfold for_range. rewrite mutation_loop. discriminate.
Qed.

(** C7: the reseed decision of the main loop and the zero frequency.
    With [ReseedFrequency ≥ 1] the test of every iteration [i] evaluates
    without fault, to [i mod ReseedFrequency = 0] for the loop's indices,
    and a whole run, of any number of iterations and from any state,
    never faults with a division by zero (the guider's [Check] being
    assumed not to divide by zero itself; the configuration, and so the
    frequency, is never written). With [ReseedFrequency = 0] the test
    divides by zero at every [i], and a main loop that has at least one
    iteration to run faults in its first turn, before anything else is
    done. Both commands of main.go set the frequency to 2000. *)
Theorem reseed_needs_positive_frequency (f : Fuzzer G) (w : World X) :
  (1 ≤ ReseedFrequency (config f) →
   (∀ i : Z, ∃ due : bool,
      reseedDue i (ReseedFrequency (config f)) w = (Ok due, w)
      ∧ (0 ≤ i → due = (i mod ReseedFrequency (config f) =? 0)))
   ∧ ((∀ g trace eventTrace,
         neverPanicsWith "integer divide by zero" (Check g trace eventTrace)) →
      neverPanicsWith "integer divide by zero"
        (Run copyTrace mutate runIteration checker f)))
  ∧ (ReseedFrequency (config f) = 0 →
     (∀ i : Z,
        reseedDue i (ReseedFrequency (config f)) w
        = (Panic "integer divide by zero", w))
     ∧ (1 ≤ Iterations (config f) →
        Run copyTrace mutate runIteration checker f w
        = (Panic "integer divide by zero", w)))
  ∧ (∀ episodes horizon replicas requests : Z,
       ReseedFrequency (FuzzCommand_config episodes horizon replicas requests) = 2000
       ∧ ReseedFrequency (OneCommand_config episodes horizon replicas requests) = 2000).
Proof.
  split; [|split; [|done]].
  - intros Hrf. split.
    + intros i. unfold reseedDue, GoInt.rem.
      destruct (ReseedFrequency (config f) =? 0) eqn:Hz; [apply Z.eqb_eq in Hz; lia|].
      eexists. split; [reflexivity|]. intros Hi.
      rewrite Z.rem_mod_nonneg by lia. reflexivity.
    + intros Hcheck. unfold Run, for_range.
      apply (neverPanicsWith_for_loop _ (λ f', 1 ≤ ReseedFrequency (config f')));
        [|exact Hrf].
      intros i a Ha. split; [by apply iteration_never_divides_by_zero|].
      eapply returns_weaken; [|apply iteration_config].
      intros f' Hf'. cbv beta in *. by rewrite Hf'.
  - intros Hzero. split.
    + intros i. rewrite Hzero. reflexivity.
    + intros Hit. unfold Run, for_range.
      destruct (Z.to_nat (Iterations (config f))) as [|count] eqn:Hc; [lia|].
      simpl. unfold mbind at 1, M_bind at 1. unfold iteration.
      unfold mbind at 1, M_bind at 1. rewrite Hzero. reflexivity.
Qed.
End IterationFacts.

(** The guiders of guider.go do not divide integers: their faults are
    those of [SendTrace]. *)
Lemma convertStates_never_divides_by_zero {X} (states keys : list string) :
  ∀ (i : nat) (result : list State),
    neverPanicsWith "integer divide by zero"
      (convertStates (X := X) i states keys result).
Proof.
  induction states as [|s states IH]; intros i result; simpl.
  - apply neverPanicsWith_mret.
  - destruct (keys !! i); [apply IH | intros w; discriminate].
Qed.

Lemma TLCStateGuider_Check_never_divides_by_zero {X}
    (json_Marshal : list Event.t → string)
    (tlc_reply : X → HttpPost → TLCResponse * X)
    (t : TLCStateGuider) (trace : Trace) (eventTrace : loc) :
  neverPanicsWith "integer divide by zero"
    (TLCStateGuider_Check json_Marshal tlc_reply t trace eventTrace).
Proof.
  unfold TLCStateGuider_Check.
  apply (neverPanicsWith_bind _ (λ _, True)); [|apply returns_True|].
  - unfold SendTrace.
    apply (neverPanicsWith_bind _ (λ _, True)); [|apply returns_True|].
    { intros w. unfold List_Append. destruct (heap w !! eventTrace); discriminate. }
    intros _ _.
    apply (neverPanicsWith_bind _ (λ _, True)); [|apply returns_True|].
    { intros w. unfold List_Elems. destruct (heap w !! eventTrace); discriminate. }
    intros evs _.
    apply (neverPanicsWith_bind _ (λ _, True)); [|apply returns_True|].
    { intros w. unfold http_Post. destruct (tlc_reply _ _). discriminate. }
    intros resp _. apply convertStates_never_divides_by_zero.
  - intros tlcStates _.
    destruct (countNewStates tlcStates (statesMap t) 0) as [m' k].
    apply neverPanicsWith_mret.
Qed.

Lemma TraceCoverageGuider_Check_never_divides_by_zero {X}
    (json_Marshal : list Event.t → string)
    (tlc_reply : X → HttpPost → TLCResponse * X)
    (eventTrace_Hash : list Event.t → string)
    (t : TraceCoverageGuider) (trace : Trace) (events : loc) :
  neverPanicsWith "integer divide by zero"
    (TraceCoverageGuider_Check json_Marshal tlc_reply eventTrace_Hash t trace events).
Proof.
  unfold TraceCoverageGuider_Check.
  apply (neverPanicsWith_bind _ (λ _, True));
    [apply TLCStateGuider_Check_never_divides_by_zero | apply returns_True |].
  intros r _.
  apply (neverPanicsWith_bind _ (λ _, True)); [|apply returns_True|].
  { intros w. unfold List_Elems. destruct (heap w !! events); discriminate. }
  intros evs _. destruct (traces t !! eventTrace_Hash evs); apply neverPanicsWith_mret.
Qed.

(** ** The step loop of [RunIteration] *)

Lemma pops_app (key : string) (es es' : list Effect) :
  pops key (es ++ es') = pops key es ++ pops key es'.
Proof.
  induction es as [|e es IH]; simpl; [reflexivity|].
  destruct e; try exact IH. case_decide; simpl; by rewrite IH.
Qed.

Lemma pushes_app (key : string) (es es' : list Effect) :
  pushes key (es ++ es') = pushes key es ++ pushes key es'.
Proof.
  induction es as [|e es IH]; simpl; [reflexivity|].
  destruct e; try exact IH. case_decide; simpl; by rewrite IH.
Qed.

Lemma pops_EPop (key : string) (ms : list Message.t) :
  pops key (EPop key <$> ms) = ms.
Proof.
  induction ms as [|m ms IH]; simpl; [reflexivity|].
  rewrite decide_True by reflexivity. f_equal. exact IH.
Qed.

(** *** Queue keys: distinct channels have distinct queues *)

Lemma pretty_N_char_digit (x : N) : digit (pretty_N_char x) = true.
Proof. unfold pretty_N_char. repeat case_match; reflexivity. Qed.

Lemma pretty_N_go_digits (x : N) :
  ∀ s : string, digits s = true → digits (pretty_N_go x s) = true.
Proof.
  induction (N.lt_wf_0 x) as [x _ IH]; intros s Hs.
  destruct (decide (x = 0%N)) as [->|Hx].
  - by rewrite pretty_N_go_0.
  - rewrite pretty_N_go_step by lia. apply IH.
    + apply N.div_lt; lia.
    + simpl. by rewrite pretty_N_char_digit, Hs.
Qed.

Lemma pretty_N_digits (x : N) : digits (pretty x) = true.
Proof.
  unfold pretty, pretty_N. case_decide; [reflexivity|].
  by apply pretty_N_go_digits.
Qed.

Lemma digits_sep_inj (a : string) :
  ∀ a' b b' : string,
    digits a = true → digits a' = true →
    a +:+ "_" +:+ b = a' +:+ "_" +:+ b' → a = a' ∧ b = b'.
Proof.
  induction a as [|c a IH]; intros [|c' a'] b b' Ha Ha' Heq; simpl in *.
  - by simplify_eq.
  - by simplify_eq.
  - by simplify_eq.
  - apply andb_prop in Ha as [_ Ha]. apply andb_prop in Ha' as [_ Ha'].
    injection Heq as Hc Heq. destruct (IH a' b b' Ha Ha' Heq) as [Ha'' Hb].
    by subst.
Qed.

Lemma queueKey_inj (from to from' to' : N) :
  queueKey from to = queueKey from' to' → from = from' ∧ to = to'.
Proof.
  intros Heq.
  apply digits_sep_inj in Heq as [Hf Ht]; try apply pretty_N_digits.
  split; by apply (inj pretty).
Qed.

(** *** Composition of invariants *)

Section Preservation.
Context {S : Type} (I : S → Prop).

Lemma preserves_mret {A} (a : A) : preserves I (mret a : M S A).
Proof. intros s Hs. exact Hs. Qed.

Lemma preserves_panic {A} (why : string) : preserves I (panic why : M S A).
Proof. intros s Hs. exact Hs. Qed.

Lemma preserves_bind {A B} (m : M S A) (k : A → M S B) :
  preserves I m → (∀ a, preserves I (k a)) → preserves I (m ≫= k).
Proof.
  intros Hm Hk s Hs. unfold mbind, M_bind.
  specialize (Hm s Hs). destruct (m s) as [[a|why] s1]; simpl in *.
  - apply Hk, Hm.
  - exact Hm.
Qed.

Lemma preserves_for_loop {A} (body : Z → A → M S A) (count : nat) :
  (∀ i a, preserves I (body i a)) →
  ∀ i a, preserves I (for_loop count i body a).
Proof.
  intros Hb. induction count as [|count IH]; intros i a; simpl.
  - apply preserves_mret.
  - apply preserves_bind; [apply Hb | intros a'; apply IH].
Qed.
End Preservation.

Section RunIterationFacts.
Context {T E : Type}.
Context (CanCrash : T → Z → option N * T).
Context (CanStart : T → Z → option N * T).
Context (GetNextNodeChoice : T → (N * N * Z) * T).
Context (IsClientRequest : T → Z → option Z * T).
Context (env_Stop : E → N → E).
Context (env_Start : E → N → E).
Context (env_Step : E → Message.t → E).
Context (env_Tick : E → list Message.t * E).
Context (MsgProp : MessageType).
Context (MessageType_String : MessageType → string).
Context (sendEvent : Message.t → Event.t).

Local Abbreviation St := (IterState T E).

(** *** The queue discipline is kept by every operation of a step *)

Section Discipline.
Context (q0 : gmap string (Queue.t Message.t)).

Local Abbreviation Inv := (FIFO (T := T) (E := E) q0).

(** An operation that leaves the queues alone and logs no queue
    effect keeps the discipline. *)
Lemma FIFO_frame (s s' : St) (es : list Effect) :
  messageQueues s' = messageQueues s →
  effects s' = effects s ++ es →
  (∀ key, pops key es = [] ∧ pushes key es = []) →
  Inv s → Inv s'.
Proof.
  intros Hq He Hes Hs key. destruct (Hes key) as [Hpop Hpush].
  rewrite He, Hq, pops_app, pushes_app, Hpop, Hpush, !app_nil_r. apply Hs.
Qed.

Lemma preserves_withCtx {A} (o : T → A * T) : preserves Inv (withCtx o).
Proof.
  intros s Hs. unfold withCtx. destruct (o (tCtx s)) as [a t']. simpl.
  apply (FIFO_frame s _ []); auto. simpl. by rewrite app_nil_r.
Qed.

Lemma preserves_appendEvent (e : Event.t) : preserves Inv (appendEvent e).
Proof.
  intros s Hs. apply (FIFO_frame s _ []); auto. simpl. by rewrite app_nil_r.
Qed.

Lemma preserves_setCrashed (c : gmap N bool) : preserves Inv (setCrashed c).
Proof.
  intros s Hs. apply (FIFO_frame s _ []); auto. simpl. by rewrite app_nil_r.
Qed.

Lemma preserves_getCrashed : preserves Inv getCrashed.
Proof. intros s Hs. exact Hs. Qed.

Lemma preserves_Stop (node : N) : preserves Inv (Stop env_Stop node).
Proof. intros s Hs. apply (FIFO_frame s _ [EStop node]); auto. Qed.

Lemma preserves_Start (node : N) : preserves Inv (Start env_Start node).
Proof. intros s Hs. apply (FIFO_frame s _ [EStart node]); auto. Qed.

Lemma preserves_Step (m : Message.t) : preserves Inv (Step env_Step m).
Proof. intros s Hs. apply (FIFO_frame s _ [EStep m]); auto. Qed.

Lemma preserves_Tick : preserves Inv (Tick env_Tick).
Proof.
  intros s Hs. unfold Tick. destruct (env_Tick (raftEnvironment s)) as [ms e'].
  apply (FIFO_frame s _ [ETick]); auto.
Qed.

(** A pop takes the head of the queue under [key]. *)
Lemma preserves_popQueue (key : string) : preserves Inv (popQueue key).
Proof.
  intros s Hs. unfold popQueue.
  destruct (messageQueues s !! key) as [q|] eqn:Hq; [|exact Hs].
  destruct q as [|m q']; simpl; [exact Hs|].
  intros key'. simpl. rewrite pops_app, pushes_app. simpl.
  rewrite app_nil_r. specialize (Hs key'). unfold queueAt in *.
  destruct (decide (key = key')) as [<-|Hne].
  - rewrite lookup_insert_eq. rewrite Hq in Hs. simpl in *.
    rewrite Hs, <- app_assoc. reflexivity.
  - rewrite lookup_insert_ne by exact Hne. rewrite app_nil_r. exact Hs.
Qed.

(** A push adds at the back of the queue under [key]. *)
Lemma preserves_pushQueue (key : string) (n : Message.t) :
  preserves Inv (pushQueue key n).
Proof.
  intros s Hs. unfold pushQueue.
  destruct (messageQueues s !! key) as [q|] eqn:Hq; [|exact Hs].
  intros key'. simpl. rewrite pops_app, pushes_app. simpl.
  rewrite app_nil_r. specialize (Hs key'). unfold queueAt in *.
  destruct (decide (key = key')) as [<-|Hne].
  - rewrite lookup_insert_eq. rewrite Hq in Hs. simpl in *.
    unfold Queue.Push. rewrite !app_assoc, Hs. reflexivity.
  - rewrite lookup_insert_ne by exact Hne. rewrite app_nil_r. exact Hs.
Qed.

Lemma preserves_forEach {A} (xs : list A) (body : A → M St unit) :
  (∀ x, preserves Inv (body x)) → preserves Inv (forEach xs body).
Proof.
  intros Hb. induction xs as [|x xs IH]; simpl.
  - apply preserves_mret.
  - apply preserves_bind; [apply Hb | intros _; exact IH].
Qed.

Lemma preserves_Schedule (from to : N) (maxMessages : Z) :
  preserves Inv (Schedule from to maxMessages).
Proof.
  unfold Schedule, for_range. apply preserves_for_loop. intros _ messages.
  apply preserves_bind; [apply preserves_popQueue|].
  intros [message|]; apply preserves_mret.
Qed.

Lemma preserves_deliver (from to : N) (maxMessages : Z) :
  preserves Inv (deliver env_Step MessageType_String from to maxMessages).
Proof.
  unfold deliver. apply preserves_bind; [apply preserves_getCrashed|].
  intros c. destruct (c !! to); [apply preserves_mret|].
  apply preserves_bind; [apply preserves_Schedule|]. intros messages.
  apply preserves_forEach. intros m.
  apply preserves_bind; [apply preserves_appendEvent|].
  intros _. apply preserves_Step.
Qed.

Lemma preserves_crashBlock (j : Z) :
  preserves Inv (crashBlock CanCrash env_Stop j).
Proof.
  unfold crashBlock. apply preserves_bind; [apply preserves_withCtx|].
  intros [toCrash|]; [|apply preserves_mret].
  apply preserves_bind; [apply preserves_Stop|]. intros _.
  apply preserves_bind; [apply preserves_getCrashed|]. intros c.
  apply preserves_setCrashed.
Qed.

Lemma preserves_startBlock (j : Z) :
  preserves Inv (startBlock CanStart env_Start j).
Proof.
  unfold startBlock. apply preserves_bind; [apply preserves_withCtx|].
  intros [toStart|]; [|apply preserves_mret].
  apply preserves_bind; [apply preserves_getCrashed|]. intros c.
  destruct (c !! toStart) as [[|]|]; try apply preserves_mret.
  apply preserves_bind; [apply preserves_Start|]. intros _.
  apply preserves_setCrashed.
Qed.

Lemma preserves_clientBlock (j : Z) :
  preserves Inv (clientBlock IsClientRequest env_Step MsgProp j).
Proof.
  unfold clientBlock. apply preserves_bind; [apply preserves_withCtx|].
  intros [reqNum|]; [apply preserves_Step | apply preserves_mret].
Qed.

Lemma preserves_tickBlock : preserves Inv (tickBlock env_Tick sendEvent).
Proof.
  unfold tickBlock. apply preserves_bind; [apply preserves_Tick|].
  intros ms. apply preserves_forEach. intros n.
  apply preserves_bind; [apply preserves_appendEvent|].
  intros _. apply preserves_pushQueue.
Qed.

Lemma preserves_runStep (j : Z) :
  preserves Inv
    (runStep CanCrash CanStart GetNextNodeChoice IsClientRequest
       env_Stop env_Start env_Step env_Tick MsgProp MessageType_String
       sendEvent j).
Proof.
  unfold runStep.
  apply preserves_bind; [apply preserves_crashBlock|]. intros _.
  apply preserves_bind; [apply preserves_startBlock|]. intros _.
  apply preserves_bind; [apply preserves_withCtx|]. intros [[from to] k].
  apply preserves_bind; [apply preserves_deliver|]. intros _.
  apply preserves_bind; [apply preserves_clientBlock|]. intros _.
  apply preserves_tickBlock.
Qed.

Lemma preserves_runSteps (steps : Z) :
  preserves Inv
    (runSteps CanCrash CanStart GetNextNodeChoice IsClientRequest
       env_Stop env_Start env_Step env_Tick MsgProp MessageType_String
       sendEvent steps).
Proof.
  unfold runSteps, for_range. apply preserves_for_loop.
  intros j _. apply preserves_runStep.
Qed.
End Discipline.

(** *** What one delivery does *)

(** The loop of [Schedule] with [count] turns left pops the first
    [count] messages of the queue, in queue order. *)
Lemma Schedule_loop (key : string) (count : nat) :
  ∀ (i : Z) (messages q : list Message.t) (s : St),
    messageQueues s !! key = Some q →
    for_loop count i
      (λ _ messages,
         r ← popQueue key ;
         match r with
         | Some message => mret (messages ++ [message])
         | None => mret messages
         end)
      messages s
    = (Ok (messages ++ take count q),
       mkIterState (tCtx s) (eventTrace s) (crashed s)
         (<[key := drop count q]> (messageQueues s)) (raftEnvironment s)
         (effects s ++ (EPop key <$> take count q))).
Proof.
  induction count as [|count IH]; intros i messages q s Hq.
  - simpl. unfold mret, M_ret. rewrite drop_0, !app_nil_r.
    rewrite insert_id by exact Hq. destruct s; reflexivity.
  - simpl. unfold mbind at 1, M_bind at 1. unfold mbind at 1, M_bind at 1.
    unfold popQueue at 1. rewrite Hq. destruct q as [|m q']; simpl.
    + unfold mret at 1, M_ret at 1. rewrite (IH _ _ [] s Hq).
      rewrite take_nil, drop_nil. reflexivity.
    + unfold mret at 1, M_ret at 1.
      rewrite (IH _ _ q'); [|simpl; apply lookup_insert_eq].
      simpl. rewrite insert_insert_eq, <- !app_assoc. reflexivity.
Qed.

Lemma Schedule_spec (from to : N) (maxMessages : Z) (q : list Message.t) (s : St) :
  messageQueues s !! queueKey from to = Some q →
  Schedule from to maxMessages s
  = (Ok (take (Z.to_nat maxMessages) q),
     mkIterState (tCtx s) (eventTrace s) (crashed s)
       (<[queueKey from to := drop (Z.to_nat maxMessages) q]> (messageQueues s))
       (raftEnvironment s)
       (effects s ++ (EPop (queueKey from to) <$> take (Z.to_nat maxMessages) q))).
Proof.
  intros Hq. unfold Schedule, for_range.
  rewrite (Schedule_loop _ _ _ _ q s Hq). reflexivity.
Qed.

(** Without a queue under the key, [Schedule] dereferences a nil pointer
    as soon as it has a pop to make. *)
Lemma Schedule_no_queue (from to : N) (maxMessages : Z) (s : St) :
  messageQueues s !! queueKey from to = None →
  Schedule from to maxMessages s
  = if decide (0 < maxMessages) then (Panic "nil pointer dereference", s)
    else (Ok [], s).
Proof.
  intros Hq. unfold Schedule, for_range. case_decide as Hk.
  - destruct (Z.to_nat maxMessages) as [|count] eqn:Hc; [lia|].
    simpl. unfold mbind at 1, M_bind at 1. unfold mbind at 1, M_bind at 1.
    unfold popQueue. rewrite Hq. reflexivity.
  - replace (Z.to_nat maxMessages) with 0%nat by lia. reflexivity.
Qed.

(** The messages popped are recorded and stepped one after the other. *)
Lemma forEach_receive (ms : list Message.t) :
  ∀ s : St,
    forEach ms (λ m, recordReceive MessageType_String m ;; Step env_Step m) s
    = (Ok tt,
       mkIterState (tCtx s)
         (eventTrace s ++ (receiveEvent MessageType_String <$> ms))
         (crashed s) (messageQueues s)
         (foldl env_Step (raftEnvironment s) ms)
         (effects s ++ (EStep <$> ms))).
Proof.
  induction ms as [|m ms IH]; intros s.
  - simpl. unfold mret, M_ret. rewrite !app_nil_r. destruct s; reflexivity.
  - simpl. unfold mbind at 1, M_bind at 1. unfold mbind at 1, M_bind at 1.
    unfold recordReceive at 1, appendEvent at 1, Step at 1.
    rewrite IH. simpl. rewrite <- !app_assoc. reflexivity.
Qed.

End RunIterationFacts.

(** *** The main loop and the step loop on the test doubles *)

Lemma seed_fills_corpus_witness :
  ∃ (f' : Fuzzer TLCStateGuider) (w' : World nat),
    seed id Double.runIteration Double.fuzzer Double.world0 = (Ok f', w')
    ∧ Queue.Size (mutatedTracesQueue f') = 10
    ∧ length (calls w') = 10%nat.
Proof.
  destruct (seed_fills_corpus
              id Double.runIteration Double.fuzzer Double.world0)
    as (f' & w' & Hs & _ & Hsize & Hcalls & _); [simpl; lia|].
  exists f', w'. split; [exact Hs|]. split; [exact Hsize|].
  rewrite Hcalls. reflexivity.
Defined.

Lemma mutation_budget_witness :
  ∃ (f' : Fuzzer TLCStateGuider) (w' : World nat) (trace : Trace) (eventTrace : loc),
    iteration (guiderI := TLCStateGuider_Guider Double.marshal Double.reply)
      id Double.mutate Double.runIteration None 0 Scenario.fuzzerReady Double.world0
    = (Ok f', w')
    ∧ drop 4 (calls w') = replicate 2 (CallMutate trace eventTrace)
    ∧ Queue.Size (mutatedTracesQueue f') = 2.
Proof.
  epose proof (mutation_budget
               (guiderI := TLCStateGuider_Guider Double.marshal Double.reply)
               id Double.mutate Double.runIteration None 0 2
               Scenario.fuzzerReady Scenario.fuzzerReady _ _ _ _ _ _ _ _ _
               Double.world0 Double.world0) as H.
  edestruct H as (Hit & _);
    [ simpl; lia
    | reflexivity
    | reflexivity
    | reflexivity
    | reflexivity
    | reflexivity
    | reflexivity
    | reflexivity
    | ].
  eexists _, _, _, _. split; [exact Hit|]. split; reflexivity.
Defined.

(** Outside the 64-bit range the product wraps: two new states with a
    budget of 2^62 each give [numMutations = -2^63], and the loop does not
    run. *)
Example mutations_product_wraps :
  GoInt.mul 2 (MutPerTrace (config Double.fuzzerHugeBudget)) = - 2 ^ 63
  ∧ mutations id Double.mutate [] 1%positive 2 Double.fuzzerHugeBudget Double.world0
    = (Ok Double.fuzzerHugeBudget, Double.world0).
Proof. split; reflexivity. Qed.

Lemma reseed_needs_positive_frequency_witness :
  (Run (guiderI := TLCStateGuider_Guider Double.marshal Double.reply)
     id Double.mutate Double.runIteration None Scenario.fuzzerReady Double.world0).1
  ≠ Panic "integer divide by zero"
  ∧ Run (guiderI := TLCStateGuider_Guider Double.marshal Double.reply)
      id Double.mutate Double.runIteration None Double.fuzzerNoFrequency Double.world0
    = (Panic "integer divide by zero", Double.world0).
Proof.
  split.
  - destruct (reseed_needs_positive_frequency
                (guiderI := TLCStateGuider_Guider Double.marshal Double.reply)
                id Double.mutate Double.runIteration None
                Scenario.fuzzerReady Double.world0) as [Hpos _].
    destruct Hpos as [_ Hrun]; [simpl; lia|].
    apply Hrun. intros g trace eventTrace.
    apply TLCStateGuider_Check_never_divides_by_zero.
  - destruct (reseed_needs_positive_frequency
                (guiderI := TLCStateGuider_Guider Double.marshal Double.reply)
                id Double.mutate Double.runIteration None
                Double.fuzzerNoFrequency Double.world0) as (_ & Hzero & _).
    destruct Hzero as [_ Hrun]; [reflexivity|].
    apply Hrun. simpl. lia.
Defined.

(** ** main.go *)

(** C8 (amended): the process exits with status 0 on normal completion,
    and also when [rootCommand.Execute] returns a non-nil error: [main]
    prints the error and returns. Only a panic that escapes the command
    ends the process with a non-zero status. *)
Theorem main_exit_status (r : option string) (why : string) :
  exit_status (main (Ok r)).2 = 0
  ∧ (main (Ok r)).1 = match r with Some err => [err] | None => [] end
  ∧ exit_status (main (Panic why)).2 ≠ 0.
Proof. destruct r; repeat split; discriminate. Qed.

(** C8, as stated, fails: [Execute] returns an error (an unknown command,
    say) and the exit status is 0. *)
Lemma main_exit_status_counterexample :
  ¬ (∀ err : string, exit_status (main (Ok (Some err))).2 ≠ 0).
Proof. intros H. exact (H "unknown command" eq_refl). Qed.

(** * Further properties of the code *)

(** ** The TLC client: replies whose arrays differ in length, repeated calls *)

Section TLCClientEdges.
Context {X : Type}.
Context (json_Marshal : list Event.t → string).
Context (tlc_reply : X → HttpPost → TLCResponse * X).

Local Abbreviation request c evs :=
  (mkHttpPost ("http://" +:+ ClientAddr c +:+ "/execute") "application/json"
     (json_Marshal (evs ++ [ResetEvent]))).

(** [SendTrace] on a reply with at least as many keys as states. *)
Lemma SendTrace_le (c : TLCClient) (trace : loc) (evs : list Event.t)
    (w : World X) (resp : TLCResponse) (x' : X) :
  heap w !! trace = Some evs →
  tlc_reply (ext w) (request c evs) = (resp, x') →
  (length (States resp) ≤ length (Keys resp))%nat →
  SendTrace json_Marshal tlc_reply c trace w
  = (Ok (zip_with mkState (States resp) (Keys resp)),
     mkWorld (<[trace := evs ++ [ResetEvent]]> (heap w))
       (calls w ++ [CallHttpPost (request c evs)]) x').
Proof.
  intros Hh Hr Hlen.
  rewrite (SendTrace_unfold _ _ c trace evs w resp x' Hh Hr).
  rewrite convertStates_zip.
  - reflexivity.
  - rewrite drop_0. exact Hlen.
  - rewrite length_replicate. lia.
Qed.

Lemma zip_with_take_r {A B C} (f : A → B → C) (l : list A) :
  ∀ k : list B, zip_with f l (take (length l) k) = zip_with f l k.
Proof.
  induction l as [|a l IH]; intros [|b k]; simpl; try reflexivity.
  by rewrite IH.
Qed.

(** X1: when the reply holds more keys than states, [SendTrace] returns
    one [State] per state, paired with the keys of the same index, and the
    surplus keys play no part. *)
Theorem SendTrace_ignores_surplus_keys (c : TLCClient) (trace : loc)
    (evs : list Event.t) (w : World X) (resp : TLCResponse) (x' : X) :
  heap w !! trace = Some evs →
  tlc_reply (ext w) (request c evs) = (resp, x') →
  (length (States resp) ≤ length (Keys resp))%nat →
  ∃ (result : list State) (w' : World X),
    SendTrace json_Marshal tlc_reply c trace w = (Ok result, w')
    ∧ length result = length (States resp)
    ∧ result = zip_with mkState (States resp)
                 (take (length (States resp)) (Keys resp))
    ∧ Repr <$> result = States resp
    ∧ Key <$> result = take (length (States resp)) (Keys resp).
Proof.
  intros Hh Hr Hlen. eexists _, _.
  split; [exact (SendTrace_le c trace evs w resp x' Hh Hr Hlen)|].
  split; [rewrite length_zip_with; lia|].
  split; [by rewrite zip_with_take_r|].
  revert Hlen. generalize (Keys resp) as ks.
  induction (States resp) as [|s ss IH]; intros [|k ks] Hlen; simpl in *;
    try done; try lia.
  destruct (IH ks ltac:(lia)) as [H1 H2]. split; f_equal; assumption.
Qed.

(** X2: when the reply holds fewer keys than states, [SendTrace] panics
    on the first index without a key; by then the [Reset] event has been
    appended to the caller's list and the request has been sent. *)
Theorem SendTrace_short_keys_panics (c : TLCClient) (trace : loc)
    (evs : list Event.t) (w : World X) (resp : TLCResponse) (x' : X) :
  heap w !! trace = Some evs →
  tlc_reply (ext w) (request c evs) = (resp, x') →
  (length (Keys resp) < length (States resp))%nat →
  SendTrace json_Marshal tlc_reply c trace w
  = (Panic "index out of range",
     mkWorld (<[trace := evs ++ [ResetEvent]]> (heap w))
       (calls w ++ [CallHttpPost (request c evs)]) x').
Proof.
  intros Hh Hr Hlen.
  rewrite (SendTrace_unfold _ _ c trace evs w resp x' Hh Hr).
  apply convertStates_short. by rewrite drop_0.
Qed.

(** X3: submitting the same list twice accumulates sentinels. After two
    calls of [SendTrace] on one pointer the list ends with two [Reset]
    events, and the second request carries the first call's [Reset] in
    its body. *)
Theorem SendTrace_twice_accumulates (c : TLCClient) (trace : loc)
    (evs : list Event.t) (w : World X) (resp : TLCResponse) (x' : X) :
  heap w !! trace = Some evs →
  tlc_reply (ext w) (request c evs) = (resp, x') →
  (length (States resp) ≤ length (Keys resp))%nat →
  let w2 := ((SendTrace json_Marshal tlc_reply c trace ;;
              SendTrace json_Marshal tlc_reply c trace) w).2 in
  heap w2 !! trace = Some (evs ++ [ResetEvent; ResetEvent])
  ∧ calls w2
    = calls w ++ [CallHttpPost (request c evs);
                  CallHttpPost (request c (evs ++ [ResetEvent]))].
Proof.
  intros Hh Hr Hlen w2. subst w2. unfold mbind, M_bind.
  rewrite (SendTrace_le c trace evs w resp x' Hh Hr Hlen).
  rewrite (SendTrace_world _ _ c trace (evs ++ [ResetEvent]));
    [|simpl; apply lookup_insert_eq].
  simpl. split.
  - rewrite lookup_insert_eq, <- app_assoc. done.
  - rewrite <- app_assoc. done.
Qed.
End TLCClientEdges.

(** ** The guiders: what is counted, and the range of the ratio *)

Lemma countNewStates_count_le (tlcStates : list State) :
  ∀ (m : gmap string bool) (n : Z),
    n ≤ (countNewStates tlcStates m n).2 ≤ n + Z.of_nat (length tlcStates).
Proof.
  induction tlcStates as [|s rest IH]; intros m n; simpl; [lia|].
  destruct (m !! Key s).
  - specialize (IH m n). lia.
  - specialize (IH (<[Key s := true]> m) (n + 1)). lia.
Qed.

(** Keys that are all seen leave the map and the counter as they are. *)
Lemma countNewStates_all_seen (tlcStates : list State) :
  ∀ (m : gmap string bool) (n : Z),
    (∀ s, s ∈ tlcStates → is_Some (m !! Key s)) →
    countNewStates tlcStates m n = (m, n).
Proof.
  induction tlcStates as [|s rest IH]; intros m n Hseen; simpl; [reflexivity|].
  destruct (Hseen s) as [b ->]; [by left|].
  apply IH. intros s' Hs'. apply Hseen. by right.
Qed.

Lemma zip_with_mkState_keys (states : list string) :
  ∀ keys : list string,
    length states = length keys →
    Key <$> zip_with mkState states keys = keys.
Proof.
  induction states as [|s ss IH]; intros [|k ks] Hlen; simpl in *; try done.
  f_equal. apply IH. lia.
Qed.

(** A count divided by a total that is at least the count and at least 1
    lies between 0 and 1. *)
Lemma ratio_in_unit_interval (k d : Z) :
  0 ≤ k ≤ d → 1 ≤ d →
  (0 <= float64 k / float64 d)%Q ∧ (float64 k / float64 d <= 1)%Q.
Proof.
  intros [Hk Hkd] Hd. unfold float64.
  assert (Hpos : (0 < inject_Z d)%Q).
  { change 0%Q with (inject_Z 0). rewrite <- Zlt_Qlt. lia. }
  split.
  - apply Qle_shift_div_l; [exact Hpos|]. rewrite Qmult_0_l.
    change 0%Q with (inject_Z 0). rewrite <- Zle_Qle. lia.
  - apply Qle_shift_div_r; [exact Hpos|]. rewrite Qmult_1_l.
    rewrite <- Zle_Qle. lia.
Qed.

Section GuiderMore.
Context {X : Type}.
Context (json_Marshal : list Event.t → string).
Context (tlc_reply : X → HttpPost → TLCResponse * X).
Context (eventTrace_Hash : list Event.t → string).

Local Abbreviation request c evs :=
  (mkHttpPost ("http://" +:+ ClientAddr c +:+ "/execute") "application/json"
     (json_Marshal (evs ++ [ResetEvent]))).

(** X4: the [numNew] of [TLCStateGuider.Check] is the number of distinct
    keys of the reply that were not in the seen-set: a key that occurs
    several times in one reply is counted once, and [numNew] never exceeds
    the length of the reply. *)
Theorem TLCStateGuider_counts_distinct_unseen (t : TLCStateGuider)
    (trace : Trace) (eventTrace : loc) (evs : list Event.t) (w : World X)
    (resp : TLCResponse) (x' : X) :
  heap w !! eventTrace = Some evs →
  tlc_reply (ext w) (request (tlcClient t) evs) = (resp, x') →
  length (States resp) = length (Keys resp) →
  ∃ (t' : TLCStateGuider) (numNew : Z) (ratio : Q) (w' : World X),
    TLCStateGuider_Check json_Marshal tlc_reply t trace eventTrace w
    = (Ok (t', (numNew, ratio)), w')
    ∧ numNew
      = Z.of_nat (size ((list_to_set (Keys resp) : gset string)
                          ∖ dom (statesMap t)))
    ∧ 0 ≤ numNew ≤ Z.of_nat (length (Keys resp)).
Proof.
  intros Hh Hr Hlen.
  pose proof (TLCStateGuider_Check_ok json_Marshal tlc_reply t trace eventTrace evs w resp x' Hh Hr Hlen)
    as Hc. simpl in Hc.
  set (l := zip_with mkState (States resp) (Keys resp)) in *.
  destruct (countNewStates_spec l (statesMap t) 0) as (_ & Hn & Hdom).
  pose proof (countNewStates_count_le l (statesMap t) 0) as Hle.
  eexists _, _, _, _. split; [exact Hc|]. simpl. split.
  - rewrite Hn. rewrite <- (size_dom (countNewStates l (statesMap t) 0).1), Hdom.
    subst l. rewrite zip_with_mkState_keys by exact Hlen.
    rewrite size_union_alt, size_dom. lia.
  - subst l. rewrite length_zip_with in Hle. lia.
Qed.

(** X5: a reply whose keys have all been seen changes nothing: [Check]
    returns [numNew = 0] and a ratio of 0, and the guider is as before. In
    particular a reply with no states does so. *)
Theorem TLCStateGuider_nothing_new (t : TLCStateGuider)
    (trace : Trace) (eventTrace : loc) (evs : list Event.t) (w : World X)
    (resp : TLCResponse) (x' : X) :
  heap w !! eventTrace = Some evs →
  tlc_reply (ext w) (request (tlcClient t) evs) = (resp, x') →
  length (States resp) = length (Keys resp) →
  (∀ k, k ∈ Keys resp → is_Some (statesMap t !! k)) →
  ∃ (ratio : Q) (w' : World X),
    TLCStateGuider_Check json_Marshal tlc_reply t trace eventTrace w
    = (Ok (t, (0, ratio)), w')
    ∧ (ratio == 0)%Q.
Proof.
  intros Hh Hr Hlen Hseen.
  pose proof (TLCStateGuider_Check_ok json_Marshal tlc_reply t trace eventTrace evs w resp x' Hh Hr Hlen)
    as Hc. simpl in Hc.
  rewrite countNewStates_all_seen in Hc.
  - simpl in Hc. eexists _, _. split.
    + rewrite Hc. destruct t; reflexivity.
    + unfold float64. simpl. reflexivity.
  - intros s Hs. apply Hseen.
    rewrite <- (zip_with_mkState_keys (States resp) (Keys resp) Hlen).
    apply list_elem_of_fmap. eauto.
Qed.

(** The full result of [TraceCoverageGuider.Check] on a reply that
    [SendTrace] converts. *)
Lemma TraceCoverageGuider_Check_eq (t : TraceCoverageGuider) (trace : Trace)
    (events : loc) (evs : list Event.t) (w : World X)
    (resp : TLCResponse) (x' : X) :
  heap w !! events = Some evs →
  tlc_reply (ext w) (request (tlcClient (embedded t)) evs) = (resp, x') →
  length (States resp) = length (Keys resp) →
  let r := countNewStates (zip_with mkState (States resp) (Keys resp))
             (statesMap (embedded t)) 0 in
  let key := eventTrace_Hash (evs ++ [ResetEvent]) in
  let new := if traces t !! key is Some _ then 0 else 1 in
  let traces' := if traces t !! key is Some _ then traces t
                 else <[key := true]> (traces t) in
  TraceCoverageGuider_Check json_Marshal tlc_reply eventTrace_Hash
    t trace events w
  = (Ok ({| embedded := {| tlcClient := tlcClient (embedded t); statesMap := r.1 |};
            traces := traces' |},
         (new, (float64 new / float64 (Z.of_nat (size traces')))%Q)),
     mkWorld (<[events := evs ++ [ResetEvent]]> (heap w))
       (calls w ++ [CallHttpPost (request (tlcClient (embedded t)) evs)]) x').
Proof.
  intros Hh Hr Hlen r key new traces'.
  unfold TraceCoverageGuider_Check, mbind, M_bind.
  rewrite (TLCStateGuider_Check_ok json_Marshal tlc_reply (embedded t) trace events evs w resp x' Hh Hr Hlen).
  unfold List_Elems. simpl. rewrite lookup_insert_eq.
  subst new traces' key. destruct (traces t !! _); reflexivity.
Qed.

(** X6: [TraceCoverageGuider.Check] hashes the event list as the embedded
    [Check] has left it, that is with the [Reset] event appended. It
    returns 1 exactly when that hash is not yet in [traces], and records
    the hash; the embedded TLC-state guider and the world end up exactly
    as after a [TLCStateGuider.Check], with a single request sent. *)
Theorem TraceCoverageGuider_hashes_with_Reset (tc : TraceCoverageGuider)
    (trace : Trace) (eventTrace : loc) (evs : list Event.t) (w : World X)
    (resp : TLCResponse) (x' : X) :
  heap w !! eventTrace = Some evs →
  tlc_reply (ext w) (request (tlcClient (embedded tc)) evs) = (resp, x') →
  length (States resp) = length (Keys resp) →
  let h := eventTrace_Hash (evs ++ [ResetEvent]) in
  ∃ (tc' : TraceCoverageGuider) (numNew : Z) (ratio : Q) (w' : World X)
    (numNewStates : Z) (stateRatio : Q),
    TraceCoverageGuider_Check json_Marshal tlc_reply eventTrace_Hash
      tc trace eventTrace w
    = (Ok (tc', (numNew, ratio)), w')
    ∧ TLCStateGuider_Check json_Marshal tlc_reply (embedded tc) trace eventTrace w
      = (Ok (embedded tc', (numNewStates, stateRatio)), w')
    ∧ (numNew = 1 ↔ traces tc !! h = None)
    ∧ (numNew = 0 ↔ is_Some (traces tc !! h))
    ∧ is_Some (traces tc' !! h)
    ∧ traces tc ⊆ traces tc'
    ∧ dom (traces tc') = dom (traces tc) ∪ {[ h ]}.
Proof.
  intros Hh Hr Hlen h.
  pose proof (TraceCoverageGuider_Check_eq tc trace eventTrace evs w resp x' Hh Hr Hlen)
    as Hc. simpl in Hc.
  pose proof (TLCStateGuider_Check_ok json_Marshal tlc_reply (embedded tc) trace eventTrace evs w
                resp x' Hh Hr Hlen) as Ht. simpl in Ht.
  eexists _, _, _, _, _, _. split; [exact Hc|]. split; [exact Ht|]. simpl.
  fold h. destruct (traces tc !! h) as [b|] eqn:Hk.
  - split; [split; [lia | done]|]. split; [split; [eauto | done]|].
    split; [rewrite Hk; eauto|]. split; [done|].
    assert (h ∈ dom (traces tc)) by (apply elem_of_dom; eauto). set_solver.
  - split; [done|]. split; [split; [lia | by intros [? ?]]|].
    split; [rewrite lookup_insert_eq; eauto|].
    split; [by apply insert_subseteq|].
    rewrite dom_insert_L. set_solver.
Qed.

(** X7: the novelty ratio of either TLC guider lies between 0 and 1. *)
Theorem noveltyRatio_in_unit_interval (t : TLCStateGuider)
    (tc : TraceCoverageGuider) (trace : Trace) (eventTrace : loc)
    (evs : list Event.t) (w : World X) (resp resp' : TLCResponse) (x' x'' : X) :
  heap w !! eventTrace = Some evs →
  tlc_reply (ext w) (request (tlcClient t) evs) = (resp, x') →
  length (States resp) = length (Keys resp) →
  tlc_reply (ext w) (request (tlcClient (embedded tc)) evs) = (resp', x'') →
  length (States resp') = length (Keys resp') →
  (∃ (t' : TLCStateGuider) (numNew : Z) (ratio : Q) (w' : World X),
     TLCStateGuider_Check json_Marshal tlc_reply t trace eventTrace w
     = (Ok (t', (numNew, ratio)), w')
     ∧ (0 <= ratio)%Q ∧ (ratio <= 1)%Q)
  ∧ (∃ (tc' : TraceCoverageGuider) (numNew : Z) (ratio : Q) (w' : World X),
       TraceCoverageGuider_Check json_Marshal tlc_reply eventTrace_Hash
         tc trace eventTrace w
       = (Ok (tc', (numNew, ratio)), w')
       ∧ (0 <= ratio)%Q ∧ (ratio <= 1)%Q).
Proof.
  intros Hh Hr Hlen Hr' Hlen'. split.
  - pose proof (TLCStateGuider_Check_ok json_Marshal tlc_reply t trace eventTrace evs w resp x' Hh Hr Hlen)
      as Hc. simpl in Hc.
    set (l := zip_with mkState (States resp) (Keys resp)) in *.
    destruct (countNewStates_spec l (statesMap t) 0) as (_ & Hn & _).
    pose proof (countNewStates_count_le l (statesMap t) 0) as Hle.
    eexists _, _, _, _. split; [exact Hc|]. simpl.
    apply ratio_in_unit_interval; lia.
  - pose proof (TraceCoverageGuider_Check_eq tc trace eventTrace evs w resp' x''
                  Hh Hr' Hlen') as Hc. simpl in Hc.
    eexists _, _, _, _. split; [exact Hc|]. simpl.
    destruct (traces tc !! eventTrace_Hash (evs ++ [ResetEvent])) as [b|] eqn:Hk.
    + apply ratio_in_unit_interval; [lia|].
      destruct (decide (size (traces tc) = 0%nat)) as [Hz|Hz]; [|lia].
      apply map_size_empty_inv in Hz. rewrite Hz in Hk.
      by rewrite lookup_empty in Hk.
    + rewrite map_size_insert_None by exact Hk.
      apply ratio_in_unit_interval; lia.
Qed.
End GuiderMore.

(** ** The main loop: the corpus as a queue, the counters *)

Lemma successes_length_le (rs : list (Trace * bool)) :
  (length (successes rs) ≤ length rs)%nat.
Proof.
  unfold successes. rewrite length_fmap. apply length_filter.
Qed.

Lemma answers_all_fail {X} (ask : Z → X → (Trace * bool) * X) (count : nat) :
  (∀ i x, (ask i x).1.2 = false) →
  ∀ (i : Z) (x : X), successes (answers ask count i x).1 = [].
Proof.
  intros Hfail. induction count as [|count IH]; intros i x; simpl; [reflexivity|].
  specialize (Hfail i x). destruct (ask i x) as [[t ok] x1]. simpl in Hfail. subst ok.
  specialize (IH (i + 1) x1). destruct (answers ask count (i + 1) x1) as [rest x2].
  simpl in *. rewrite successes_cons. exact IH.
Qed.

(** The two counters of test selection, read as Go reads a missing
    entry after initialisation: their sum. *)
Lemma total_executions_insert_other (m : gmap string Z) (key : string) (v : Z) :
  key ≠ "mutated_executions" → key ≠ "random_executions" →
  default 0 (<[key := v]> m !! "mutated_executions")
  + default 0 (<[key := v]> m !! "random_executions")
  = default 0 (m !! "mutated_executions") + default 0 (m !! "random_executions").
Proof. intros H1 H2. by rewrite !lookup_insert_ne. Qed.

Section FuzzerMore.
Context {X G : Type} {guiderI : Guider X G}.
Context (copyTrace : Trace → Trace).
Context (mutate : X → gmap loc (list Event.t) → Trace → loc → (Trace * bool) * X).
Context (runIteration : X → string → option Trace → (Trace * list Event.t) * X).
Context (checker : option (X → bool)).

(** X8: the mutation block only appends to the corpus. For every count
    [Check] may report and every [MutPerTrace], it returns without panic,
    the schedules already queued stay where they are, what is added is at
    most one schedule per [Mutate] call, the calls are all on the executed
    pair, and for a count of 0 or less nothing happens at all. *)
Theorem mutations_only_append (trace : Trace) (eventTrace : loc) (k : Z)
    (f : Fuzzer G) (w : World X) :
  ∃ (added : list Trace) (w' : World X) (n : nat),
    mutations copyTrace mutate trace eventTrace k f w
    = (Ok (mkFuzzer (config f) (guider f) (mutatedTracesQueue f ++ added) (stats f)),
       w')
    ∧ calls w' = calls w ++ replicate n (CallMutate trace eventTrace)
    ∧ heap w' = heap w
    ∧ (length added ≤ n)%nat
    ∧ n = (if 0 <? k then Z.to_nat (GoInt.mul k (MutPerTrace (config f))) else 0%nat)
    ∧ (k ≤ 0 → added = [] ∧ w' = w).
Proof.
  unfold mutations. destruct (0 <? k) eqn:Hk.
  - unfold for_range. rewrite mutation_loop.
    eexists _, _, _. split; [reflexivity|]. simpl.
    split; [reflexivity|]. split; [reflexivity|]. split.
    + rewrite length_fmap.
      etrans; [apply successes_length_le|]. by rewrite answers_length.
    + split; [reflexivity|]. apply Z.ltb_lt in Hk. lia.
  - exists [], w, 0%nat. simpl. rewrite !app_nil_r.
    split; [destruct f; reflexivity|]. by destruct w.
Qed.

(** X9: with a mutator that never succeeds (the baseline configuration)
    the mutation block leaves the fuzzer, and so the corpus, exactly as it
    was, whatever count [Check] reports. *)
Theorem mutations_all_fail_keep_corpus (trace : Trace) (eventTrace : loc)
    (k : Z) (f : Fuzzer G) (w : World X) :
  (∀ x h t e, (mutate x h t e).1.2 = false) →
  ∃ w' : World X,
    mutations copyTrace mutate trace eventTrace k f w = (Ok f, w')
    ∧ heap w' = heap w.
Proof.
  intros Hfail. unfold mutations. destruct (0 <? k).
  - unfold for_range. rewrite mutation_loop. simpl.
    rewrite answers_all_fail by (intros; apply Hfail).
    simpl. rewrite app_nil_r. eexists.
    split; [destruct f; reflexivity | reflexivity].
  - exists w. done.
Qed.

(** X10: with a seed population size of 0 or less, seeding only empties
    the corpus: no iteration is run. *)
Theorem seed_nonpositive_empties (f : Fuzzer G) (w : World X) :
  SeedPopulationSize (config f) ≤ 0 →
  seed copyTrace runIteration f w
  = (Ok (mkFuzzer (config f) (guider f) [] (stats f)), w).
Proof.
  intros Hn. unfold seed, for_range. simpl.
  replace (Z.to_nat (SeedPopulationSize (config f))) with 0%nat by lia.
  reflexivity.
Qed.

(** X11: the corpus is served oldest first. Right after seeding at least
    one schedule, test selection pops the copy of the trace of the first
    seed iteration (pop_0), leaves the other seeds queued, and counts one
    mutated execution. *)
Theorem seed_then_select_first (f : Fuzzer G) (w : World X) (n0 : Z) :
  1 ≤ SeedPopulationSize (config f) →
  stats f !! "mutated_executions" = Some n0 →
  ∃ (f' : Fuzzer G) (w' : World X),
    (seed copyTrace runIteration f ≫= selectMimic) w
    = (Ok (Some (copyTrace (runIteration (ext w) "pop_0" None).1.1), f'), w')
    ∧ Queue.Size (mutatedTracesQueue f') = SeedPopulationSize (config f) - 1
    ∧ stats f' = <["mutated_executions" := n0 + 1]> (stats f).
Proof.
  intros Hn Hstat. unfold mbind, M_bind, seed, for_range. simpl.
  destruct (seed_loop copyTrace runIteration
              (Z.to_nat (SeedPopulationSize (config f))) 0
              (mkFuzzer (config f) (guider f) (Queue.Reset (mutatedTracesQueue f))
                 (stats f)) w) as (h' & Hloop & _).
  simpl in Hloop. rewrite Hloop. clear Hloop.
  pose proof (answers_length
                (λ (i : Z) (x : X), runIteration x ("pop_" +:+ pretty i) None)
                (Z.to_nat (SeedPopulationSize (config f))) 0 (ext w)) as Hlen.
  destruct (Z.to_nat (SeedPopulationSize (config f))) as [|m] eqn:Hm; [lia|].
  simpl in *.
  change ("pop_" +:+ pretty 0) with "pop_0" in *.
  destruct (runIteration (ext w) "pop_0" None) as [[t0 evs0] x1].
  destruct (answers _ m (0 + 1) x1) as [rest x2]. simpl in *.
  unfold selectMimic. simpl.
  unfold mbind, M_bind, stats_incr. simpl. rewrite Hstat. simpl.
  eexists _, _. split; [reflexivity|]. simpl. split; [|reflexivity].
  unfold Queue.Size. rewrite length_fmap. lia.
Qed.

(** One turn of [Run] counts one execution, mutated or random. *)
Lemma iteration_counts_one (i : Z) (f : Fuzzer G) :
  returns
    (λ f', default 0 (stats f' !! "mutated_executions")
           + default 0 (stats f' !! "random_executions")
           = default 0 (stats f !! "mutated_executions")
             + default 0 (stats f !! "random_executions") + 1)
    (iteration copyTrace mutate runIteration checker i f).
Proof.
  unfold iteration.
  apply (returns_bind (λ _, True)); [done|]. intros due _.
  apply (returns_bind (λ f1, stats f1 = stats f)).
  { destruct due; [|by apply returns_mret].
    intros w f1 w1. unfold seed, for_range.
    destruct (seed_loop copyTrace runIteration
                (Z.to_nat (SeedPopulationSize (config f))) 0
                (mkFuzzer (config f) (guider f) (Queue.Reset (mutatedTracesQueue f))
                   (stats f)) w) as (h' & Hloop & _).
    simpl in *. rewrite Hloop. by intros [= <- _]. }
  intros f1 H1.
  apply (returns_bind
           (λ r, default 0 (stats r.2 !! "mutated_executions")
                 + default 0 (stats r.2 !! "random_executions")
                 = default 0 (stats f1 !! "mutated_executions")
                   + default 0 (stats f1 !! "random_executions") + 1)).
  { intros w r w1. unfold selectMimic.
    destruct (0 <? Queue.Size (mutatedTracesQueue f1));
      unfold mbind, M_bind, stats_incr.
    - destruct (stats f1 !! "mutated_executions") as [n|] eqn:Hn; [|discriminate].
      simpl. destruct (Queue.Pop (mutatedTracesQueue f1)) as [mimic q].
      intros [= <- _]. simpl. rewrite lookup_insert_eq, lookup_insert_ne by done.
      simpl. lia.
    - destruct (stats f1 !! "random_executions") as [n|] eqn:Hn; [|discriminate].
      simpl. intros [= <- _]. simpl.
      rewrite lookup_insert_eq, lookup_insert_ne by done. simpl. lia. }
  intros [mimic f2] H2. simpl in H2.
  apply (returns_bind (λ _, True)); [done|]. intros [trace eventTrace] _.
  apply (returns_bind
           (λ f3, default 0 (stats f3 !! "mutated_executions")
                  + default 0 (stats f3 !! "random_executions")
                  = default 0 (stats f2 !! "mutated_executions")
                    + default 0 (stats f2 !! "random_executions"))).
  { intros w f3 w1. unfold checkBuggy. destruct checker as [chk|].
    - destruct (chk (ext w)); [by intros [= <- _]|].
      unfold stats_incr. destruct (stats f2 !! "buggy_executions"); [|discriminate].
      intros [= <- _]. simpl. by apply total_executions_insert_other.
    - by intros [= <- _]. }
  intros f3 H3.
  apply (returns_bind (λ _, True)); [done|].
  intros [guider' [numNewStates ratio]] _.
  intros w f' w'. unfold mutations. destruct (0 <? numNewStates).
  - unfold for_range. rewrite mutation_loop. intros [= <- _]. simpl.
    rewrite H3, H2, H1. reflexivity.
  - intros [= <- _]. simpl. rewrite H3, H2, H1. reflexivity.
Qed.

Lemma for_loop_counts (count : nat) :
  ∀ (i : Z) (f : Fuzzer G),
    returns
      (λ f', default 0 (stats f' !! "mutated_executions")
             + default 0 (stats f' !! "random_executions")
             = default 0 (stats f !! "mutated_executions")
               + default 0 (stats f !! "random_executions") + Z.of_nat count)
      (for_loop count i (iteration copyTrace mutate runIteration checker) f).
Proof.
  induction count as [|count IH]; intros i f.
  - simpl. apply returns_mret. lia.
  - cbn [for_loop]. eapply returns_bind; [apply iteration_counts_one|].
    intros f1 H1. eapply returns_weaken; [|apply IH].
    intros f' H'. cbv beta in *. lia.
Qed.

(** X12: every iteration is counted once, as mutated or as random: when
    [Run] returns, the sum of the counters [mutated_executions] and
    [random_executions] has grown by the number of iterations. *)
Theorem Run_counts_every_iteration (f f' : Fuzzer G) (w w' : World X) :
  0 ≤ Iterations (config f) →
  Run copyTrace mutate runIteration checker f w = (Ok f', w') →
  default 0 (stats f' !! "mutated_executions")
  + default 0 (stats f' !! "random_executions")
  = default 0 (stats f !! "mutated_executions")
    + default 0 (stats f !! "random_executions") + Iterations (config f).
Proof.
  intros Hit Hrun. unfold Run, for_range in Hrun.
  rewrite (for_loop_counts _ 0 f w f' w' Hrun). lia.
Qed.
End FuzzerMore.

Section RunMore.
Context {X : Type}.
Context (json_Marshal : list Event.t → string).
Context (tlc_reply : X → HttpPost → TLCResponse * X).
Context (copyTrace : Trace → Trace).
Context (mutate : X → gmap loc (list Event.t) → Trace → loc → (Trace * bool) * X).
Context (runIteration : X → string → option Trace → (Trace * list Event.t) * X).
Context (checker : option (X → bool)).

(** X13: over a whole run with the TLC-state guider no seen key is ever
    forgotten: when [Run] returns, every key of the initial seen-set is in
    the final one, with its value, and the set is at least as large. *)
Theorem Run_never_forgets_keys (f f' : Fuzzer TLCStateGuider) (w w' : World X) :
  Run (guiderI := TLCStateGuider_Guider json_Marshal tlc_reply)
    copyTrace mutate runIteration checker f w = (Ok f', w') →
  statesMap (guider f) ⊆ statesMap (guider f')
  ∧ (size (statesMap (guider f)) ≤ size (statesMap (guider f')))%nat.
Proof.
  intros Hrun.
  pose proof (Run_seenGrows json_Marshal tlc_reply copyTrace mutate runIteration
                checker f w f' w' Hrun) as Hsub.
  split; [exact Hsub | by apply map_subseteq_size].
Qed.
End RunMore.

(** ** The step loop: invariants of a run, and how the blocks compose *)

Lemma downAfter_app (es es' : list Effect) :
  ∀ d : gset N, downAfter d (es ++ es') = downAfter (downAfter d es) es'.
Proof.
  induction es as [|e es IH]; intros d; simpl; [reflexivity|].
  destruct e; apply IH.
Qed.

Lemma startsOnlyDown_app (es es' : list Effect) :
  ∀ d : gset N,
    startsOnlyDown d (es ++ es')
    ↔ startsOnlyDown d es ∧ startsOnlyDown (downAfter d es) es'.
Proof.
  induction es as [|e es IH]; intros d; simpl; [tauto|].
  destruct e; rewrite ?IH; tauto.
Qed.

Section StepLoopMore.
Context {T E : Type}.
Context (CanCrash : T → Z → option N * T).
Context (CanStart : T → Z → option N * T).
Context (GetNextNodeChoice : T → (N * N * Z) * T).
Context (IsClientRequest : T → Z → option Z * T).
Context (env_Stop : E → N → E).
Context (env_Start : E → N → E).
Context (env_Step : E → Message.t → E).
Context (env_Tick : E → list Message.t * E).
Context (MsgProp : MessageType).
Context (MessageType_String : MessageType → string).
Context (sendEvent : Message.t → Event.t).

Local Abbreviation St := (IterState T E).
Local Abbreviation theSteps :=
  (runSteps CanCrash CanStart GetNextNodeChoice IsClientRequest
     env_Stop env_Start env_Step env_Tick MsgProp MessageType_String sendEvent).

(** *** Carrying an invariant through the loop *)

Section Invariant.
Context (I : St → Prop).
Hypothesis I_withCtx : ∀ A (o : T → A * T), preserves I (withCtx o).
Hypothesis I_appendEvent : ∀ e, preserves I (appendEvent e).
Hypothesis I_Step : ∀ m, preserves I (Step env_Step m).
Hypothesis I_Tick : preserves I (Tick env_Tick).
Hypothesis I_popQueue : ∀ key, preserves I (popQueue key).
Hypothesis I_pushQueue : ∀ n, preserves I (pushQueue (messageKey n) n).
Hypothesis I_crashBlock : ∀ j, preserves I (crashBlock CanCrash env_Stop j).
Hypothesis I_startBlock : ∀ j, preserves I (startBlock CanStart env_Start j).

Lemma inv_forEach {A} (xs : list A) (body : A → M St unit) :
  (∀ x, preserves I (body x)) → preserves I (forEach xs body).
Proof.
  intros Hb. induction xs as [|x xs IH]; simpl.
  - apply preserves_mret.
  - apply preserves_bind; [apply Hb | intros _; exact IH].
Qed.

Lemma inv_deliver (from to : N) (k : Z) :
  preserves I (deliver env_Step MessageType_String from to k).
Proof.
  unfold deliver. apply preserves_bind; [intros s Hs; exact Hs|].
  intros c. destruct (c !! to); [apply preserves_mret|].
  apply preserves_bind.
  { unfold Schedule, for_range. apply preserves_for_loop. intros _ messages.
    apply preserves_bind; [apply I_popQueue|].
    intros [message|]; apply preserves_mret. }
  intros messages. apply inv_forEach. intros m.
  apply preserves_bind; [apply I_appendEvent | intros _; apply I_Step].
Qed.

Lemma inv_runStep (j : Z) :
  preserves I
    (runStep CanCrash CanStart GetNextNodeChoice IsClientRequest
       env_Stop env_Start env_Step env_Tick MsgProp MessageType_String
       sendEvent j).
Proof.
  unfold runStep.
  apply preserves_bind; [apply I_crashBlock|]. intros _.
  apply preserves_bind; [apply I_startBlock|]. intros _.
  apply preserves_bind; [apply I_withCtx|]. intros [[from to] k].
  apply preserves_bind; [apply inv_deliver|]. intros _.
  apply preserves_bind.
  { unfold clientBlock. apply preserves_bind; [apply I_withCtx|].
    intros [reqNum|]; [apply I_Step | apply preserves_mret]. }
  intros _. unfold tickBlock. apply preserves_bind; [apply I_Tick|].
  intros ms. apply inv_forEach. intros n.
  apply preserves_bind; [apply I_appendEvent | intros _; apply I_pushQueue].
Qed.

Lemma inv_runSteps (steps : Z) : preserves I (theSteps steps).
Proof.
  unfold runSteps, for_range. apply preserves_for_loop.
  intros j _. apply inv_runStep.
Qed.
End Invariant.

(** The crash and start blocks keep whatever [Stop], [Start] and a
    change of the [crashed] map keep. *)
Lemma inv_crash_start_blocks (I : St → Prop) :
  (∀ A (o : T → A * T), preserves I (withCtx o)) →
  (∀ n, preserves I (Stop env_Stop n)) →
  (∀ n, preserves I (Start env_Start n)) →
  (∀ c, preserves I (setCrashed c)) →
  (∀ j, preserves I (crashBlock CanCrash env_Stop j))
  ∧ (∀ j, preserves I (startBlock CanStart env_Start j)).
Proof.
  intros Hctx Hstop Hstart Hset. split; intros j.
  - unfold crashBlock. apply preserves_bind; [apply Hctx|].
    intros [n|]; [|apply preserves_mret].
    apply preserves_bind; [apply Hstop|]. intros _.
    apply preserves_bind; [intros s Hs; exact Hs|]. intros c. apply Hset.
  - unfold startBlock. apply preserves_bind; [apply Hctx|].
    intros [n|]; [|apply preserves_mret].
    apply preserves_bind; [intros s Hs; exact Hs|]. intros c.
    destruct (c !! n) as [[|]|]; try apply preserves_mret.
    apply preserves_bind; [apply Hstart | intros _; apply Hset].
Qed.

(** A primitive operation, case by case. *)
Local Ltac primitive :=
  intros s' Hs';
  unfold withCtx, appendEvent, Step, Tick, popQueue, pushQueue, Stop, Start,
    setCrashed, Queue.Pop, Queue.Push;
  repeat case_match; simplify_eq; cbn [snd tCtx eventTrace crashed messageQueues
    raftEnvironment effects]; try exact Hs'.

(** An invariant that the operations on context, environment and
    [crashed] map keep is an invariant of the loop once pops and pushes
    keep it. *)
Local Ltac by_invariant I Hevent Hpop Hpush :=
  let Hb := fresh "Hb" in
  pose proof (inv_crash_start_blocks I) as Hb;
  destruct Hb as [? ?];
  [ intros; primitive | intros; primitive | intros; primitive | intros; primitive | ];
  apply (inv_runSteps I);
  [ intros; primitive | exact Hevent | intros; primitive | primitive
  | exact Hpop | exact Hpush | assumption | assumption | ].

(** X14: the event trace is append-only. Whatever the oracles and the
    environment do, and whether or not the run panics, the events recorded
    before a run of the step loop are a prefix of those recorded after
    it. *)
Theorem eventTrace_append_only (steps : Z) (s : St) :
  eventTrace s
  `prefix_of`
  eventTrace
    (runSteps CanCrash CanStart GetNextNodeChoice IsClientRequest
        env_Stop env_Start env_Step env_Tick MsgProp MessageType_String
        sendEvent steps s).2.
Proof.
  set (I := λ s' : St, eventTrace s `prefix_of` eventTrace s').
  assert (Hevent : ∀ e, preserves I (appendEvent e)).
  { intros e. primitive. subst I. simpl in *. by apply prefix_app_r. }
  assert (Hpop : ∀ key, preserves I (popQueue key)) by (intros; primitive).
  assert (Hpush : ∀ n, preserves I (pushQueue (messageKey n) n)) by (intros; primitive).
  by_invariant I Hevent Hpop Hpush. subst I. cbv beta. reflexivity.
Qed.

(** X15: the step loop never creates or removes a queue: the set of
    queue keys after a run is the set before it. (A message for a channel
    without a queue is a nil dereference, not an allocation.) *)
Theorem queues_are_fixed (steps : Z) (s : St) :
  dom (messageQueues
         (runSteps CanCrash CanStart GetNextNodeChoice IsClientRequest
        env_Stop env_Start env_Step env_Tick MsgProp MessageType_String
        sendEvent steps s).2)
  = dom (messageQueues s).
Proof.
  set (I := λ s' : St, dom (messageQueues s') = dom (messageQueues s)).
  assert (Hevent : ∀ e, preserves I (appendEvent e)) by (intros; primitive).
  assert (Hpop : ∀ key, preserves I (popQueue key)).
  { intros key. primitive. subst I. simpl in *. rewrite dom_insert_lookup_L; eauto. }
  assert (Hpush : ∀ n, preserves I (pushQueue (messageKey n) n)).
  { intros n. primitive. subst I. simpl in *. rewrite dom_insert_lookup_L; eauto. }
  by_invariant I Hevent Hpop Hpush. subst I. cbv beta. reflexivity.
Qed.

(** X16: queues only ever hold messages of their own channel. If every
    queue holds only messages whose [From] and [To] give its key when the
    loop starts (as when the queues start empty), that is so after any
    number of steps. *)
Theorem queues_stay_wellKeyed (steps : Z) (s : St) :
  wellKeyed (messageQueues s) →
  wellKeyed (messageQueues (theSteps steps s).2).
Proof.
  set (I := λ s' : St, wellKeyed (messageQueues s')).
  assert (Hevent : ∀ e, preserves I (appendEvent e)) by (intros; primitive).
  assert (Hpop : ∀ key, preserves I (popQueue key)).
  { intros key. primitive. subst I. simpl in *. intros key' q' m' Hq' Hm'.
    destruct (decide (key = key')) as [<-|Hne].
    - rewrite lookup_insert_eq in Hq'. simplify_eq.
      eapply Hs'; [eassumption|]. by right.
    - rewrite lookup_insert_ne in Hq' by done. eapply Hs'; eassumption. }
  assert (Hpush : ∀ n, preserves I (pushQueue (messageKey n) n)).
  { intros n. primitive. subst I. simpl in *. intros key' q' m' Hq' Hm'.
    destruct (decide (messageKey n = key')) as [<-|Hne].
    - rewrite lookup_insert_eq in Hq'. simplify_eq.
      apply elem_of_app in Hm' as [Hm'|Hm'].
      + eapply Hs'; eassumption.
      + apply list_elem_of_singleton in Hm'. by subst.
    - rewrite lookup_insert_ne in Hq' by done. eapply Hs'; eassumption. }
  intros Hwk. by_invariant I Hevent Hpop Hpush. exact Hwk.
Qed.

(** An effect that is neither a [Stop] nor a [Start] changes nothing of
    who is down. *)
Lemma down_frame (d0 : gset N) (s s' : St) (e : Effect) :
  crashed s' = crashed s →
  effects s' = effects s ++ [e] →
  (∀ n, e ≠ EStop n) → (∀ n, e ≠ EStart n) →
  dom (crashed s) = downAfter d0 (effects s) ∧ startsOnlyDown d0 (effects s) →
  dom (crashed s') = downAfter d0 (effects s') ∧ startsOnlyDown d0 (effects s').
Proof.
  intros Hc He Hstop Hstart [Hdom Hok].
  rewrite Hc, He, downAfter_app, startsOnlyDown_app.
  destruct e; simpl; try done.
  - by destruct (Hstop node).
  - by destruct (Hstart node).
Qed.

(** X17: the [crashed] map tracks the [Stop] and [Start] calls, and
    [Start] is only ever called on a node that is down. From a state
    whose [crashed] entries are all [true] and whose effect log is empty,
    after any number of steps the keys of [crashed] are the nodes stopped
    and not started since, every [Start] issued was of a node down at
    that moment, and the entries are still all [true]. *)
Theorem crashed_tracks_stops_and_starts (steps : Z) (s : St) :
  (∀ n b, crashed s !! n = Some b → b = true) →
  effects s = [] →
  let s' := (theSteps steps s).2 in
  dom (crashed s') = downAfter (dom (crashed s)) (effects s')
  ∧ startsOnlyDown (dom (crashed s)) (effects s')
  ∧ (∀ n b, crashed s' !! n = Some b → b = true).
Proof.
  intros Htrue Hnil s'. subst s'.
  set (d0 := dom (crashed s)).
  set (I := λ t : St,
         (dom (crashed t) = downAfter d0 (effects t)
          ∧ startsOnlyDown d0 (effects t))
         ∧ (∀ n b, crashed t !! n = Some b → b = true)).
  assert (Hinv : preserves I (theSteps steps)).
  { apply (inv_runSteps I).
    - intros A o. primitive.
    - intros e. primitive.
    - intros m. primitive. destruct Hs' as [Hd Ht]. split; [|exact Ht].
      by apply (down_frame d0 s' _ (EStep m)).
    - primitive. destruct Hs' as [Hd Ht]. split; [|exact Ht].
      by apply (down_frame d0 s' _ ETick).
    - intros key. primitive. destruct Hs' as [Hd Ht]. split; [|exact Ht].
      by eapply (down_frame d0 s' _ (EPop key _)).
    - intros n. primitive. destruct Hs' as [Hd Ht]. split; [|exact Ht].
      by eapply (down_frame d0 s' _ (EPush _ n)).
    - intros j t [[Hdom Hok] Ht].
      unfold crashBlock, mbind, M_bind, withCtx, Stop, getCrashed, setCrashed.
      destruct (CanCrash (tCtx t) j) as [[n|] t1]; simpl; [|done].
      split; [split|]; simpl.
      + rewrite dom_insert_L, downAfter_app, Hdom. simpl. set_solver.
      + rewrite startsOnlyDown_app. simpl. done.
      + intros n' b. rewrite lookup_insert. case_decide; [congruence | apply Ht].
    - intros j t [[Hdom Hok] Ht].
      unfold startBlock, mbind, M_bind, withCtx, Start, getCrashed, setCrashed.
      destruct (CanStart (tCtx t) j) as [[n|] t1]; simpl; [|done].
      destruct (crashed t !! n) as [[|]|] eqn:Hn; simpl; try done.
      split; [split|]; simpl.
      + rewrite dom_delete_L, downAfter_app, Hdom. reflexivity.
      + rewrite startsOnlyDown_app. simpl. split; [exact Hok|].
        split; [|done]. rewrite <- Hdom. apply elem_of_dom. eauto.
      + intros n' b Hb. apply lookup_delete_Some in Hb as [_ Hb]. by eapply Ht. }
  destruct (Hinv s) as [[Hdom Hok] Ht].
  { subst I. cbv beta. rewrite Hnil. simpl. done. }
  done.
Qed.

(** X18: a stop and a start pinned on the same node at the same step
    stop the node and start it again at once: the environment sees [Stop]
    then [Start], and the node is not in [crashed] when the step goes on,
    whether or not it was before. *)
Theorem stop_then_start_in_one_step (j : Z) (n : N) (s : St) (t1 t2 : T) :
  CanCrash (tCtx s) j = (Some n, t1) →
  CanStart t1 j = (Some n, t2) →
  (crashBlock CanCrash env_Stop j ;; startBlock CanStart env_Start j) s
  = (Ok tt,
     mkIterState t2 (eventTrace s) (delete n (crashed s)) (messageQueues s)
       (env_Start (env_Stop (raftEnvironment s) n) n)
       (effects s ++ [EStop n; EStart n])).
Proof.
  intros Hcrash Hstart.
  unfold crashBlock, startBlock, mbind, M_bind, withCtx, Stop, Start,
    getCrashed, setCrashed. rewrite Hcrash. simpl.
  rewrite Hstart. simpl. rewrite lookup_insert_eq. simpl.
  rewrite delete_insert_eq, <- app_assoc. reflexivity.
Qed.

(** X19: two deliveries in a row from one channel take what one delivery
    of the summed size takes: [Schedule] with [k1] and then with [k2]
    returns, together, the messages of [Schedule] with [k1 + k2], and
    leaves the same state. *)
Theorem Schedule_twice_is_Schedule_sum (from to : N) (k1 k2 : Z)
    (q : list Message.t) (s : St) :
  messageQueues s !! queueKey from to = Some q →
  0 ≤ k1 → 0 ≤ k2 →
  (ms1 ← Schedule from to k1 ; ms2 ← Schedule from to k2 ; mret (ms1 ++ ms2)) s
  = Schedule from to (k1 + k2) s.
Proof.
  intros Hq H1 H2. unfold mbind, M_bind.
  rewrite (Schedule_spec _ _ k1 q s Hq).
  rewrite (Schedule_spec _ _ k2 (drop (Z.to_nat k1) q));
    [|simpl; apply lookup_insert_eq].
  rewrite (Schedule_spec _ _ (k1 + k2) q s Hq).
  unfold mret, M_ret. simpl.
  rewrite insert_insert_eq, drop_drop, <- app_assoc, <- fmap_app.
  rewrite Z2Nat.inj_add by lia.
  rewrite <- (take_take_drop q (Z.to_nat k1) (Z.to_nat k2)). reflexivity.
Qed.

(** X20: a delivery hands to [Step] only messages of the chosen channel,
    and never a message addressed to a node marked crashed. In a state
    whose queues hold only messages of their own channel, every [Step]
    the delivery block makes is of a message with the chosen [From] and
    [To], and that [To] is not in [crashed]; the block logs nothing
    else than pops and steps. *)
Theorem deliver_steps_only_live_channel (from to : N) (k : Z) (t : St) :
  wellKeyed (messageQueues t) →
  ∃ ms : list Message.t,
    effects (deliver env_Step MessageType_String from to k t).2
    = effects t ++ (EPop (queueKey from to) <$> ms) ++ (EStep <$> ms)
    ∧ (∀ m, m ∈ ms →
         Message.From m = from ∧ Message.To m = to
         ∧ crashed t !! Message.To m = None).
Proof.
  intros Hwk.
  assert (Hd : deliver env_Step MessageType_String from to k t
               = match crashed t !! to with
                 | Some _ => (Ok tt, t)
                 | None =>
                     (messages ← Schedule from to k ;
                      forEach messages
                        (λ m, recordReceive MessageType_String m ;;
                              Step env_Step m)) t
                 end).
  { unfold deliver. unfold mbind at 1, M_bind at 1. unfold getCrashed.
    cbv beta iota. destruct (crashed t !! to); reflexivity. }
  rewrite Hd. clear Hd.
  destruct (crashed t !! to) as [b|] eqn:Hc.
  { exists []. simpl. rewrite app_nil_r. split; [done|]. by intros m Hm%elem_of_nil. }
  unfold mbind at 1, M_bind at 1.
  destruct (messageQueues t !! queueKey from to) as [q|] eqn:Hq.
  - rewrite (Schedule_spec _ _ _ q t Hq). rewrite forEach_receive. simpl.
    exists (take (Z.to_nat k) q). split; [by rewrite <- app_assoc|].
    intros m Hm.
    assert (Hkey : queueKey from to = queueKey (Message.From m) (Message.To m)).
    { eapply Hwk; [exact Hq|]. by apply (subseteq_take (Z.to_nat k) q). }
    apply queueKey_inj in Hkey as [<- <-]. done.
  - rewrite (Schedule_no_queue _ _ _ t Hq).
    exists []. simpl. case_decide; simpl; rewrite app_nil_r;
      (split; [done | by intros m Hm%elem_of_nil]).
Qed.

(** The pushes of a tick, when every message has a queue. *)
Lemma tick_pushes (ms : list Message.t) :
  ∀ s : St,
    (∀ m, m ∈ ms → is_Some (messageQueues s !! messageKey m)) →
    forEach ms (λ n, recordSend sendEvent n ;;
                     pushQueue (queueKey (Message.From n) (Message.To n)) n) s
    = (Ok tt,
       mkIterState (tCtx s) (eventTrace s ++ (sendEvent <$> ms)) (crashed s)
         (foldl pushInto (messageQueues s) ms) (raftEnvironment s)
         (effects s ++ ((λ m, EPush (messageKey m) m) <$> ms))).
Proof.
  induction ms as [|m ms IH]; intros s Hex.
  - simpl. unfold mret, M_ret. rewrite !app_nil_r. destruct s; reflexivity.
  - simpl. unfold mbind at 1, M_bind at 1. unfold mbind at 1, M_bind at 1.
    unfold recordSend at 1, appendEvent at 1, pushQueue at 1. simpl.
    destruct (Hex m) as [q Hq]; [by left|].
    pose proof Hq as Hq'. unfold messageKey in Hq'. rewrite Hq'. rewrite IH.
    + assert (Hpush : pushInto (messageQueues s) m
                      = <[queueKey (Message.From m) (Message.To m) := Queue.Push q m]>
                          (messageQueues s)).
      { unfold pushInto, queueAt. rewrite Hq. reflexivity. }
      cbn [foldl tCtx eventTrace crashed messageQueues raftEnvironment effects fmap
           list_fmap].
      rewrite Hpush, <- !app_assoc. reflexivity.
    + intros m' Hm'. cbn [messageQueues]. rewrite lookup_insert.
      case_decide; [eauto|]. apply Hex. by right.
Qed.

Lemma queueAt_pushes (key : string) (ms : list Message.t) :
  ∀ qs : gmap string (Queue.t Message.t),
    queueAt key (foldl pushInto qs ms)
    = queueAt key qs ++ filter (λ m, messageKey m = key) ms.
Proof.
  induction ms as [|m ms IH]; intros qs; simpl.
  - by rewrite app_nil_r.
  - rewrite IH, filter_cons. unfold pushInto, queueAt.
    case_decide as Hk.
    + subst key. rewrite lookup_insert_eq. simpl. by rewrite <- app_assoc.
    + rewrite lookup_insert_ne by done. reflexivity.
Qed.

(** X21: what a tick emits is enqueued per channel, in the order of
    emission. When every message returned by [Tick] has a queue for its
    channel, the tick block returns, records one send event per message,
    and appends to each queue exactly the messages of its channel, in the
    order [Tick] returned them; nothing is delivered and nobody's crash
    state changes. *)
Theorem tickBlock_enqueues_per_channel (s : St) (ms : list Message.t) (e' : E) :
  env_Tick (raftEnvironment s) = (ms, e') →
  (∀ m, m ∈ ms → is_Some (messageQueues s !! messageKey m)) →
  ∃ s' : St,
    tickBlock env_Tick sendEvent s = (Ok tt, s')
    ∧ (∀ key, queueAt key (messageQueues s')
              = queueAt key (messageQueues s)
                ++ filter (λ m, messageKey m = key) ms)
    ∧ eventTrace s' = eventTrace s ++ (sendEvent <$> ms)
    ∧ raftEnvironment s' = e'
    ∧ crashed s' = crashed s
    ∧ (∀ key, pops key (effects s') = pops key (effects s)).
Proof.
  intros Htick Hex. unfold tickBlock. unfold mbind at 1, M_bind at 1.
  unfold Tick. rewrite Htick.
  rewrite tick_pushes by exact Hex. simpl.
  eexists. split; [reflexivity|]. simpl.
  split; [intros key; apply queueAt_pushes|].
  split; [reflexivity|]. split; [reflexivity|]. split; [reflexivity|].
  assert (Hp : ∀ key, pops key
                        ((effects s ++ [ETick])
                         ++ ((λ m, EPush (messageKey m) m) <$> ms))
                      = pops key (effects s)).
  { intros key. rewrite !pops_app. simpl. rewrite app_nil_r.
    replace (pops key ((λ m, EPush (messageKey m) m) <$> ms)) with (@nil Message.t);
      [by rewrite app_nil_r|].
    clear. induction ms as [|m ms IH]; simpl; done. }
  exact Hp.
Qed.

(** *** Deliveries, step by step and over a run *)

Lemma stepsOf_app (from to : N) (es es' : list Effect) :
  stepsOf from to (es ++ es') = stepsOf from to es ++ stepsOf from to es'.
Proof.
  induction es as [|e es IH]; simpl; [reflexivity|].
  destruct e; try exact IH. case_decide; [simpl; f_equal|]; exact IH.
Qed.

Lemma stepsOf_EPop (from to : N) (key : string) (ms : list Message.t) :
  stepsOf from to (EPop key <$> ms) = [].
Proof. induction ms as [|m ms IH]; simpl; done. Qed.

Lemma stepsOf_EStep (from to from' to' : N) (ms : list Message.t) :
  (∀ m, m ∈ ms → Message.From m = from' ∧ Message.To m = to') →
  stepsOf from to (EStep <$> ms)
  = if decide (from = from' ∧ to = to') then ms else [].
Proof.
  intros Hms. induction ms as [|m ms IH]; [simpl; by case_decide|].
  destruct (Hms m) as [Hf Ht]; [by left|].
  rewrite fmap_cons. cbn [stepsOf].
  rewrite IH by (intros m' Hm'; apply Hms; by right).
  rewrite Hf, Ht. repeat case_decide; naive_solver.
Qed.

Lemma pops_EStep (key : string) (ms : list Message.t) :
  pops key (EStep <$> ms) = [].
Proof. induction ms as [|m ms IH]; simpl; done. Qed.

Lemma pops_EPop_at (key key' : string) (ms : list Message.t) :
  pops key (EPop key' <$> ms) = if decide (key = key') then ms else [].
Proof.
  induction ms as [|m ms IH]; [simpl; by case_decide|].
  rewrite fmap_cons. cbn [pops]. rewrite IH. repeat case_decide; naive_solver.
Qed.

(** What the delivery block logs, whether it returns or panics: the
    pops of the messages it takes, then their steps. *)
Lemma deliver_log (from to : N) (k : Z) (t : St) :
  let ms := match crashed t !! to with
            | Some _ => []
            | None => take (Z.to_nat k) (queueAt (queueKey from to) (messageQueues t))
            end in
  effects (deliver env_Step MessageType_String from to k t).2
  = effects t ++ (EPop (queueKey from to) <$> ms) ++ (EStep <$> ms).
Proof.
  intros ms. subst ms.
  assert (Hd : deliver env_Step MessageType_String from to k t
               = match crashed t !! to with
                 | Some _ => (Ok tt, t)
                 | None =>
                     (messages ← Schedule from to k ;
                      forEach messages
                        (λ m, recordReceive MessageType_String m ;;
                              Step env_Step m)) t
                 end).
  { unfold deliver. unfold mbind at 1, M_bind at 1. unfold getCrashed.
    cbv beta iota. destruct (crashed t !! to); reflexivity. }
  rewrite Hd. clear Hd.
  destruct (crashed t !! to) as [b|]; [simpl; by rewrite app_nil_r|].
  unfold mbind at 1, M_bind at 1. unfold queueAt.
  destruct (messageQueues t !! queueKey from to) as [q|] eqn:Hq.
  - rewrite (Schedule_spec _ _ _ q t Hq). rewrite forEach_receive. simpl.
    by rewrite <- app_assoc.
  - rewrite (Schedule_no_queue _ _ _ t Hq). simpl. rewrite take_nil. simpl.
    case_decide; simpl; by rewrite app_nil_r.
Qed.

(** The crash block, the start block and the choice of the channel
    always return; they pop nothing, step nothing and leave the queues
    alone. *)
Lemma crashBlock_returns (j : Z) (s : St) :
  ∃ s1 : St,
    crashBlock CanCrash env_Stop j s = (Ok tt, s1)
    ∧ messageQueues s1 = messageQueues s
    ∧ (∀ key, pops key (effects s1) = pops key (effects s))
    ∧ (∀ from to, stepsOf from to (effects s1) = stepsOf from to (effects s)).
Proof.
  unfold crashBlock, mbind, M_bind, withCtx, Stop, getCrashed, setCrashed.
  destruct (CanCrash (tCtx s) j) as [[n|] t1]; simpl;
    (eexists; split; [reflexivity|]); simpl;
    (split; [reflexivity|]); split; intros;
    rewrite ?pops_app, ?stepsOf_app; simpl; by rewrite ?app_nil_r.
Qed.

Lemma startBlock_returns (j : Z) (s : St) :
  ∃ s1 : St,
    startBlock CanStart env_Start j s = (Ok tt, s1)
    ∧ messageQueues s1 = messageQueues s
    ∧ (∀ key, pops key (effects s1) = pops key (effects s))
    ∧ (∀ from to, stepsOf from to (effects s1) = stepsOf from to (effects s)).
Proof.
  unfold startBlock, mbind, M_bind, withCtx, Start, getCrashed, setCrashed.
  destruct (CanStart (tCtx s) j) as [[n|] t1]; simpl;
    [destruct (crashed s !! n) as [[|]|]; simpl|];
    (eexists; split; [reflexivity|]); simpl;
    (split; [reflexivity|]); split; intros;
    rewrite ?pops_app, ?stepsOf_app; simpl; by rewrite ?app_nil_r.
Qed.

(** The rest of the step runs from the state they reach. *)
Lemma choice_prefix (j : Z) (s : St) :
  ∃ (from to : N) (k : Z) (s1 : St),
    (crashBlock CanCrash env_Stop j ;; startBlock CanStart env_Start j ;;
     withCtx GetNextNodeChoice) s
    = (Ok (from, to, k), s1)
    ∧ messageQueues s1 = messageQueues s
    ∧ (∀ key, pops key (effects s1) = pops key (effects s))
    ∧ (∀ from' to', stepsOf from' to' (effects s1) = stepsOf from' to' (effects s))
    ∧ runStep CanCrash CanStart GetNextNodeChoice IsClientRequest
        env_Stop env_Start env_Step env_Tick MsgProp MessageType_String
        sendEvent j s
      = (deliver env_Step MessageType_String from to k ;;
         clientBlock IsClientRequest env_Step MsgProp j ;;
         tickBlock env_Tick sendEvent) s1.
Proof.
  destruct (crashBlock_returns j s) as (sa & Ha & Hqa & Hpa & Hsa).
  destruct (startBlock_returns j sa) as (sb & Hb & Hqb & Hpb & Hsb).
  destruct (GetNextNodeChoice (tCtx sb)) as [[[from to] k] t'] eqn:Hc.
  exists from, to, k.
  eexists. unfold runStep.
  unfold mbind at 1 2 3 4, M_bind at 1 2 3 4. rewrite Ha.
  unfold mbind at 1 2 3 4, M_bind at 1 2 3 4. rewrite Hb.
  unfold withCtx. rewrite Hc.
  split; [reflexivity|]. cbn [messageQueues effects].
  split; [congruence|].
  split; [intros key; by rewrite Hpb, Hpa|].
  split; [intros from' to'; by rewrite Hsb, Hsa|].
  reflexivity.
Qed.

(** The client block and the tick block pop nothing, and step no
    message of a channel between nodes: a client request carries
    [From = 0] and no [To]. *)
Lemma client_and_tick_frame (A : string → list Message.t)
    (B : N → N → list Message.t) (j : Z) :
  preserves
    (λ t : St,
       (∀ key, pops key (effects t) = A key)
       ∧ (∀ from to, (from ≠ 0 ∨ to ≠ 0)%N → stepsOf from to (effects t) = B from to))
    (clientBlock IsClientRequest env_Step MsgProp j ;; tickBlock env_Tick sendEvent).
Proof.
  set (Q := λ t : St,
         (∀ key, pops key (effects t) = A key)
         ∧ (∀ from to, (from ≠ 0 ∨ to ≠ 0)%N → stepsOf from to (effects t) = B from to)).
  assert (Hframe : ∀ (t t' : St) (e : Effect),
            effects t' = effects t ++ [e] →
            (∀ key, pops key [e] = []) →
            (∀ from to, (from ≠ 0 ∨ to ≠ 0)%N → stepsOf from to [e] = []) →
            Q t → Q t').
  { intros t t' e He Hpop Hstep [Hp Hs]. split.
    - intros key. rewrite He, pops_app, Hpop, app_nil_r. apply Hp.
    - intros from to Hc. rewrite He, stepsOf_app, Hstep, app_nil_r by exact Hc.
      by apply Hs. }
  apply preserves_bind.
  - unfold clientBlock. apply preserves_bind; [primitive|].
    intros [reqNum|]; [|apply preserves_mret].
    intros t Ht. eapply (Hframe t); [reflexivity | done | | exact Ht].
    intros from to Hc. simpl. case_decide as Hd; [|done].
    destruct Hd as [<- <-]. by destruct Hc.
  - intros _. unfold tickBlock. apply preserves_bind.
    + intros t Ht. unfold Tick. destruct (env_Tick (raftEnvironment t)) as [ms e'].
      by eapply (Hframe t); [reflexivity | | | exact Ht].
    + intros ms. apply inv_forEach. intros n.
      apply preserves_bind; [primitive|]. intros _.
      intros t Ht. unfold pushQueue.
      destruct (messageQueues t !! _) as [q|]; [|exact Ht].
      by eapply (Hframe t); [reflexivity | | | exact Ht].
Qed.

(** One step of the loop, read on the log: what it pops and what it
    hands to [Step] on a channel between nodes is the head of the chosen
    queue, at most [k] long, and nothing when the target is marked
    crashed. *)
Lemma runStep_delivery (j : Z) (s : St) :
  wellKeyed (messageQueues s) →
  ∃ (from to : N) (k : Z) (s1 : St),
    (crashBlock CanCrash env_Stop j ;; startBlock CanStart env_Start j ;;
     withCtx GetNextNodeChoice) s
    = (Ok (from, to, k), s1)
    ∧ let ms := match crashed s1 !! to with
                | Some _ => []
                | None => take (Z.to_nat k)
                            (queueAt (queueKey from to) (messageQueues s))
                end in
      let s' := (runStep CanCrash CanStart GetNextNodeChoice IsClientRequest
                   env_Stop env_Start env_Step env_Tick MsgProp
                   MessageType_String sendEvent j s).2 in
      (∀ key, pops key (effects s')
              = pops key (effects s)
                ++ if decide (key = queueKey from to) then ms else [])
      ∧ (∀ from' to', (from' ≠ 0 ∨ to' ≠ 0)%N →
           stepsOf from' to' (effects s')
           = stepsOf from' to' (effects s)
             ++ if decide (from' = from ∧ to' = to) then ms else []).
Proof.
  intros Hwk.
  destruct (choice_prefix j s) as (from & to & k & s1 & Hpre & Hq & Hp & Hs & Hrun).
  exists from, to, k, s1. split; [exact Hpre|]. intros ms s'. subst s'.
  rewrite Hrun. clear Hrun.
  pose proof (deliver_log from to k s1) as Hd. rewrite Hq in Hd. fold ms in Hd.
  assert (Hms : ∀ m, m ∈ ms → Message.From m = from ∧ Message.To m = to).
  { intros m Hm. subst ms. destruct (crashed s1 !! to); [by apply elem_of_nil in Hm|].
    apply (subseteq_take (Z.to_nat k)) in Hm. unfold queueAt in Hm.
    destruct (messageQueues s !! queueKey from to) as [q|] eqn:Hqq;
      [|by apply elem_of_nil in Hm].
    pose proof (Hwk _ _ _ Hqq Hm) as Hkey.
    by apply queueKey_inj in Hkey as [-> ->]. }
  set (Q := λ t : St,
         (∀ key, pops key (effects t)
                 = pops key (effects s)
                   ++ if decide (key = queueKey from to) then ms else [])
         ∧ (∀ from' to', (from' ≠ 0 ∨ to' ≠ 0)%N →
              stepsOf from' to' (effects t)
              = stepsOf from' to' (effects s)
                ++ if decide (from' = from ∧ to' = to) then ms else [])).
  assert (HQ : Q (deliver env_Step MessageType_String from to k s1).2).
  { split.
    - intros key. rewrite Hd, !pops_app, Hp, pops_EPop_at, pops_EStep.
      by rewrite app_nil_r.
    - intros from' to' _.
      rewrite Hd, !stepsOf_app, Hs, stepsOf_EPop, (stepsOf_EStep _ _ from to) by exact Hms.
      reflexivity. }
  change (Q (((deliver env_Step MessageType_String from to k ;;
               clientBlock IsClientRequest env_Step MsgProp j ;;
               tickBlock env_Tick sendEvent) s1).2)).
  unfold mbind at 1, M_bind at 1.
  destruct (deliver env_Step MessageType_String from to k s1) as [[[]|why] t2];
    [|exact HQ].
  by apply (client_and_tick_frame _ _ j t2).
Qed.

(** A step keeps the queues well keyed. *)
Lemma wellKeyed_runStep (j : Z) :
  preserves (λ t : St, wellKeyed (messageQueues t))
    (runStep CanCrash CanStart GetNextNodeChoice IsClientRequest
       env_Stop env_Start env_Step env_Tick MsgProp MessageType_String
       sendEvent j).
Proof.
  set (I := λ t : St, wellKeyed (messageQueues t)).
  pose proof (inv_crash_start_blocks I) as Hb.
  destruct Hb as [Hcrash Hstart];
    [intros; primitive | intros; primitive | intros; primitive | intros; primitive |].
  apply (inv_runStep I);
    [intros; primitive | intros; primitive | intros; primitive | primitive
    | | | exact Hcrash | exact Hstart].
  - intros key. primitive. subst I. simpl in *. intros key' q' m' Hq' Hm'.
    destruct (decide (key = key')) as [<-|Hne].
    + rewrite lookup_insert_eq in Hq'. simplify_eq.
      eapply Hs'; [eassumption|]. by right.
    + rewrite lookup_insert_ne in Hq' by done. eapply Hs'; eassumption.
  - intros n. primitive. subst I. simpl in *. intros key' q' m' Hq' Hm'.
    destruct (decide (messageKey n = key')) as [<-|Hne].
    + rewrite lookup_insert_eq in Hq'. simplify_eq.
      apply elem_of_app in Hm' as [Hm'|Hm'].
      * eapply Hs'; eassumption.
      * apply list_elem_of_singleton in Hm'. by subst.
    + rewrite lookup_insert_ne in Hq' by done. eapply Hs'; eassumption.
Qed.

(** Over a run, what is handed to [Step] on a channel between nodes is
    what was popped from the queue of that channel. *)
Lemma steps_are_pops (steps : Z) :
  preserves
    (λ t : St,
       wellKeyed (messageQueues t)
       ∧ ∀ from to, (from ≠ 0 ∨ to ≠ 0)%N →
           stepsOf from to (effects t) = pops (queueKey from to) (effects t))
    (runSteps CanCrash CanStart GetNextNodeChoice IsClientRequest
       env_Stop env_Start env_Step env_Tick MsgProp MessageType_String
       sendEvent steps).
Proof.
  unfold runSteps, for_range. apply preserves_for_loop. intros j _ t [Hwk Hsp].
  split; [by apply wellKeyed_runStep|].
  destruct (runStep_delivery j t Hwk) as (from & to & k & s1 & _ & Hpops & Hsteps).
  intros from' to' Hc. rewrite (Hsteps _ _ Hc), Hpops, (Hsp _ _ Hc).
  f_equal.
  destruct (decide (from' = from ∧ to' = to)) as [[-> ->]|Hne].
  - by rewrite decide_True.
  - rewrite decide_False; [reflexivity|].
    intros Hkey. by apply queueKey_inj in Hkey.
Qed.

(** The turn [j] of the loop runs from the state the first [j] turns
    have reached. *)
Lemma runSteps_succ (j : Z) (s t : St) :
  0 ≤ j →
  runSteps CanCrash CanStart GetNextNodeChoice IsClientRequest
    env_Stop env_Start env_Step env_Tick MsgProp MessageType_String
    sendEvent j s = (Ok tt, t) →
  runSteps CanCrash CanStart GetNextNodeChoice IsClientRequest
    env_Stop env_Start env_Step env_Tick MsgProp MessageType_String
    sendEvent (j + 1) s
  = runStep CanCrash CanStart GetNextNodeChoice IsClientRequest
      env_Stop env_Start env_Step env_Tick MsgProp MessageType_String
      sendEvent j t.
Proof.
  intros Hj Hrun. unfold runSteps, for_range in *.
  replace (Z.to_nat (j + 1)) with (Z.to_nat j + 1)%nat by lia.
  rewrite for_loop_app. unfold mbind at 1, M_bind at 1. rewrite Hrun.
  cbn [for_loop]. replace (0 + Z.of_nat (Z.to_nat j)) with j by lia.
  unfold mbind, M_bind, mret, M_ret.
  by destruct (runStep _ _ _ _ _ _ _ _ _ _ _ j t) as [[[]|why] t'].
Qed.

End StepLoopMore.

(** ** Loading a mimic into the trace context *)

(** The loading loop from index [i] on. *)
Lemma loadAt_loop (m : Trace) (count : nat) :
  ∀ (i : nat) (c : traceCtx.t),
    (i + count ≤ length m)%nat →
    for_loop count (Z.of_nat i) (loadAt m) tt c
    = (Ok tt, foldl (λ c ch, loadChoice ch c) c (take count (drop i m))).
Proof.
  induction count as [|count IH]; intros i c Hlen.
  - reflexivity.
  - simpl. unfold mbind, M_bind. unfold loadAt at 1. rewrite Nat2Z.id.
    destruct (m !! i) as [ch|] eqn:Hi.
    + replace (Z.of_nat i + 1) with (Z.of_nat (S i)) by lia.
      rewrite IH by lia. rewrite (drop_S _ _ _ Hi). reflexivity.
    + apply lookup_ge_None in Hi. lia.
Qed.

(** The queues after loading: what was there, then the choices of the
    kind in schedule order. *)
Lemma load_queues (m : Trace) :
  ∀ c : traceCtx.t,
    let c' := foldl (λ c ch, loadChoice ch c) c m in
    traceCtx.nodeChoices c' = traceCtx.nodeChoices c ++ ofKind Node m
    ∧ traceCtx.booleanChoices c'
      = traceCtx.booleanChoices c
        ++ (SchedulingChoice.BooleanChoice <$> ofKind RandomBoolean m)
    ∧ traceCtx.integerChoices c'
      = traceCtx.integerChoices c
        ++ (SchedulingChoice.IntegerChoice <$> ofKind RandomInteger m)
    ∧ traceCtx.trace c' = traceCtx.trace c
    ∧ traceCtx.eventTrace c' = traceCtx.eventTrace c
    ∧ traceCtx.mimicTrace c' = traceCtx.mimicTrace c.
Proof.
  induction m as [|ch m IH]; intros c; simpl.
  - rewrite !app_nil_r. done.
  - destruct (IH (loadChoice ch c)) as (Hn & Hb & Hi & Ht & He & Hm).
    rewrite Hn, Hb, Hi, Ht, He, Hm. unfold ofKind. rewrite !filter_cons.
    unfold loadChoice, Queue.Push.
    destruct (SchedulingChoice.Type_ ch) eqn:Hk; simpl;
      repeat case_decide; try discriminate; simpl;
      rewrite <- ?app_assoc; done.
Qed.

(** The maps after loading: the last choice of the kind pinned at the
    step decides, else what was there. *)
Lemma load_maps (m : Trace) (step : Z) :
  ∀ c : traceCtx.t,
    let c' := foldl (λ c ch, loadChoice ch c) c m in
    traceCtx.crashPoints c' !! step
    = match last (pinnedAt StopNode step m) with
      | Some ch => Some (SchedulingChoice.Node ch)
      | None => traceCtx.crashPoints c !! step
      end
    ∧ traceCtx.startPoints c' !! step
      = match last (pinnedAt StartNode step m) with
        | Some ch => Some (SchedulingChoice.Node ch)
        | None => traceCtx.startPoints c !! step
        end
    ∧ traceCtx.clientRequests c' !! step
      = match last (pinnedAt ClientRequest step m) with
        | Some ch => Some (SchedulingChoice.Request ch)
        | None => traceCtx.clientRequests c !! step
        end.
Proof.
  induction m as [|ch m IH] using rev_ind; intros c; simpl; [done|].
  rewrite foldl_app. simpl. unfold pinnedAt in *. rewrite !filter_app.
  destruct (IH c) as (Hc & Hs & Hr). simpl in *.
  rewrite !filter_cons, !filter_nil.
  unfold loadChoice.
  destruct (SchedulingChoice.Type_ ch) eqn:Hk; simpl;
    repeat case_decide; destruct_and?; try discriminate; simpl;
    rewrite ?app_nil_r, ?last_snoc; subst;
    rewrite ?lookup_insert_eq; try done;
    rewrite ?lookup_insert_ne by naive_solver; done.
Qed.

(** The three cursors share the choices of the schedule. *)
Lemma ofKind_lengths (m : Trace) :
  (length (ofKind Node m) + length (ofKind RandomBoolean m)
   + length (ofKind RandomInteger m) ≤ length m)%nat.
Proof.
  unfold ofKind. induction m as [|ch m IH]; simpl; [lia|].
  rewrite !filter_cons.
  destruct (SchedulingChoice.Type_ ch); repeat case_decide; try discriminate;
    simpl; lia.
Qed.

(** X22: loading a mimic never panics, and fills the three cursors in
    schedule order. After [loadMimic] on a fresh context the node cursor
    holds exactly the [Node] choices of the mimic, the boolean and integer
    cursors the values of its [RandomBoolean] and [RandomInteger]
    choices, each in the order of the schedule; the context's own trace
    and event list stay empty. *)
Theorem loadMimic_fills_cursors_in_order (m : Trace) :
  ∃ c' : traceCtx.t,
    loadMimic (Some m) newTraceCtx = (Ok tt, c')
    ∧ traceCtx.mimicTrace c' = Some m
    ∧ traceCtx.nodeChoices c' = ofKind Node m
    ∧ traceCtx.booleanChoices c'
      = SchedulingChoice.BooleanChoice <$> ofKind RandomBoolean m
    ∧ traceCtx.integerChoices c'
      = SchedulingChoice.IntegerChoice <$> ofKind RandomInteger m
    ∧ traceCtx.trace c' = []
    ∧ traceCtx.eventTrace c' = []
    ∧ (length (traceCtx.nodeChoices c') + length (traceCtx.booleanChoices c')
       + length (traceCtx.integerChoices c') ≤ length m)%nat.
Proof.
  unfold loadMimic, for_range. rewrite Nat2Z.id.
  rewrite (loadAt_loop m (length m) 0) by lia.
  rewrite drop_0, firstn_all. eexists. split; [reflexivity|].
  match goal with |- context [foldl ?f ?c m] =>
    destruct (load_queues m c) as (Hn & Hb & Hi & Ht & He & Hm) end.
  simpl in *. rewrite Hn, Hb, Hi, Ht, He, Hm.
  repeat (split; [reflexivity|]).
  rewrite !length_fmap. apply ofKind_lengths.
Qed.

(** X23: for the step-indexed choices the last one wins. After
    [loadMimic] on a fresh context, the crash point of a step is the node
    of the last [StopNode] choice of the mimic with that step, and there
    is none if no [StopNode] choice has that step; likewise for the start
    points and the client requests. *)
Theorem loadMimic_last_choice_wins (m : Trace) (step : Z) :
  ∃ c' : traceCtx.t,
    loadMimic (Some m) newTraceCtx = (Ok tt, c')
    ∧ traceCtx.crashPoints c' !! step
      = SchedulingChoice.Node <$> last (pinnedAt StopNode step m)
    ∧ traceCtx.startPoints c' !! step
      = SchedulingChoice.Node <$> last (pinnedAt StartNode step m)
    ∧ traceCtx.clientRequests c' !! step
      = SchedulingChoice.Request <$> last (pinnedAt ClientRequest step m).
Proof.
  unfold loadMimic, for_range. rewrite Nat2Z.id.
  rewrite (loadAt_loop m (length m) 0) by lia.
  rewrite drop_0, firstn_all. eexists. split; [reflexivity|].
  match goal with |- context [foldl ?f ?c m] =>
    destruct (load_maps m step c) as (Hc & Hs & Hr) end.
  simpl in *. rewrite Hc, Hs, Hr.
  repeat split; destruct (last _); done.
Qed.

(** ** The further properties on the test doubles *)

Lemma SendTrace_ignores_surplus_keys_witness :
  ∃ w' : World nat,
    SendTrace Double.marshal Scenario.replySurplus Double.client 1%positive
      Double.world0
    = (Ok [ {| Repr := "s1"; Key := "k1" |} ], w').
Proof.
  destruct (SendTrace_ignores_surplus_keys Double.marshal Scenario.replySurplus
              Double.client 1%positive [] Double.world0 Scenario.surplusKeys 0%nat)
    as (result & w' & Hs & _ & Hz & _);
    [reflexivity | reflexivity | simpl; lia |].
  exists w'. rewrite Hs, Hz. reflexivity.
Defined.

Lemma SendTrace_short_keys_panics_witness :
  (SendTrace Double.marshal Scenario.replyShort Double.client 1%positive
     Double.world0).1
  = Panic "index out of range".
Proof.
  rewrite (SendTrace_short_keys_panics Double.marshal Scenario.replyShort
             Double.client 1%positive [] Double.world0 Scenario.shortKeys 0%nat);
    [reflexivity | reflexivity | reflexivity | simpl; lia].
Defined.

Lemma SendTrace_twice_accumulates_witness :
  heap ((SendTrace Double.marshal Double.reply Double.client 1%positive ;;
         SendTrace Double.marshal Double.reply Double.client 1%positive)
          Double.world0).2 !! 1%positive
  = Some [ResetEvent; ResetEvent].
Proof.
  destruct (SendTrace_twice_accumulates Double.marshal Double.reply Double.client
              1%positive [] Double.world0 Double.twoStates 0%nat)
    as [Hheap _]; [reflexivity | reflexivity | simpl; lia |].
  exact Hheap.
Defined.

Lemma TLCStateGuider_counts_distinct_unseen_witness :
  ∃ (t' : TLCStateGuider) (ratio : Q) (w' : World nat),
    TLCStateGuider_Check Double.marshal Scenario.replyRepeated Scenario.sawK2 []
      1%positive Double.world0
    = (Ok (t', (1, ratio)), w').
Proof.
  destruct (TLCStateGuider_counts_distinct_unseen Double.marshal
              Scenario.replyRepeated Scenario.sawK2 [] 1%positive []
              Double.world0 Scenario.repeatedKey 0%nat)
    as (t' & k & r & w' & Hc & Hk & _);
    [reflexivity | reflexivity | reflexivity |].
  exists t', r, w'. rewrite Hc, Hk. reflexivity.
Defined.

Lemma TLCStateGuider_nothing_new_witness :
  ∃ (ratio : Q) (w' : World nat),
    TLCStateGuider_Check Double.marshal Double.reply Scenario.sawBoth []
      1%positive Double.world0
    = (Ok (Scenario.sawBoth, (0, ratio)), w').
Proof.
  destruct (TLCStateGuider_nothing_new Double.marshal Double.reply
              Scenario.sawBoth [] 1%positive [] Double.world0 Double.twoStates 0%nat)
    as (r & w' & Hc & _); [reflexivity | reflexivity | reflexivity | |].
  - intros k Hk. simpl in Hk.
    apply elem_of_cons in Hk as [->|Hk]; [by eexists|].
    apply elem_of_cons in Hk as [->|Hk]; [by eexists|].
    by apply elem_of_nil in Hk.
  - exists r, w'. exact Hc.
Defined.

Lemma TraceCoverageGuider_hashes_with_Reset_witness :
  ∃ (tc' : TraceCoverageGuider) (ratio : Q) (w' : World nat),
    TraceCoverageGuider_Check Double.marshal Double.reply Double.hash
      Double.traceGuider [] 1%positive Double.world0
    = (Ok (tc', (1, ratio)), w')
    ∧ is_Some (traces tc' !! Double.hash [ResetEvent]).
Proof.
  destruct (TraceCoverageGuider_hashes_with_Reset Double.marshal Double.reply
              Double.hash Double.traceGuider [] 1%positive [] Double.world0
              Double.twoStates 0%nat)
    as (tc' & k & r & w' & k0 & r0 & Hc & _ & Hone & _ & Hin & _);
    [reflexivity | reflexivity | reflexivity |].
  exists tc', r, w'. split; [|exact Hin].
  rewrite Hc. replace k with 1; [reflexivity|].
  symmetry. apply Hone. reflexivity.
Defined.

Lemma noveltyRatio_in_unit_interval_witness :
  ∃ (t' : TLCStateGuider) (numNew : Z) (ratio : Q) (w' : World nat),
    TLCStateGuider_Check Double.marshal Double.reply Double.tlcGuider []
      1%positive Double.world0
    = (Ok (t', (numNew, ratio)), w')
    ∧ (0 <= ratio)%Q ∧ (ratio <= 1)%Q.
Proof.
  destruct (noveltyRatio_in_unit_interval Double.marshal Double.reply Double.hash
              Double.tlcGuider Double.traceGuider [] 1%positive [] Double.world0
              Double.twoStates Double.twoStates 0%nat 0%nat)
    as [Ht _]; [reflexivity | reflexivity | reflexivity | reflexivity | reflexivity |].
  exact Ht.
Defined.

Lemma mutations_all_fail_keep_corpus_witness :
  ∃ w' : World nat,
    mutations id Scenario.neverMutate [] 1%positive 2 Scenario.fuzzerNoSeeds
      Double.world0
    = (Ok Scenario.fuzzerNoSeeds, w').
Proof.
  destruct (mutations_all_fail_keep_corpus id Scenario.neverMutate [] 1%positive 2
              Scenario.fuzzerNoSeeds Double.world0) as (w' & Hm & _);
    [reflexivity|].
  exists w'. exact Hm.
Defined.

Lemma seed_nonpositive_empties_witness :
  ∃ f' : Fuzzer TLCStateGuider,
    seed id Double.runIteration Scenario.fuzzerNoSeeds Double.world0
    = (Ok f', Double.world0)
    ∧ mutatedTracesQueue f' = [].
Proof.
  eexists. split.
  - apply (seed_nonpositive_empties id Double.runIteration Scenario.fuzzerNoSeeds
             Double.world0). simpl. lia.
  - reflexivity.
Defined.

Lemma seed_then_select_first_witness :
  ∃ (f' : Fuzzer TLCStateGuider) (w' : World nat),
    (seed id Double.runIteration Scenario.fuzzerReady ≫= selectMimic) Double.world0
    = (Ok (Some [Double.nodeChoice 1 2 0], f'), w')
    ∧ Queue.Size (mutatedTracesQueue f') = 1.
Proof.
  destruct (seed_then_select_first id Double.runIteration Scenario.fuzzerReady
              Double.world0 0) as (f' & w' & Hs & Hsize & _);
    [simpl; lia | reflexivity |].
  exists f', w'. split; [exact Hs | exact Hsize].
Defined.

Lemma Run_counts_every_iteration_witness :
  ∃ (f' : Fuzzer TLCStateGuider) (w' : World nat),
    Run (guiderI := TLCStateGuider_Guider Double.marshal Double.reply)
      id Double.mutate Double.runIteration None Scenario.fuzzerReady Double.world0
    = (Ok f', w')
    ∧ default 0 (stats f' !! "mutated_executions")
      + default 0 (stats f' !! "random_executions") = 3.
Proof.
  destruct (Run (guiderI := TLCStateGuider_Guider Double.marshal Double.reply)
              id Double.mutate Double.runIteration None Scenario.fuzzerReady
              Double.world0) as [[f'|why] w'] eqn:Hrun.
  - exists f', w'. split; [reflexivity|].
    rewrite (Run_counts_every_iteration
               (guiderI := TLCStateGuider_Guider Double.marshal Double.reply)
               id Double.mutate Double.runIteration None
               Scenario.fuzzerReady f' Double.world0 w'); [reflexivity | simpl; lia | exact Hrun].
  - vm_compute in Hrun. discriminate.
Defined.

Lemma Run_never_forgets_keys_witness :
  let sawK0 : TLCStateGuider :=
    {| tlcClient := Double.client; statesMap := {[ "k0" := true ]} |} in
  let f := mkFuzzer (config Scenario.fuzzerReady) sawK0 [] Scenario.counters in
  ∃ (f' : Fuzzer TLCStateGuider) (w' : World nat),
    Run (guiderI := TLCStateGuider_Guider Double.marshal Double.reply)
      id Double.mutate Double.runIteration None f Double.world0
    = (Ok f', w')
    ∧ statesMap (guider f') !! "k0" = Some true
    ∧ (1 ≤ size (statesMap (guider f')))%nat.
Proof.
  intros sawK0 f.
  destruct (Run (guiderI := TLCStateGuider_Guider Double.marshal Double.reply)
              id Double.mutate Double.runIteration None f Double.world0)
    as [[f'|why] w'] eqn:Hrun.
  - exists f', w'. split; [reflexivity|].
    destruct (Run_never_forgets_keys Double.marshal Double.reply
                id Double.mutate Double.runIteration None
                f f' Double.world0 w' Hrun) as [Hsub Hsize].
    split; [|exact Hsize].
    eapply lookup_weaken; [|exact Hsub]. reflexivity.
  - vm_compute in Hrun. discriminate.
Defined.

Lemma queues_stay_wellKeyed_witness :
  wellKeyed
    (messageQueues
       (runSteps Double.CanCrash Double.CanStart Double.GetNextNodeChoice
          Double.IsClientRequest Double.env_Stop Double.env_Start
          Double.env_Step Double.env_Tick 2 pretty Double.sendEvent
          4 Scenario.stateWaiting).2).
Proof.
  apply queues_stay_wellKeyed.
  intros key q m Hq Hm. simpl in Hq.
  apply lookup_singleton_Some in Hq as [<- <-].
  repeat (apply elem_of_cons in Hm as [->|Hm]; [reflexivity|]).
  by apply elem_of_nil in Hm.
Defined.

Lemma crashed_tracks_stops_and_starts_witness :
  let s' := (runSteps Double.CanCrash Scenario.CanStart Double.GetNextNodeChoice
               Double.IsClientRequest Double.env_Stop Double.env_Start
               Double.env_Step Double.env_Tick 2 pretty Double.sendEvent
               4 Double.state0).2 in
  dom (crashed s') = downAfter ∅ (effects s')
  ∧ startsOnlyDown ∅ (effects s').
Proof.
  intros s'.
  destruct (crashed_tracks_stops_and_starts Double.CanCrash Scenario.CanStart
              Double.GetNextNodeChoice Double.IsClientRequest Double.env_Stop
              Double.env_Start Double.env_Step Double.env_Tick 2 pretty
              Double.sendEvent 4 Double.state0) as (Hdom & Hok & _).
  - intros n b Hb. simpl in Hb. by rewrite lookup_empty in Hb.
  - reflexivity.
  - split; [exact Hdom | exact Hok].
Defined.

Lemma stop_then_start_in_one_step_witness :
  crashed
    ((crashBlock Double.CanCrash Double.env_Stop 2 ;;
      startBlock Scenario.CanStart Double.env_Start 2) Double.state0).2 !! 2%N
  = None.
Proof.
  rewrite (stop_then_start_in_one_step Double.CanCrash Scenario.CanStart
             Double.env_Stop Double.env_Start 2 2%N Double.state0 tt tt);
    reflexivity.
Defined.

Lemma Schedule_twice_is_Schedule_sum_witness :
  (ms1 ← Schedule 1 2 1 ; ms2 ← Schedule 1 2 1 ; mret (ms1 ++ ms2))
    Scenario.stateWaiting
  = Schedule 1 2 2 Scenario.stateWaiting.
Proof.
  apply (Schedule_twice_is_Schedule_sum 1%N 2%N 1 1
           [Scenario.message 0; Scenario.message 1; Scenario.message 2]
           Scenario.stateWaiting); [reflexivity | lia | lia].
Defined.

Lemma deliver_steps_only_live_channel_witness :
  ∃ ms : list Message.t,
    effects (deliver Double.env_Step pretty 1 2 2 Scenario.stateWaiting).2
    = (EPop (queueKey 1 2) <$> ms) ++ (EStep <$> ms)
    ∧ ∀ m, m ∈ ms → Message.To m = 2%N.
Proof.
  destruct (deliver_steps_only_live_channel Double.env_Step pretty 1%N 2%N 2
              Scenario.stateWaiting) as (ms & He & Hms).
  - intros key q m Hq Hm. simpl in Hq.
    apply lookup_singleton_Some in Hq as [<- <-].
    repeat (apply elem_of_cons in Hm as [->|Hm]; [reflexivity|]).
    by apply elem_of_nil in Hm.
  - exists ms. split; [exact He|]. intros m Hm. by destruct (Hms m Hm) as (_ & ? & _).
Defined.

Lemma tickBlock_enqueues_per_channel_witness :
  ∃ s' : IterState unit N,
    tickBlock Double.env_Tick Double.sendEvent Scenario.stateWaiting = (Ok tt, s')
    ∧ queueAt (queueKey 1 2) (messageQueues s')
      = [Scenario.message 0; Scenario.message 1; Scenario.message 2;
         Scenario.message 3].
Proof.
  destruct (tickBlock_enqueues_per_channel Double.env_Tick Double.sendEvent
              Scenario.stateWaiting [Scenario.message 3] 4%N)
    as (s' & Ht & Hq & _).
  - reflexivity.
  - intros m Hm. apply list_elem_of_singleton in Hm as ->. by eexists.
  - exists s'. split; [exact Ht|]. rewrite Hq. reflexivity.
Defined.

